(** * Quartermaster: the archive builder and the command dispatcher

    A shallow embedding of the two variants of the [q] command-line client.

    - [Utf8], [Regexp], [Filepath]: what the program uses of Go's
      [unicode/utf8], [regexp] and [path/filepath]: the characters that a
      string decodes to, an unanchored matcher for the fragment of the syntax
      in which the exclusion pattern is written, [Clean] and [Join].
    - [Archive]: [createAppArchive], its traversal callback and
      [filepath.Walk] over a tree of files, symbolic links and named pipes
      whose I/O calls may fail or not return.
    - [Cli]: programs as trees of calls to the outside (files, the
      remote-service collaborator, the terminal), and what holds of all or
      of some of their runs.
    - [QZip], [QExec]: [main] of the variant that builds the archive in
      process and of the variant that runs [zip].
    - [Docopt]: the argument maps that the two usages yield.

    Go strings are byte strings: they are modelled by [string], one [ascii]
    per byte. *)

From Stdlib Require Import Ascii.
From stdpp Require Import base list strings sorting gmap.

(** ** Strings *)

Module Str.

Lemma app_nil_l (s : string) : "" +:+ s = s.
Proof. reflexivity. Qed.

Lemma app_cons (c : ascii) (s t : string) :
  String c s +:+ t = String c (s +:+ t).
Proof. reflexivity. Qed.

Lemma app_nil_r (s : string) : s +:+ "" = s.
Proof. induction s as [|c s IH]; [done|]. by rewrite app_cons, IH. Qed.

Lemma app_assoc (s t u : string) : (s +:+ t) +:+ u = s +:+ t +:+ u.
Proof. induction s as [|c s IH]; [done|]. by rewrite !app_cons, IH. Qed.

Lemma app_eq_nil (s t : string) : s +:+ t = "" → s = "" ∧ t = "".
Proof. destruct s; [done|]. by rewrite app_cons. Qed.

(** [contains sub s]: [sub] occurs in [s] (Go's [strings.Contains]). *)
Definition contains (sub s : string) : Prop :=
  ∃ pre post, s = pre +:+ sub +:+ post.

Definition has_suffix (suf s : string) : Prop := ∃ pre, s = pre +:+ suf.

(** No byte of [s] is [c]. *)
Fixpoint free_of (c : ascii) (s : string) : bool :=
  match s with
  | "" => true
  | String d s' => negb (Ascii.eqb d c) && free_of c s'
  end.

Lemma free_of_app c s t : free_of c (s +:+ t) = free_of c s && free_of c t.
Proof.
  induction s as [|d s IH]; [done|].
  rewrite app_cons. simpl. by rewrite IH, andb_assoc.
Qed.

Lemma app_cons_ne (s t : string) (c : ascii) : s ≠ s +:+ String c t.
Proof.
  induction s as [|d s IH]; [done|]. rewrite app_cons. by intros [= ?].
Qed.

(** Go's [strings.HasPrefix] and [strings.Contains]. *)
Fixpoint has_prefix (s pre : string) {struct pre} : bool :=
  match pre, s with
  | "", _ => true
  | String c pre', String d s' => Ascii.eqb c d && has_prefix s' pre'
  | String _ _, "" => false
  end.

Fixpoint containsb (s sub : string) : bool :=
  has_prefix s sub ||
  match s with
  | "" => false
  | String _ s' => containsb s' sub
  end.

Lemma has_prefix_spec s pre : has_prefix s pre = true ↔ ∃ post, s = pre +:+ post.
Proof.
  revert s. induction pre as [|c pre IH]; intros s; simpl.
  - split; [by exists s | done].
  - destruct s as [|d s].
    + split; [done | by intros (? & ?)].
    + rewrite andb_true_iff, IH. split.
      * intros [Hc (post & ->)]. exists post.
        by destruct (Ascii.eqb_spec c d) as [->|].
      * intros (post & Hs). rewrite app_cons in Hs. injection Hs as -> ->.
        rewrite Ascii.eqb_refl. eauto.
Qed.

Lemma containsb_spec s sub : containsb s sub = true ↔ contains sub s.
Proof.
  unfold contains. induction s as [|c s IH];
    [change (containsb "" sub) with (has_prefix "" sub || false)
    |change (containsb (String c s) sub)
       with (has_prefix (String c s) sub || containsb s sub)];
    rewrite orb_true_iff, has_prefix_spec.
  - split.
    + intros [(post & ->)|?]; [|done]. by exists "", post.
    + intros (pre & post & Hs). left.
      symmetry in Hs. apply app_eq_nil in Hs as [-> Hs]. eauto.
  - rewrite IH. split.
    + intros [(post & ->)|(pre & post & ->)].
      * by exists "", post.
      * by exists (String c pre), post.
    + intros ([|d pre] & post & Hs).
      * left. by exists post.
      * rewrite app_cons in Hs. injection Hs as <- ->. right. eauto.
Qed.

(** Go's [strings.Split] on a one-byte separator. *)
Fixpoint split (sep : ascii) (s : string) : list string :=
  match s with
  | "" => [""]
  | String c s' =>
      if Ascii.eqb c sep then "" :: split sep s'
      else match split sep s' with
           | h :: t => String c h :: t
           | [] => [String c ""]
           end
  end.

Lemma split_nonempty sep s : split sep s ≠ [].
Proof. destruct s as [|c s]; simpl; [done|]. by repeat case_match. Qed.

Lemma split_free sep s : free_of sep s = true → split sep s = [s].
Proof.
  induction s as [|c s IH]; simpl; [done|].
  intros [Hc Hs]%andb_true_iff. apply negb_true_iff in Hc.
  by rewrite Hc, IH.
Qed.

Lemma split_cons_sep sep s : split sep (String sep s) = "" :: split sep s.
Proof. simpl. by rewrite Ascii.eqb_refl. Qed.

Lemma split_app_sep sep s t :
  split sep (s +:+ String sep t) = removelast (split sep s) ++
    match last (split sep s) with Some e => [e] | None => [] end ++ split sep t.
Proof.
  induction s as [|c s IH].
  - rewrite app_nil_l, split_cons_sep. done.
  - rewrite app_cons. simpl. destruct (Ascii.eqb c sep).
    + rewrite IH. pose proof (split_nonempty sep s).
      destruct (split sep s) as [|h l] eqn:E; done.
    + rewrite IH. pose proof (split_nonempty sep s).
      destruct (split sep s) as [|h [|h' l]] eqn:E; done.
Qed.

Lemma split_snoc sep s t :
  free_of sep t = true → split sep (s +:+ String sep t) = split sep s ++ [t].
Proof.
  intros Ht. rewrite split_app_sep, (split_free _ _ Ht).
  pose proof (split_nonempty sep s) as Hne.
  destruct (split sep s) as [|h l _] using rev_ind; [done|].
  rewrite last_snoc, removelast_last. by rewrite <- (assoc_L (++)).
Qed.

Lemma split_cons_free sep s t :
  free_of sep s = true → split sep (s +:+ String sep t) = s :: split sep t.
Proof. intros Hs. by rewrite split_app_sep, (split_free _ _ Hs). Qed.

Lemma split_free_of sep s : Forall (λ e, free_of sep e = true) (split sep s).
Proof.
  induction s as [|c s IH]; simpl; [by repeat constructor|].
  destruct (Ascii.eqb c sep) eqn:Hc.
  - by constructor.
  - destruct IH as [|h t Hh Ht]; [by repeat constructor; simpl; rewrite Hc|].
    constructor; [|done]. simpl. by rewrite Hc.
Qed.

Lemma has_prefix_app s t pre :
  s ≠ "" → has_prefix (s +:+ t) (String pre "") = has_prefix s (String pre "").
Proof. by destruct s. Qed.

Lemma has_prefix_free c s : free_of c s = true → has_prefix s (String c "") = false.
Proof.
  destruct s as [|d s]; [done|].
  change (free_of c (String d s)) with (negb (Ascii.eqb d c) && free_of c s).
  change (has_prefix (String d s) (String c "")) with (Ascii.eqb c d && true).
  intros [Hc _]%andb_true_iff. apply negb_true_iff in Hc.
  by rewrite Ascii.eqb_sym, Hc.
Qed.

(** Two names without separator, each followed by nothing or by a
    separator, are equal as soon as the two strings are. *)
Lemma app_sep_inj sep n1 n2 t1 t2 :
  free_of sep n1 = true → free_of sep n2 = true →
  (t1 = "" ∨ ∃ t, t1 = String sep t) → (t2 = "" ∨ ∃ t, t2 = String sep t) →
  n1 +:+ t1 = n2 +:+ t2 → n1 = n2 ∧ t1 = t2.
Proof.
  revert n2. induction n1 as [|c n1 IH]; intros [|d n2]; simpl;
    rewrite ?app_nil_l, ?app_cons.
  - done.
  - intros _ [Hd _]%andb_true_iff [->|[t ->]] _ Heq; [done|].
    injection Heq as <- _. by rewrite Ascii.eqb_refl in Hd.
  - intros [Hc _]%andb_true_iff _ _ [->|[t ->]] Heq; [done|].
    injection Heq as -> _. by rewrite Ascii.eqb_refl in Hc.
  - intros [_ H1]%andb_true_iff [_ H2]%andb_true_iff Ht1 Ht2 Heq.
    injection Heq as -> Heq.
    destruct (IH n2 H1 H2 Ht1 Ht2 Heq) as [-> ->]. done.
Qed.

End Str.

(** ** UTF-8: how Go's [regexp] reads a string

    A Go string holds bytes.  [regexp] does not match on bytes: it steps
    through the string one character at a time, decoding it as
    [utf8.DecodeRuneInString] does.  A byte below [0x80] is a character of its
    own; a byte that starts a well-formed sequence of 2 to 4 bytes makes one
    character with them; any other byte is a character of its own as well
    (it reads as [utf8.RuneError], of width 1). *)

Module Utf8.

Definition code (c : ascii) : N := N_of_ascii c.

Definition is_ascii (c : ascii) : bool := (code c <? 128)%N.

Definition between (lo hi : N) (c : ascii) : bool :=
  ((lo <=? code c) && (code c <=? hi))%N.

(** A continuation byte: [0x80] to [0xBF]. *)
Definition continuation (c : ascii) : bool := between 128 191 c.

(** The table [first] with the accept ranges of [unicode/utf8]: for a byte
    that may start a sequence of several bytes, the length of the sequence
    and the range in which its second byte must lie. *)
Definition first (c : ascii) : option (nat * (N * N)) :=
  let b := code c in
  if (b <? 194)%N then None                       (* ASCII, or not a first byte *)
  else if (b <=? 223)%N then Some (2, (128, 191)%N)
  else if (b =? 224)%N then Some (3, (160, 191)%N)
  else if (b <=? 236)%N then Some (3, (128, 191)%N)
  else if (b =? 237)%N then Some (3, (128, 159)%N)
  else if (b <=? 239)%N then Some (3, (128, 191)%N)
  else if (b =? 240)%N then Some (4, (144, 191)%N)
  else if (b <=? 243)%N then Some (4, (128, 191)%N)
  else if (b =? 244)%N then Some (4, (128, 143)%N)
  else None.

(** The next [n] bytes are there and are continuation bytes. *)
Fixpoint continues (n : nat) (s : string) : bool :=
  match n with
  | 0 => true
  | S n =>
      match s with
      | String c s' => continuation c && continues n s'
      | "" => false
      end
  end.

(** The bytes after the first one complete a sequence of [size] bytes. *)
Definition completes (size : nat) (lo hi : N) (s : string) : bool :=
  match s with
  | String c s' => between lo hi c && continues (size - 2) s'
  | "" => false
  end.

(** The width of the first character of [s]. *)
Definition width (s : string) : nat :=
  match s with
  | "" => 0
  | String c s' =>
      match first c with
      | Some (size, (lo, hi)) => if completes size lo hi s' then size else 1
      | None => 1
      end
  end.

Fixpoint head_of (n : nat) (s : string) : string :=
  match n, s with
  | S n, String c s' => String c (head_of n s')
  | _, _ => ""
  end.

Fixpoint tail_of (n : nat) (s : string) : string :=
  match n, s with
  | S n, String _ s' => tail_of n s'
  | _, _ => s
  end.

(** The characters of [s], each as the bytes that encode it; [skip] bytes
    belong to the character before. *)
Fixpoint runes_from (skip : nat) (s : string) : list string :=
  match s with
  | "" => []
  | String _ s' =>
      match skip with
      | S skip => runes_from skip s'
      | 0 => head_of (width s) s :: runes_from (width s - 1) s'
      end
  end.

Definition runes (s : string) : list string := runes_from 0 s.

(** [t] is the encoding of one character. *)
Definition is_rune (t : string) : Prop := runes t = [t].

(** The bytes of a list of characters. *)
Definition join (l : list string) : string := foldr String.append "" l.

(** An ASCII string, character by character. *)
Fixpoint chars (s : string) : list string :=
  match s with
  | "" => []
  | String c s' => String c "" :: chars s'
  end.

Fixpoint all_ascii (s : string) : bool :=
  match s with
  | "" => true
  | String c s' => is_ascii c && all_ascii s'
  end.

(** A string from the codes of its bytes. *)
Definition of_codes (l : list nat) : string :=
  foldr (λ n s, String (ascii_of_nat n) s) "" l.

Example runes_examples :
  runes "go/égit" = ["g"; "o"; "/"; "é"; "g"; "i"; "t"] ∧
  runes "a€😀" = ["a"; "€"; "😀"] ∧
  of_codes [195; 169] = "é" ∧
  (* a first byte without its continuation, a continuation byte alone, a
     sequence cut short, a surrogate, an overlong encoding *)
  runes (of_codes [195; 40; 169; 226; 130; 237; 160; 128; 192; 128])
  = of_codes <$> [[195]; [40]; [169]; [226]; [130]; [237]; [160]; [128]; [192]; [128]].
Proof. vm_compute. done. Qed.

Lemma first_inv c size lo hi :
  first c = Some (size, (lo, hi)) →
  2 ≤ size ∧ (128 ≤ lo)%N ∧ is_ascii c = false.
Proof.
  destruct c as [[] [] [] [] [] [] [] []]; vm_compute;
    intros [= <- <- <-]; split_and!; first [lia | done].
Qed.

Lemma first_ascii c : is_ascii c = true → first c = None.
Proof. destruct c as [[] [] [] [] [] [] [] []]; vm_compute; done. Qed.

Lemma between_ascii lo hi c :
  is_ascii c = true → (128 ≤ lo)%N → between lo hi c = false.
Proof.
  unfold is_ascii, between. intros Hc%N.ltb_lt Hlo.
  apply andb_false_iff. left. apply N.leb_gt. lia.
Qed.

Lemma continues_app_ascii n a c b :
  is_ascii c = true → continues n (a +:+ String c b) = continues n a.
Proof.
  intros Hc. revert a. induction n as [|n IH]; intros [|x a]; simpl; [done..| |].
  - unfold continuation. by rewrite between_ascii.
  - by rewrite IH.
Qed.

Lemma completes_app_ascii size lo hi a c b :
  is_ascii c = true → (128 ≤ lo)%N →
  completes size lo hi (a +:+ String c b) = completes size lo hi a.
Proof.
  intros Hc Hlo. destruct a as [|x a]; simpl.
  - by rewrite between_ascii.
  - by rewrite continues_app_ascii.
Qed.

(** An ASCII byte ends the character before it, as the end of the string
    does. *)
Lemma width_app_ascii x a c b :
  is_ascii c = true →
  width (String x (a +:+ String c b)) = width (String x a).
Proof.
  intros Hc. simpl. destruct (first x) as [[size [lo hi]]|] eqn:Hx; [|done].
  apply first_inv in Hx as (_ & Hlo & _). by rewrite completes_app_ascii.
Qed.

Lemma continues_length n s : continues n s = true → n ≤ String.length s.
Proof.
  revert s. induction n as [|n IH]; intros [|c s]; simpl; [lia..|done|].
  intros [_ ?%IH]%andb_true_iff. lia.
Qed.

Lemma width_bounds c s : 1 ≤ width (String c s) ≤ S (String.length s).
Proof.
  simpl. destruct (first c) as [[size [lo hi]]|] eqn:Hc; [|lia].
  apply first_inv in Hc as (Hsize & _).
  destruct (completes size lo hi s) eqn:Hs; [|lia].
  destruct s as [|d s]; [done|]. simpl in Hs.
  apply andb_true_iff in Hs as [_ Hs%continues_length]. simpl. lia.
Qed.

Lemma head_of_app n a b : n ≤ String.length a → head_of n (a +:+ b) = head_of n a.
Proof.
  revert a. induction n as [|n IH]; intros [|c a]; simpl; [by destruct b|done|lia|].
  intros ?. rewrite IH by lia. done.
Qed.

Lemma head_tail n s : head_of n s +:+ tail_of n s = s.
Proof.
  revert s. induction n as [|n IH]; intros [|c s]; [done..|].
  cbn [head_of tail_of]. by rewrite Str.app_cons, IH.
Qed.

Lemma head_of_all n s : String.length s ≤ n → head_of n s = s.
Proof.
  revert s. induction n as [|n IH]; intros [|c s]; simpl; [done|lia|done|].
  intros ?. rewrite IH by lia. done.
Qed.

Lemma join_app l1 l2 : join (l1 ++ l2) = join l1 +:+ join l2.
Proof.
  induction l1 as [|t l1 IH]; simpl; [done|]. by rewrite IH, Str.app_assoc.
Qed.

Lemma join_chars s : join (chars s) = s.
Proof. induction s as [|c s IH]; simpl; [done|]. by rewrite IH. Qed.

(** The characters of a string are a partition of its bytes. *)
Lemma join_runes_from skip s :
  skip ≤ String.length s → join (runes_from skip s) = tail_of skip s.
Proof.
  revert skip. induction s as [|c s IH]; intros [|skip] Hskip;
    [done|simpl in Hskip; lia| |].
  - pose proof (width_bounds c s) as Hw.
    change (runes_from 0 (String c s))
      with (head_of (width (String c s)) (String c s)
              :: runes_from (width (String c s) - 1) s).
    cbn [join foldr]. fold (join (runes_from (width (String c s) - 1) s)).
    rewrite IH by lia.
    destruct (width (String c s)) as [|w]; [lia|].
    replace (S w - 1) with w by lia.
    change (head_of (S w) (String c s)) with (String c (head_of w s)).
    by rewrite Str.app_cons, head_tail.
  - simpl in *. apply IH. lia.
Qed.

Lemma join_runes s : join (runes s) = s.
Proof. apply (join_runes_from 0). lia. Qed.

Lemma runes_from_app skip a c b :
  is_ascii c = true → skip ≤ String.length a →
  runes_from skip (a +:+ String c b) = runes_from skip a ++ String c "" :: runes b.
Proof.
  intros Hc. revert skip. induction a as [|x a IH]; intros [|skip] Hskip.
  - rewrite Str.app_nil_l.
    change (runes_from 0 (String c b))
      with (head_of (width (String c b)) (String c b)
              :: runes_from (width (String c b) - 1) b).
    assert (width (String c b) = 1) as -> by (simpl; by rewrite first_ascii).
    done.
  - simpl in Hskip. lia.
  - pose proof (width_bounds x a) as Hw. rewrite Str.app_cons.
    change (runes_from 0 (String x ?s))
      with (head_of (width (String x s)) (String x s)
              :: runes_from (width (String x s) - 1) s).
    rewrite width_app_ascii by done.
    rewrite IH by lia. rewrite <- Str.app_cons, head_of_app by (cbn [String.length]; lia). done.
  - rewrite Str.app_cons. simpl in *. apply IH. lia.
Qed.

(** An ASCII byte is a character wherever it stands. *)
Lemma runes_app a c b :
  is_ascii c = true → runes (a +:+ String c b) = runes a ++ String c "" :: runes b.
Proof. intros Hc. apply runes_from_app; [done | lia]. Qed.

Lemma runes_cons c s : is_ascii c = true → runes (String c s) = String c "" :: runes s.
Proof. intros Hc. by rewrite <- (Str.app_nil_l (String c s)), runes_app. Qed.

Lemma runes_ascii s t :
  all_ascii s = true → runes (s +:+ t) = chars s ++ runes t.
Proof.
  induction s as [|c s IH]; [done|]. cbn [all_ascii chars].
  intros [Hc Hs]%andb_true_iff. by rewrite Str.app_cons, runes_cons, IH.
Qed.

Lemma runes_app_ascii a s b :
  all_ascii s = true → s ≠ "" →
  runes (a +:+ s +:+ b) = runes a ++ chars s ++ runes b.
Proof.
  destruct s as [|c s]; [done|]. cbn [all_ascii chars].
  intros [Hc Hs]%andb_true_iff _.
  rewrite Str.app_cons, runes_app by done. by rewrite runes_ascii.
Qed.

(** *** What a character is made of *)

Lemma runes_from_Forall (P : string → Prop) :
  (∀ c s, P (head_of (width (String c s)) (String c s))) →
  ∀ skip s, Forall P (runes_from skip s).
Proof.
  intros HP skip s. revert skip.
  induction s as [|c s IH]; intros [|skip]; [constructor..| |apply IH].
  change (runes_from 0 (String c s))
    with (head_of (width (String c s)) (String c s)
            :: runes_from (width (String c s) - 1) s).
  by constructor.
Qed.

Lemma runes_Forall (P : string → Prop) s :
  (∀ c s, P (head_of (width (String c s)) (String c s))) → Forall P (runes s).
Proof. intros HP. by apply runes_from_Forall. Qed.

Fixpoint all_high (s : string) : bool :=
  match s with
  | "" => true
  | String c s' => negb (is_ascii c) && all_high s'
  end.

Lemma continues_high n s : continues n s = true → all_high (head_of n s) = true.
Proof.
  revert s. induction n as [|n IH]; intros [|c s]; simpl; [done..|].
  intros [Hc ?%IH]%andb_true_iff. apply andb_true_iff. split; [|done].
  apply negb_true_iff. destruct (is_ascii c) eqn:Hascii; [|done].
  unfold continuation in Hc. by rewrite between_ascii in Hc.
Qed.

(** A character is one byte, or bytes that are all above [0x7F]. *)
Lemma rune_bytes c s :
  let t := head_of (width (String c s)) (String c s) in
  t = String c "" ∨ all_high t = true.
Proof.
  simpl. destruct (first c) as [[size [lo hi]]|] eqn:Hc; [|by left].
  apply first_inv in Hc as (Hsize & Hlo & Hc).
  destruct (completes size lo hi s) eqn:Hs; [|by left]. right.
  destruct size as [|[|size]]; [lia..|].
  destruct s as [|d s]; [done|]. simpl in Hs.
  apply andb_true_iff in Hs as [Hd Hs]. replace (size - 0) with size in Hs by lia.
  cbn [head_of all_high]. rewrite Hc, (continues_high _ _ Hs).
  destruct (is_ascii d) eqn:Hascii; [|done]. by rewrite between_ascii in Hd.
Qed.

Lemma all_high_free c t : is_ascii c = true → all_high t = true → Str.free_of c t = true.
Proof.
  intros Hc. induction t as [|d t IH]; simpl; [done|].
  intros [Hd ?%IH]%andb_true_iff. apply andb_true_iff. split; [|done].
  apply negb_true_iff in Hd. apply negb_true_iff.
  destruct (Ascii.eqb_spec d c) as [->|]; [congruence | done].
Qed.

(** An ASCII byte never lies inside a character of several bytes. *)
Lemma rune_ascii s t c :
  t ∈ runes s → is_ascii c = true → t = String c "" ∨ Str.free_of c t = true.
Proof.
  intros Ht Hc. revert t Ht. apply Forall_forall, runes_Forall. clear s.
  intros d s. destruct (rune_bytes d s) as [->|Hhigh].
  - simpl. destruct (Ascii.eqb_spec d c) as [->|]; auto.
  - right. by apply all_high_free.
Qed.

Lemma rune_nonempty s t : t ∈ runes s → t ≠ "".
Proof.
  revert t. apply Forall_forall, runes_Forall. intros c s'.
  pose proof (width_bounds c s'). destruct (width (String c s')); [lia | done].
Qed.

Lemma runes_from_all skip s : String.length s ≤ skip → runes_from skip s = [].
Proof.
  revert skip. induction s as [|c s IH]; intros [|skip]; simpl; [done..|lia|].
  intros ?. apply IH. lia.
Qed.

Lemma head_of_length n s : n ≤ String.length s → String.length (head_of n s) = n.
Proof.
  revert s. induction n as [|n IH]; intros [|c s]; simpl; [done|done|lia|].
  intros ?. rewrite IH by lia. done.
Qed.

Lemma continues_head n s : continues n s = true → continues n (head_of n s) = true.
Proof.
  revert s. induction n as [|n IH]; intros [|c s]; simpl; [done..|].
  intros [-> ?%IH]%andb_true_iff. done.
Qed.

Lemma width_head c s :
  width (head_of (width (String c s)) (String c s)) = width (String c s).
Proof.
  simpl. destruct (first c) as [[size [lo hi]]|] eqn:Hc; [|by simpl; rewrite Hc].
  pose proof Hc as (Hsize & _)%first_inv.
  destruct (completes size lo hi s) eqn:Hs; [|by simpl; rewrite Hc].
  destruct size as [|[|size]]; [lia..|].
  destruct s as [|d s]; [done|]. simpl in Hs.
  apply andb_true_iff in Hs as [Hd Hs]. replace (size - 0) with size in Hs by lia.
  cbn [head_of width]. rewrite Hc. simpl. replace (size - 0) with size by lia.
  by rewrite Hd, continues_head.
Qed.

(** A character of a string is a character on its own. *)
Lemma rune_is_rune s t : t ∈ runes s → is_rune t.
Proof.
  revert t. apply Forall_forall, runes_Forall. intros c s'.
  pose proof (width_bounds c s') as Hw. unfold is_rune.
  destruct (width (String c s')) as [|w] eqn:Hwidth; [lia|].
  change (head_of (S w) (String c s')) with (String c (head_of w s')).
  change (runes (String c (head_of w s')))
    with (head_of (width (String c (head_of w s'))) (String c (head_of w s'))
            :: runes_from (width (String c (head_of w s')) - 1) (head_of w s')).
  pose proof (width_head c s') as Hwt. rewrite Hwidth in Hwt.
  change (head_of (S w) (String c s')) with (String c (head_of w s')) in Hwt.
  rewrite Hwt. f_equal.
  - apply head_of_all. cbn [String.length]. rewrite head_of_length by lia. lia.
  - apply runes_from_all. rewrite head_of_length by lia. lia.
Qed.

Lemma runes_nil s : runes s = [] → s = "".
Proof. intros H. by rewrite <- (join_runes s), H. Qed.

Lemma join_free c l : Str.free_of c (join l) = true ↔ Forall (λ t, Str.free_of c t = true) l.
Proof.
  induction l as [|t l IH]; simpl; [by split; [constructor|]|].
  rewrite Str.free_of_app, andb_true_iff, IH. split.
  - intros [? ?]. by constructor.
  - by inversion 1.
Qed.

Lemma app_snoc_inv a t s c :
  t ≠ "" → a +:+ t = s +:+ String c "" → ∃ t', t = t' +:+ String c "".
Proof.
  intros Ht. revert s. induction a as [|x a IH]; intros s.
  - rewrite Str.app_nil_l. eauto.
  - destruct s as [|y s].
    + rewrite Str.app_nil_l, Str.app_cons. intros [= _ [_ ?]%Str.app_eq_nil]. done.
    + rewrite !Str.app_cons. intros [= _ ?]. eauto.
Qed.

(** The last byte of a string is the last byte of its last character. *)
Lemma last_rune s c :
  ∃ l t, runes (s +:+ String c "") = l ++ [t +:+ String c ""].
Proof.
  pose proof (join_runes (s +:+ String c "")) as Hjoin.
  destruct (runes (s +:+ String c "")) as [|t l _] eqn:Hr using rev_ind.
  { apply runes_nil in Hr. by destruct s. }
  assert (t ≠ "") as Hne.
  { apply (rune_nonempty (s +:+ String c "")). rewrite Hr. set_solver. }
  rewrite join_app in Hjoin. simpl in Hjoin. rewrite Str.app_nil_r in Hjoin.
  destruct (app_snoc_inv _ _ _ _ Hne Hjoin) as [t' ->]. eauto.
Qed.

End Utf8.

(** ** Regular expressions: the fragment of Go's [regexp] syntax that the
    exclusion pattern uses *)

Module Regexp.
Import Utf8.

Inductive regex :=
| Empty                      (* matches nothing *)
| Eps                        (* matches the empty string *)
| Chr (c : ascii)            (* a literal ASCII character *)
| AnyNotNL                   (* [.]: any character but newline *)
| Cat (r1 r2 : regex)
| Alt (r1 r2 : regex)
| Star (r : regex).

Definition newline : ascii := "010"%char.

(** The newline character. *)
Definition nl : string := String newline "".

(** The language of a regular expression: lists of characters, each given
    by the bytes that encode it.  [.] takes one character, of however many
    bytes. *)
Inductive lang : regex → list string → Prop :=
| lang_eps : lang Eps []
| lang_chr c : lang (Chr c) [String c ""]
| lang_any t : t ≠ nl → lang AnyNotNL [t]
| lang_cat r1 r2 s1 s2 : lang r1 s1 → lang r2 s2 → lang (Cat r1 r2) (s1 ++ s2)
| lang_alt_l r1 r2 s : lang r1 s → lang (Alt r1 r2) s
| lang_alt_r r1 r2 s : lang r2 s → lang (Alt r1 r2) s
| lang_star_nil r : lang (Star r) []
| lang_star_cons r s1 s2 :
    lang r s1 → lang (Star r) s2 → lang (Star r) (s1 ++ s2).

(** *** Parsing

    [regexp.MustCompile] on the fragment: ASCII literals, [.], postfix [*],
    juxtaposition, [|] and parentheses (a capture group does not change
    what [MatchString] answers). *)

Definition is_meta (c : ascii) : bool :=
  bool_decide (c ∈ ["("; ")"; "|"; "*"; "."; "+"; "?"; "["; "]"; "{"; "}";
                    "^"; "$"; "\"]%char).

Fixpoint stars (r : regex) (s : string) : regex * string :=
  match s with
  | String "*" s' => stars (Star r) s'
  | _ => (r, s)
  end.

Fixpoint parse_alt (fuel : nat) (s : string) : option (regex * string) :=
  match fuel with
  | 0 => None
  | S fuel =>
      let parse_atom (s : string) : option (regex * string) :=
        match s with
        | String "(" s1 =>
            match parse_alt fuel s1 with
            | Some (r, String ")" s2) => Some (stars r s2)
            | _ => None
            end
        | String "." s1 => Some (stars AnyNotNL s1)
        | String c s1 =>
            if is_meta c || negb (is_ascii c) then None else Some (stars (Chr c) s1)
        | "" => None
        end in
      let fix parse_cat (n : nat) (s : string) : option (regex * string) :=
        match n with
        | 0 => None
        | S n =>
            match s with
            | "" | String ")" _ | String "|" _ => Some (Eps, s)
            | _ =>
                match parse_atom s with
                | Some (r, s1) =>
                    match parse_cat n s1 with
                    | Some (r', s2) => Some (Cat r r', s2)
                    | None => None
                    end
                | None => None
                end
            end
        end in
      match parse_cat (S (String.length s)) s with
      | Some (r, String "|" s1) =>
          match parse_alt fuel s1 with
          | Some (r', s2) => Some (Alt r r', s2)
          | None => None
          end
      | res => res
      end
  end.

Definition Compile (expr : string) : option regex :=
  match parse_alt (S (String.length expr)) expr with
  | Some (r, "") => Some r
  | _ => None
  end.

(** [MustCompile] panics on a pattern that does not parse; the pattern of
    this program does parse ([patternToExclude_eq] below), the panic is
    modelled by the regular expression that matches nothing. *)
Definition MustCompile (expr : string) : regex :=
  default Empty (Compile expr).

(** *** Matching by derivatives *)

Fixpoint nullable (r : regex) : bool :=
  match r with
  | Empty | Chr _ | AnyNotNL => false
  | Eps | Star _ => true
  | Cat r1 r2 => nullable r1 && nullable r2
  | Alt r1 r2 => nullable r1 || nullable r2
  end.

(** What is left of [r] after the character [t]. *)
Fixpoint deriv (t : string) (r : regex) : regex :=
  match r with
  | Empty | Eps => Empty
  | Chr d => if String.eqb t (String d "") then Eps else Empty
  | AnyNotNL => if String.eqb t nl then Empty else Eps
  | Cat r1 r2 =>
      if nullable r1 then Alt (Cat (deriv t r1) r2) (deriv t r2)
      else Cat (deriv t r1) r2
  | Alt r1 r2 => Alt (deriv t r1) (deriv t r2)
  | Star r1 => Cat (deriv t r1) (Star r1)
  end.

(** Does the whole of [s] belong to the language of [r]? *)
Fixpoint accepts (r : regex) (s : list string) : bool :=
  match s with
  | [] => nullable r
  | t :: s' => accepts (deriv t r) s'
  end.

(** Does some prefix of [s] belong to the language of [r]? *)
Fixpoint match_here (r : regex) (s : list string) : bool :=
  nullable r ||
  match s with
  | [] => false
  | t :: s' => match_here (deriv t r) s'
  end.

(** Does some run of characters of [s] belong to the language of [r]? *)
Fixpoint search (r : regex) (s : list string) : bool :=
  match_here r s ||
  match s with
  | [] => false
  | _ :: s' => search r s'
  end.

(** [Regexp.MatchString]: the string is read as UTF-8, character by
    character; the pattern is not anchored, it matches when some run of
    characters of [s] belongs to its language. *)
Definition MatchString (r : regex) (s : string) : bool := search r (runes s).

(** *** The matcher decides the language *)

Lemma lang_Empty_iff s : lang Empty s ↔ False.
Proof. split; [inversion 1 | done]. Qed.

Lemma lang_Eps_iff s : lang Eps s ↔ s = [].
Proof. split; [by inversion 1 | intros ->; constructor]. Qed.

Lemma lang_Chr_iff c s : lang (Chr c) s ↔ s = [String c ""].
Proof. split; [by inversion 1 | intros ->; constructor]. Qed.

Lemma lang_Any_iff s : lang AnyNotNL s ↔ ∃ t, t ≠ nl ∧ s = [t].
Proof.
  split; [inversion 1; eauto | intros (t & ? & ->); by constructor].
Qed.

Lemma lang_Cat_iff r1 r2 s :
  lang (Cat r1 r2) s ↔ ∃ s1 s2, s = s1 ++ s2 ∧ lang r1 s1 ∧ lang r2 s2.
Proof.
  split; [inversion 1; eauto | intros (s1 & s2 & -> & ? & ?); by constructor].
Qed.

Lemma lang_Alt_iff r1 r2 s : lang (Alt r1 r2) s ↔ lang r1 s ∨ lang r2 s.
Proof.
  split; [inversion 1; auto | intros [?|?]; [by apply lang_alt_l | by apply lang_alt_r]].
Qed.

Lemma nullable_spec r : nullable r = true ↔ lang r [].
Proof.
  induction r as [| |c| |r1 IH1 r2 IH2|r1 IH1 r2 IH2|r IH]; simpl.
  - rewrite lang_Empty_iff. done.
  - rewrite lang_Eps_iff. done.
  - rewrite lang_Chr_iff. done.
  - rewrite lang_Any_iff. split; [done | by intros (? & ? & ?)].
  - rewrite andb_true_iff, IH1, IH2, lang_Cat_iff. split.
    + intros [? ?]. by exists [], [].
    + intros (s1 & s2 & Hs & ? & ?).
      symmetry in Hs. apply app_eq_nil in Hs as [-> ->]. done.
  - rewrite orb_true_iff, IH1, IH2, lang_Alt_iff. done.
  - split; [constructor | done].
Qed.

Lemma lang_star_one r s : lang r s → lang (Star r) s.
Proof.
  intros H. rewrite <- (app_nil_r s). apply lang_star_cons; [done | constructor].
Qed.

Lemma lang_deriv_1 r s' :
  lang r s' → ∀ t s, s' = t :: s → lang (deriv t r) s.
Proof.
  induction 1 as [|d|d Hd|r1 r2 s1 s2 H1 IH1 H2 IH2|r1 r2 s1 H1 IH1
                 |r1 r2 s1 H1 IH1| |r s1 s2 H1 IH1 H2 IH2];
    intros t s Heq; simpl.
  - done.
  - injection Heq as <- <-. rewrite String.eqb_refl. constructor.
  - injection Heq as <- <-.
    destruct (String.eqb_spec d nl); [done | constructor].
  - destruct s1 as [|d s1].
    + rewrite app_nil_l in Heq.
      apply nullable_spec in H1. rewrite H1.
      apply lang_alt_r. by apply IH2.
    + rewrite <- app_comm_cons in Heq. injection Heq as -> <-.
      assert (lang (Cat (deriv t r1) r2) (s1 ++ s2)) by (constructor; auto).
      destruct (nullable r1); [by apply lang_alt_l | done].
  - apply lang_alt_l. by apply IH1.
  - apply lang_alt_r. by apply IH1.
  - done.
  - destruct s1 as [|d s1].
    + rewrite app_nil_l in Heq. by apply IH2.
    + rewrite <- app_comm_cons in Heq. injection Heq as -> <-.
      constructor; auto.
Qed.

Lemma lang_deriv_2 r : ∀ t s, lang (deriv t r) s → lang r (t :: s).
Proof.
  induction r as [| |d| |r1 IH1 r2 IH2|r1 IH1 r2 IH2|r IH]; simpl; intros t s H.
  - by apply lang_Empty_iff in H.
  - by apply lang_Empty_iff in H.
  - destruct (String.eqb_spec t (String d "")) as [->|]; [|by apply lang_Empty_iff in H].
    apply lang_Eps_iff in H as ->. constructor.
  - destruct (String.eqb_spec t nl); [by apply lang_Empty_iff in H|].
    apply lang_Eps_iff in H as ->. by constructor.
  - assert (lang (Cat (deriv t r1) r2) s → lang (Cat r1 r2) (t :: s)) as Hcat.
    { rewrite lang_Cat_iff. intros (s1 & s2 & -> & ? & ?).
      rewrite app_comm_cons. constructor; auto. }
    destruct (nullable r1) eqn:Hn; [|auto].
    apply lang_Alt_iff in H as [?|?]; [auto|].
    rewrite <- (app_nil_l (t :: s)).
    constructor; [by apply nullable_spec | auto].
  - apply lang_Alt_iff in H as [?|?]; [apply lang_alt_l | apply lang_alt_r]; auto.
  - apply lang_Cat_iff in H as (s1 & s2 & -> & ? & ?).
    rewrite app_comm_cons. constructor; auto.
Qed.

Lemma deriv_spec t r s : lang (deriv t r) s ↔ lang r (t :: s).
Proof. split; [apply lang_deriv_2 | intros H; by eapply lang_deriv_1]. Qed.

Lemma accepts_spec r s : accepts r s = true ↔ lang r s.
Proof.
  revert r. induction s as [|t s IH]; intros r; simpl.
  - apply nullable_spec.
  - by rewrite IH, deriv_spec.
Qed.

Lemma match_here_spec r s :
  match_here r s = true ↔ ∃ s1 s2, s = s1 ++ s2 ∧ lang r s1.
Proof.
  revert r. induction s as [|t s IH]; intros r; simpl;
    rewrite orb_true_iff, nullable_spec.
  - split.
    + intros [?|?]; [|done]. by exists [], [].
    + intros (s1 & s2 & Hs & ?).
      symmetry in Hs. apply app_eq_nil in Hs as [-> ->]. auto.
  - rewrite IH. split.
    + intros [?|(s1 & s2 & -> & H)].
      * by exists [], (t :: s).
      * exists (t :: s1), s2. by rewrite deriv_spec in H.
    + intros ([|d s1] & s2 & Hs & H); [auto|].
      rewrite <- app_comm_cons in Hs. injection Hs as <- ->.
      right. exists s1, s2. by rewrite deriv_spec.
Qed.

Lemma search_spec r s :
  search r s = true ↔ ∃ pre mid post, s = pre ++ mid ++ post ∧ lang r mid.
Proof.
  induction s as [|t s IH]; simpl; rewrite orb_true_iff;
    [change (nullable r || false) with (match_here r [])
    |change (nullable r || match_here (deriv t r) s) with (match_here r (t :: s))];
    rewrite match_here_spec.
  - split.
    + intros [(s1 & s2 & ? & ?)|?]; [|done]. by exists [], s1, s2.
    + intros (pre & mid & post & Hs & ?). left.
      symmetry in Hs. apply app_eq_nil in Hs as [-> Hs].
      by exists mid, post.
  - rewrite IH. split.
    + intros [(s1 & s2 & ? & ?)|(pre & mid & post & -> & ?)].
      * by exists [], s1, s2.
      * by exists (t :: pre), mid, post.
    + intros ([|d pre] & mid & post & Hs & ?).
      * left. by exists mid, post.
      * rewrite <- app_comm_cons in Hs. injection Hs as <- ->.
        right. by exists pre, mid, post.
Qed.

(** [MatchString] answers whether some run of characters of the string
    belongs to the language of the pattern. *)
Lemma MatchString_spec r s :
  MatchString r s = true ↔
  ∃ pre mid post, runes s = pre ++ mid ++ post ∧ lang r mid.
Proof. apply search_spec. Qed.

(** Shapes that occur in the exclusion pattern. *)

Lemma lang_Cat_Eps r s : lang (Cat r Eps) s ↔ lang r s.
Proof.
  rewrite lang_Cat_iff. split.
  - intros (s1 & s2 & -> & ? & ->%lang_Eps_iff). by rewrite app_nil_r.
  - intros ?. exists s, []. by rewrite app_nil_r, lang_Eps_iff.
Qed.

Lemma lang_Chr_Cat c r s :
  lang (Cat (Chr c) r) s ↔ ∃ s', s = String c "" :: s' ∧ lang r s'.
Proof.
  rewrite lang_Cat_iff. split.
  - intros (s1 & s2 & -> & ->%lang_Chr_iff & ?). eauto.
  - intros (s' & -> & ?). exists [String c ""], s'. by rewrite lang_Chr_iff.
Qed.

Lemma lang_Any_Cat r s :
  lang (Cat AnyNotNL r) s ↔ ∃ t s', t ≠ nl ∧ s = t :: s' ∧ lang r s'.
Proof.
  rewrite lang_Cat_iff. split.
  - intros (s1 & s2 & -> & (t & ? & ->)%lang_Any_iff & ?). eauto.
  - intros (t & s' & ? & -> & ?). exists [t], s'.
    rewrite lang_Any_iff. eauto.
Qed.

Lemma lang_Star_Any s : lang (Star AnyNotNL) s ↔ Forall (λ t, t ≠ nl) s.
Proof.
  split.
  - remember (Star AnyNotNL) as r eqn:Hr. induction 1; try done.
    injection Hr as ->. apply Forall_app. split; [|auto].
    apply lang_Any_iff in H as (t & ? & ->). by constructor.
  - induction 1 as [|t s Ht _ IH]; [constructor|].
    change (t :: s) with ([t] ++ s). constructor; [by constructor | done].
Qed.

End Regexp.

(** ** Sorting commutes with a map that preserves the order *)

Section merge_sort_fmap.
Context {A B : Type} (R : relation A) (R' : relation B).
Context `{!∀ x y, Decision (R x y)} `{!∀ x y, Decision (R' x y)}.
Context (f : A → B) (Hf : ∀ x y, R x y ↔ R' (f x) (f y)).

Lemma list_merge_fmap l1 l2 :
  list_merge R' (f <$> l1) (f <$> l2) = f <$> list_merge R l1 l2.
Proof using Hf.
  revert l2. induction l1 as [|x1 l1 IH1]; intros l2.
  - by rewrite fmap_nil, !list_merge_nil_l.
  - induction l2 as [|x2 l2 IH2]; [by rewrite fmap_nil, !list_merge_nil_r|].
    rewrite !fmap_cons, !list_merge_cons.
    destruct (decide (R x1 x2)) as [HR|HR], (decide (R' (f x1) (f x2))) as [HR'|HR'].
    + rewrite fmap_cons. f_equal. by rewrite <- IH1.
    + by apply Hf in HR.
    + by apply Hf in HR'.
    + rewrite fmap_cons. f_equal. by rewrite <- IH2.
Qed.

Definition stack_fmap (st : list (option (list A))) : list (option (list B)) :=
  map (option_map (map f)) st.

Lemma merge_list_to_stack_fmap (st : list (option (list A))) (l : list A) :
  merge_list_to_stack R' (stack_fmap st) (f <$> l)
  = stack_fmap (merge_list_to_stack R st l).
Proof using Hf.
  revert l. induction st as [|[l'|] st IH]; intros l; simpl; [done| |done].
  rewrite list_merge_fmap. by rewrite IH.
Qed.

Lemma merge_stack_fmap (st : list (option (list A))) :
  merge_stack R' (stack_fmap st) = f <$> merge_stack R st.
Proof using Hf.
  induction st as [|[l'|] st IH]; simpl; [done| |done].
  by rewrite IH, list_merge_fmap.
Qed.

Lemma merge_sort_aux_fmap (st : list (option (list A))) (l : list A) :
  merge_sort_aux R' (stack_fmap st) (f <$> l)
  = f <$> merge_sort_aux R st l.
Proof using Hf.
  revert st. induction l as [|x l IH]; intros st; simpl.
  - apply merge_stack_fmap.
  - rewrite <- IH. f_equal. by rewrite <- merge_list_to_stack_fmap.
Qed.

Lemma merge_sort_fmap (l : list A) :
  merge_sort R' (f <$> l) = f <$> merge_sort R l.
Proof using Hf. apply (merge_sort_aux_fmap []). Qed.
End merge_sort_fmap.

(** ** Paths: [path/filepath] on a Unix system *)

Module Filepath.

(** [strings.Join(elems, "/")]. *)
Fixpoint join_sep (elems : list string) : string :=
  match elems with
  | [] => ""
  | [e] => e
  | e :: elems' => e +:+ "/" +:+ join_sep elems'
  end.

(** One element of the path being cleaned.  [out] is the output written so
    far, as the stack of its elements (last written first).  An empty
    element and [.] are dropped; [..] removes the last real element, and is
    kept in front of a path that is not rooted when there is none. *)
Definition clean_step (rooted : bool) (out : list string) (elem : string)
    : list string :=
  if bool_decide (elem = "" ∨ elem = ".") then out
  else if bool_decide (elem = "..") then
    match out with
    | e :: out' =>
        if bool_decide (e = "..") then (if rooted then out else ".." :: out)
        else out'
    | [] => if rooted then [] else [".."]
    end
  else elem :: out.

Definition render (rooted : bool) (out : list string) : string :=
  if rooted then "/" +:+ join_sep (reverse out)
  else if bool_decide (out = []) then "." else join_sep (reverse out).

(** [filepath.Clean]. *)
Definition Clean (path : string) : string :=
  if bool_decide (path = "") then "."
  else
    let rooted := Str.has_prefix path "/" in
    render rooted (foldl (clean_step rooted) [] (Str.split "/" path)).

(** [filepath.Join(dir, name)]: empty elements are ignored, the rest is
    joined by the separator and cleaned. *)
Definition Join (dir name : string) : string :=
  if bool_decide (dir = "") then
    if bool_decide (name = "") then "" else Clean name
  else Clean (dir +:+ "/" +:+ name).

(** The name of a directory entry: not empty, neither [.] nor [..],
    without a separator. *)
Definition valid_name (name : string) : bool :=
  bool_decide (name ≠ "" ∧ name ≠ "." ∧ name ≠ "..") && Str.free_of "/" name.

(** *** Joining a name onto a path *)

(** An element that [Clean] keeps: a name or [..]. *)
Definition kept (e : string) : Prop := e ≠ "" ∧ Str.free_of "/" e = true.

(** The output stack of [Clean]: names on top of the leading [..]
    elements, which only a path that is not rooted has. *)
Definition cleaned (rooted : bool) (out : list string) : Prop :=
  ∃ names k, out = names ++ replicate k ".." ∧
             Forall (λ n, valid_name n = true) names ∧ (rooted = true → k = 0).

Lemma valid_name_inv n :
  valid_name n = true → n ≠ "" ∧ n ≠ "." ∧ n ≠ ".." ∧ Str.free_of "/" n = true.
Proof.
  unfold valid_name. intros [H ?]%andb_true_iff.
  apply bool_decide_eq_true in H. tauto.
Qed.

Lemma valid_name_kept n : valid_name n = true → kept n.
Proof. intros H%valid_name_inv. unfold kept. tauto. Qed.

Lemma cleaned_kept rooted out : cleaned rooted out → Forall kept out.
Proof.
  intros (names & k & -> & Hn & _). apply Forall_app. split.
  - eapply Forall_impl; [done | apply valid_name_kept].
  - apply Forall_replicate. done.
Qed.

Lemma cleaned_nil rooted : cleaned rooted [].
Proof. by exists [], 0. Qed.

Lemma cleaned_cons rooted out n :
  valid_name n = true → cleaned rooted out → cleaned rooted (n :: out).
Proof.
  intros Hn (names & k & -> & ? & ?). exists (n :: names), k.
  split_and!; [done | by constructor | done].
Qed.

Lemma clean_step_valid rooted out n :
  valid_name n = true → clean_step rooted out n = n :: out.
Proof.
  intros (? & ? & ? & _)%valid_name_inv. unfold clean_step.
  rewrite bool_decide_eq_false_2 by tauto.
  by rewrite bool_decide_eq_false_2.
Qed.

Lemma clean_step_cleaned rooted out e :
  Str.free_of "/" e = true → cleaned rooted out →
  cleaned rooted (clean_step rooted out e).
Proof.
  intros He Hout. unfold clean_step.
  case_bool_decide as H1; [done|]. case_bool_decide as H2.
  - destruct Hout as ([|n names] & k & -> & Hn & Hk); simpl.
    + destruct k as [|k]; simpl.
      * destruct rooted; [apply cleaned_nil|]. by exists [], 1.
      * destruct rooted; [by specialize (Hk eq_refl)|].
        by exists [], (S (S k)).
    + apply Forall_cons in Hn as [Hn Hnames].
      apply valid_name_inv in Hn as (? & ? & ? & _).
      rewrite bool_decide_eq_false_2 by done. by exists names, k.
  - apply cleaned_cons; [|done]. unfold valid_name.
    rewrite He, bool_decide_eq_true_2; [done|]. tauto.
Qed.

Lemma foldl_clean_step_cleaned rooted out elems :
  Forall (λ e, Str.free_of "/" e = true) elems → cleaned rooted out →
  cleaned rooted (foldl (clean_step rooted) out elems).
Proof.
  intros He. revert out. induction He as [|e elems ? ? IH]; intros out ?; simpl.
  - done.
  - by apply IH, clean_step_cleaned.
Qed.

(** Cleaning what [Clean] has written writes it again. *)
Lemma foldl_clean_step_names rooted out names :
  Forall (λ n, valid_name n = true) names →
  foldl (clean_step rooted) out names = reverse names ++ out.
Proof.
  intros Hn. revert out. induction Hn as [|n names ? ? IH]; intros out; simpl.
  - done.
  - rewrite clean_step_valid, IH, reverse_cons by done.
    by rewrite <- (assoc_L (++)).
Qed.

Lemma foldl_clean_step_dotdot rooted j k :
  (rooted = true → k = 0) →
  foldl (clean_step rooted) (replicate j "..") (replicate k "..")
  = replicate (k + j) "..".
Proof.
  intros Hk. revert j. induction k as [|k IH]; intros j; simpl; [done|].
  destruct rooted; [by specialize (Hk eq_refl)|].
  assert (clean_step false (replicate j "..") ".." = replicate (S j) "..") as ->.
  { unfold clean_step. simpl. by destruct j. }
  rewrite IH by done. by rewrite Nat.add_succ_r.
Qed.

Lemma foldl_clean_step_cleaned_id rooted out :
  cleaned rooted out → foldl (clean_step rooted) [] (reverse out) = out.
Proof.
  intros (names & k & -> & Hn & Hk).
  rewrite reverse_app, reverse_replicate, foldl_app.
  change (@nil string) with (replicate 0 "..") at 1.
  rewrite (foldl_clean_step_dotdot rooted 0 k Hk), Nat.add_0_r.
  rewrite foldl_clean_step_names by by apply Forall_reverse.
  by rewrite reverse_involutive.
Qed.

Lemma reverse_eq_nil {A} (l : list A) : reverse l = [] → l = [].
Proof.
  destruct l as [|x l]; [done|]. rewrite reverse_cons. by intros [_ ?]%app_eq_nil.
Qed.

Lemma join_sep_snoc elems e :
  elems ≠ [] → join_sep (elems ++ [e]) = join_sep elems +:+ "/" +:+ e.
Proof.
  induction elems as [|e1 [|e2 elems] IH]; intros ?; [done..|].
  change (join_sep ((e1 :: e2 :: elems) ++ [e]))
    with (e1 +:+ "/" +:+ join_sep ((e2 :: elems) ++ [e])).
  rewrite IH by done.
  change (join_sep (e1 :: e2 :: elems)) with (e1 +:+ "/" +:+ join_sep (e2 :: elems)).
  by rewrite !Str.app_assoc.
Qed.

Lemma split_join_sep elems :
  elems ≠ [] → Forall kept elems → Str.split "/" (join_sep elems) = elems.
Proof.
  induction elems as [|e1 [|e2 elems] IH]; intros ? He; [done|..].
  - apply Forall_cons in He as [[_ ?] _]. by apply Str.split_free.
  - apply Forall_cons in He as [[_ ?] He].
    change (join_sep (e1 :: e2 :: elems)) with (e1 +:+ String "/" (join_sep (e2 :: elems))).
    rewrite Str.split_cons_free by done. by rewrite IH.
Qed.

Lemma join_sep_not_rooted elems :
  Forall kept elems → Str.has_prefix (join_sep elems) "/" = false.
Proof.
  destruct 1 as [|e elems [He Hfree] _]; [done|].
  assert (Str.has_prefix e "/" = false) as Hp by by apply Str.has_prefix_free.
  destruct elems; [done|].
  change (join_sep (e :: s :: elems)) with (e +:+ "/" +:+ join_sep (s :: elems)).
  by rewrite Str.has_prefix_app.
Qed.

Lemma join_sep_nonempty elems : elems ≠ [] → Forall kept elems → join_sep elems ≠ "".
Proof.
  intros ? He. destruct He as [|e elems [He _] _]; [done|].
  destruct elems; [done|].
  change (join_sep (e :: s :: elems)) with (e +:+ "/" +:+ join_sep (s :: elems)).
  by destruct e.
Qed.

(** The directory part that [Join] writes before a name. *)
Definition dir_rooted (dir : string) : bool :=
  if bool_decide (dir = "") then false else Str.has_prefix dir "/".

Definition dir_out (dir : string) : list string :=
  if bool_decide (dir = "") then []
  else foldl (clean_step (dir_rooted dir)) [] (Str.split "/" dir).

Lemma dir_out_cleaned dir : cleaned (dir_rooted dir) (dir_out dir).
Proof.
  unfold dir_out. case_bool_decide; [apply cleaned_nil|].
  apply foldl_clean_step_cleaned; [apply Str.split_free_of | apply cleaned_nil].
Qed.

Lemma Join_valid dir name :
  valid_name name = true →
  Join dir name = render (dir_rooted dir) (name :: dir_out dir).
Proof.
  intros Hn. pose proof (valid_name_inv _ Hn) as (? & _ & _ & Hfree).
  unfold Join, dir_out, dir_rooted. case_bool_decide as Hdir.
  - rewrite bool_decide_eq_false_2 by done. unfold Clean.
    rewrite bool_decide_eq_false_2 by done.
    rewrite Str.split_free, Str.has_prefix_free by done. cbn [foldl].
    by rewrite clean_step_valid.
  - unfold Clean. rewrite bool_decide_eq_false_2 by by destruct dir.
    rewrite Str.has_prefix_app by done.
    change (dir +:+ "/" +:+ name) with (dir +:+ String "/" name).
    rewrite Str.split_snoc, foldl_app by done. cbn [foldl].
    by rewrite clean_step_valid.
Qed.

(** A path that ends in a name, as [Join] returns it. *)
Definition settled (q : string) : Prop :=
  ∃ rooted out name,
    cleaned rooted out ∧ valid_name name = true ∧ q = render rooted (name :: out).

Lemma Join_settled dir name : valid_name name = true → settled (Join dir name).
Proof.
  intros Hn. exists (dir_rooted dir), (dir_out dir), name.
  split_and!; [apply dir_out_cleaned | done | by apply Join_valid].
Qed.

Lemma render_snoc rooted out name :
  out ≠ [] →
  render rooted (name :: out) = render rooted out +:+ "/" +:+ name.
Proof.
  intros Hout. unfold render. rewrite reverse_cons.
  rewrite join_sep_snoc by (by intros ?%reverse_eq_nil).
  rewrite bool_decide_eq_false_2 by done.
  rewrite (bool_decide_eq_false_2 (out = [])) by done.
  destruct rooted; [by rewrite Str.app_assoc | done].
Qed.

Lemma settled_dir rooted out name :
  cleaned rooted out → valid_name name = true →
  let q := render rooted (name :: out) in
  q ≠ "" ∧ dir_rooted q = rooted ∧ dir_out q = name :: out.
Proof.
  intros Hout Hn q.
  assert (cleaned rooted (name :: out)) as Hc by by apply cleaned_cons.
  pose proof (cleaned_kept _ _ Hc) as Hk.
  assert (Forall kept (reverse (name :: out))) as Hk' by by apply Forall_reverse.
  assert (reverse (name :: out) ≠ []) as Hne by (by intros ?%reverse_eq_nil).
  assert (q ≠ "" ∧ Str.has_prefix q "/" = rooted ∧
          foldl (clean_step rooted) [] (Str.split "/" q) = name :: out)
    as (Hq & Hr & Hf).
  { subst q. unfold render. destruct rooted.
    - split_and!; [done..|].
      change ("/" +:+ ?s) with (String "/" s).
      rewrite Str.split_cons_sep, split_join_sep by done. simpl.
      change (clean_step true [] "") with (@nil string).
      by apply foldl_clean_step_cleaned_id.
    - rewrite bool_decide_eq_false_2 by done.
      split_and!; [by apply join_sep_nonempty | by apply join_sep_not_rooted |].
      rewrite split_join_sep by done.
      by apply foldl_clean_step_cleaned_id. }
  unfold dir_out, dir_rooted. rewrite bool_decide_eq_false_2 by done.
  by rewrite Hr.
Qed.

Lemma Join_on_settled q name :
  settled q → valid_name name = true →
  Join q name = q +:+ "/" +:+ name ∧ settled (q +:+ "/" +:+ name).
Proof.
  intros (rooted & out & n & Hout & Hn & ->) Hname.
  destruct (settled_dir rooted out n Hout Hn) as (_ & Hr & Ho).
  rewrite <- (render_snoc rooted (n :: out) name) by done.
  split.
  - by rewrite Join_valid, Hr, Ho.
  - exists rooted, (n :: out), name. split_and!; [by apply cleaned_cons | done..].
Qed.

(** What [Join dir] writes before the name. *)
Definition dir_base (dir : string) : string :=
  if bool_decide (dir_out dir = []) then (if dir_rooted dir then "/" else "")
  else render (dir_rooted dir) (dir_out dir) +:+ "/".

Lemma Join_base dir name :
  valid_name name = true → Join dir name = dir_base dir +:+ name.
Proof.
  intros Hn. rewrite Join_valid by done. unfold dir_base.
  case_bool_decide as Ho.
  - rewrite Ho. unfold render. by destruct (dir_rooted dir).
  - rewrite render_snoc by done. by rewrite Str.app_assoc.
Qed.

End Filepath.
Import Filepath.

(** ** The archive builder *)

Module Archive.
Import Utf8 Regexp.

(** *** The exclusion pattern *)

Definition exclusionPattern : string :=
  "(.DS_Store)" +:+ "|" +:+
  "(go/.*/.git)" +:+ "|" +:+
  "(go/.*/.bzr)" +:+ "|" +:+
  "(go/.*/.hg)" +:+ "|" +:+
  "(go/pkg)" +:+ "|" +:+
  "(go/bin)".

Definition patternToExclude : regex := MustCompile exclusionPattern.

(** The test of the traversal callback: [patternToExclude.MatchString(path)]. *)
Definition excluded (path : string) : bool := MatchString patternToExclude path.

(** A literal run of ASCII characters followed by [r]. *)
Fixpoint lit_then (s : string) (r : regex) : regex :=
  match s with
  | "" => r
  | String c s' => Cat (Chr c) (lit_then s' r)
  end.

(** [go/.*/.v]: the three version-control alternatives. *)
Definition vcs (v : string) : regex :=
  lit_then "go/" (Cat (Star AnyNotNL) (lit_then "/" (Cat AnyNotNL (lit_then v Eps)))).

Lemma patternToExclude_eq :
  Compile exclusionPattern =
  Some (Alt (Cat (Cat AnyNotNL (lit_then "DS_Store" Eps)) Eps)
       (Alt (Cat (vcs "git") Eps)
       (Alt (Cat (vcs "bzr") Eps)
       (Alt (Cat (vcs "hg") Eps)
       (Alt (Cat (lit_then "go/pkg" Eps) Eps)
            (Cat (lit_then "go/bin" Eps) Eps)))))).
Proof. vm_compute. reflexivity. Qed.

(** The strings of the pattern's language, one constructor per alternative
    of the pattern.  A [.] of the pattern stands for one character, the
    bytes [t] of its UTF-8 encoding; [.*] for any bytes without newline. *)
Inductive hit : string → Prop :=
| hit_DS_Store t : is_rune t → t ≠ nl → hit (t +:+ "DS_Store")
| hit_vcs mid t v :
    Str.free_of newline mid = true → is_rune t → t ≠ nl →
    v ∈ ["git"; "bzr"; "hg"] →
    hit ("go/" +:+ mid +:+ "/" +:+ t +:+ v)
| hit_pkg : hit "go/pkg"
| hit_bin : hit "go/bin".

(** The same, character by character. *)
Inductive hit_chars : list string → Prop :=
| hit_chars_DS_Store t : t ≠ nl → hit_chars (t :: chars "DS_Store")
| hit_chars_vcs mid t v :
    Forall (λ t, t ≠ nl) mid → t ≠ nl → v ∈ ["git"; "bzr"; "hg"] →
    hit_chars (chars "go/" ++ mid ++ chars "/" ++ t :: chars v)
| hit_chars_pkg : hit_chars (chars "go/pkg")
| hit_chars_bin : hit_chars (chars "go/bin").

(** The exclusion predicate in the words of the specification, on the
    segments of the path, read in the way that excludes most: the path
    contains [.DS_Store]; or it has a segment [go] (the traversal path
    starts with the root, so the [go] directory is looked for at any depth)
    and a later segment is [.git], [.bzr] or [.hg]; or the segment after
    [go] is [pkg] or [bin]. *)
Fixpoint below_go (segments : list string) : bool :=
  match segments with
  | [] => false
  | segment :: rest =>
      bool_decide (segment = "go") &&
      (existsb (λ seg, bool_decide (seg ∈ [".git"; ".bzr"; ".hg"])) rest ||
       match rest with
       | seg :: _ => bool_decide (seg ∈ ["pkg"; "bin"])
       | [] => false
       end) ||
      below_go rest
  end.

Definition spec_excluded (path : string) : bool :=
  Str.containsb path ".DS_Store" || below_go (Str.split "/" path).

Lemma lang_lit_then s r l :
  lang (lit_then s r) l ↔ ∃ l', l = chars s ++ l' ∧ lang r l'.
Proof.
  revert l. induction s as [|c s IH]; intros l; simpl.
  - split; [eauto | by intros (l' & -> & ?)].
  - rewrite lang_Chr_Cat. split.
    + intros (s' & -> & (l' & -> & ?)%IH). eauto.
    + intros (l' & -> & ?). exists (chars s ++ l'). split; [done|]. apply IH. eauto.
Qed.

Lemma lang_lit s l : lang (lit_then s Eps) l ↔ l = chars s.
Proof.
  rewrite lang_lit_then. split.
  - intros (l' & -> & ->%lang_Eps_iff). by rewrite app_nil_r.
  - intros ->. exists []. by rewrite app_nil_r, lang_Eps_iff.
Qed.

Lemma lang_vcs v l :
  lang (vcs v) l ↔
  ∃ mid t, Forall (λ t, t ≠ nl) mid ∧ t ≠ nl ∧
           l = chars "go/" ++ mid ++ chars "/" ++ t :: chars v.
Proof.
  unfold vcs. rewrite lang_lit_then. split.
  - intros (l1 & -> & (mid & l2 & -> & Hmid & Hl2)%lang_Cat_iff).
    apply lang_Star_Any in Hmid.
    apply lang_lit_then in Hl2 as (l3 & -> & (t & l4 & ? & -> & ->%lang_lit)%lang_Any_Cat).
    eauto.
  - intros (mid & t & ? & ? & ->). eexists; split; [done|].
    apply lang_Cat_iff. exists mid, (chars "/" ++ t :: chars v).
    split_and!; [done | by apply lang_Star_Any |].
    apply lang_lit_then. eexists; split; [done|].
    apply lang_Any_Cat. exists t, (chars v). by rewrite lang_lit.
Qed.

Lemma patternToExclude_lang l : lang patternToExclude l ↔ hit_chars l.
Proof.
  unfold patternToExclude, MustCompile. rewrite patternToExclude_eq.
  cbv [default from_option id].
  rewrite !lang_Alt_iff, !lang_Cat_Eps, !lang_vcs, !lang_lit, lang_Any_Cat.
  split.
  - intros [(t & l' & ? & -> & ->%lang_lit)|[H|[H|[H|[->| ->]]]]];
      [by constructor | | | | constructor | constructor];
      destruct H as (mid & t & ? & ? & ->); constructor; auto; set_solver.
  - destruct 1 as [t ?|mid t v ? ? Hv| |].
    + left. exists t, (chars "DS_Store"). by rewrite lang_lit.
    + apply list_elem_of_In in Hv. simpl in Hv.
      destruct Hv as [<-|[<-|[<-|[]]]]; eauto 10.
    + auto 10.
    + auto 10.
Qed.

(** From the characters of a path to its bytes. *)
Lemma hit_chars_hit path pre mid post :
  runes path = pre ++ mid ++ post → hit_chars mid → hit (join mid).
Proof.
  intros Hpath Hmid.
  assert (∀ t, t ∈ mid → t ∈ runes path) as Hin.
  { intros t Ht. rewrite Hpath, !elem_of_app. auto. }
  destruct Hmid as [t Ht|m t v Hm Ht Hv| |].
  - apply (hit_DS_Store t); [|done].
    apply (rune_is_rune path), Hin. by left.
  - rewrite !join_app. cbn [join foldr]. fold (join (chars v)).
    rewrite !join_chars. apply hit_vcs; [| |done..].
    + apply join_free, Forall_forall. intros t' Ht'.
      destruct (rune_ascii path t' newline) as [->|?]; [|done| |done].
      * apply Hin. rewrite !elem_of_app. auto.
      * by apply (proj1 (Forall_forall _ _) Hm) in Ht'.
    + apply (rune_is_rune path), Hin. rewrite !elem_of_app, elem_of_cons. auto.
  - rewrite join_chars. constructor.
  - rewrite join_chars. constructor.
Qed.

Lemma snoc_inv (s : string) : s ≠ "" → ∃ s' c, s = s' +:+ String c "".
Proof.
  induction s as [|c s IH]; [done|]. intros _. destruct s as [|d s].
  - by exists "", c.
  - destruct IH as (s' & c' & ->); [done|]. by exists (String c s'), c'.
Qed.

Lemma is_rune_free t : is_rune t → t ≠ nl → Str.free_of newline t = true.
Proof.
  intros Ht Hnl. destruct (rune_ascii t t newline) as [?|?]; [|done..].
  rewrite Ht. by left.
Qed.

(** From the bytes of a path to its characters. *)
Lemma hit_hit_chars pre mid post :
  hit mid → ∃ pre' mid' post',
    runes (pre +:+ mid +:+ post) = pre' ++ mid' ++ post' ∧ hit_chars mid'.
Proof.
  destruct 1 as [t Ht Hnl|m t v Hm Ht Hnl Hv| |].
  - pose proof (is_rune_free t Ht Hnl) as Hfree.
    destruct (snoc_inv t) as (t' & c & ->).
    { apply (rune_nonempty t). rewrite Ht. by left. }
    rewrite Str.free_of_app in Hfree. apply andb_true_iff in Hfree as [_ Hc].
    simpl in Hc. rewrite andb_true_r in Hc. apply negb_true_iff in Hc.
    replace (pre +:+ ((t' +:+ String c "") +:+ "DS_Store") +:+ post)
      with (((pre +:+ t') +:+ String c "") +:+ "DS_Store" +:+ post)
      by by rewrite !Str.app_assoc.
    rewrite (runes_app_ascii _ "DS_Store") by done.
    destruct (last_rune (pre +:+ t') c) as (l & t2 & ->).
    exists l, ((t2 +:+ String c "") :: chars "DS_Store"), (runes post).
    split; [by rewrite <- !(assoc_L (++))|]. constructor.
    intros Heq. destruct t2 as [|? [|? ?]]; [|done..].
    injection Heq as ->. by rewrite Ascii.eqb_refl in Hc.
  - exists (runes pre), (chars "go/" ++ runes m ++ chars "/" ++ t :: chars v), (runes post).
    split.
    + assert (all_ascii v = true ∧ v ≠ "") as [Hascii Hne].
      { apply list_elem_of_In in Hv. simpl in Hv.
        destruct Hv as [<-|[<-|[<-|[]]]]; done. }
      replace (pre +:+ ("go/" +:+ m +:+ "/" +:+ t +:+ v) +:+ post)
        with (pre +:+ "go/" +:+ (m +:+ "/" +:+ (t +:+ v +:+ post)))
        by by rewrite !Str.app_assoc.
      rewrite (runes_app_ascii pre "go/"), (runes_app_ascii m "/"),
        (runes_app_ascii t v) by done. rewrite Ht.
      by rewrite <- !(assoc_L (++)).
    + constructor; [|done..]. apply Forall_forall. intros t' Ht' ->.
      assert (Str.free_of newline (join (runes m)) = true) as Hfree
        by by rewrite join_runes.
      apply join_free in Hfree.
      by apply (proj1 (Forall_forall _ _) Hfree) in Ht'.
  - exists (runes pre), (chars "go/pkg"), (runes post).
    split; [by rewrite (runes_app_ascii pre "go/pkg") | constructor].
  - exists (runes pre), (chars "go/bin"), (runes post).
    split; [by rewrite (runes_app_ascii pre "go/bin") | constructor].
Qed.

(** A path is excluded exactly when one of its substrings is in the
    language of the pattern. *)
Lemma excluded_iff path :
  excluded path = true ↔ ∃ pre mid post, path = pre +:+ mid +:+ post ∧ hit mid.
Proof.
  unfold excluded. rewrite MatchString_spec.
  setoid_rewrite patternToExclude_lang. split.
  - intros (pre & mid & post & Hpath & Hmid).
    exists (join pre), (join mid), (join post). split.
    + by rewrite <- !join_app, <- Hpath, join_runes.
    + by eapply hit_chars_hit.
  - intros (pre & mid & post & -> & Hmid). by apply hit_hit_chars.
Qed.

Lemma excluded_DS_Store path : Str.contains ".DS_Store" path → excluded path = true.
Proof.
  intros (pre & post & ->). apply excluded_iff.
  exists pre, ".DS_Store", post. split; [done|]. by apply (hit_DS_Store ".").
Qed.

Lemma excluded_go_pkg path : Str.contains "go/pkg" path → excluded path = true.
Proof.
  intros (pre & post & ->). apply excluded_iff.
  exists pre, "go/pkg", post. split; [done | constructor].
Qed.

Lemma excluded_go_bin path : Str.contains "go/bin" path → excluded path = true.
Proof.
  intros (pre & post & ->). apply excluded_iff.
  exists pre, "go/bin", post. split; [done | constructor].
Qed.

Lemma excluded_go_vcs pre mid v post :
  Str.free_of newline mid = true → v ∈ ["git"; "bzr"; "hg"] →
  excluded (pre +:+ "go/" +:+ mid +:+ "/." +:+ v +:+ post) = true.
Proof.
  intros Hmid Hv. apply excluded_iff.
  exists pre, ("go/" +:+ mid +:+ "/" +:+ "." +:+ v), post. split.
  - by rewrite !Str.app_assoc.
  - by apply (hit_vcs mid ".").
Qed.

(** *** The file system

    The tree below the path handed to [createAppArchive], as [os.Lstat],
    [os.Open] and [File.Stat] show it.  A node carries the I/O errors
    that the calls on it return.  [os.Lstat], which the traversal calls,
    sees a symbolic link as such; [os.Open], which the callback calls,
    follows it, and [File.Stat] on the open file reports what the link
    resolves to.  The archive file itself lies outside the tree. *)

Definition bytes := list Byte.byte.

Inductive error :=
| ErrLstat (path : string)
| ErrReadDir (path : string)
| ErrOpen (path : string)
| ErrInvalid                      (* [os.ErrInvalid]: a method called on a nil [*os.File] *)
| ErrStat (path : string)
| ErrZipCreate (path : string)
| ErrCopy (path : string)
| ErrZipClose.

Record faults := Faults {
  lstat_err : bool;               (* [os.Lstat] fails *)
  readdir_err : bool;             (* reading the names of a directory fails *)
  open_err : bool;                (* [os.Open] fails *)
  stat_err : bool;                (* [File.Stat] fails *)
  copy_err : option nat           (* [io.Copy] fails after that many bytes *)
}.

Definition no_faults : faults := Faults false false false false None.

#[local] Unset Elimination Schemes.
Inductive node :=
| Regular (io : faults) (data : bytes)
| Directory (io : faults) (dir : list (string * node))
| Irregular (io : faults)         (* a device, a named pipe that has a writer, a socket
                                     (which [os.Open] refuses: [open_err]) *)
| Fifo (io : faults)              (* a named pipe that no process holds open for writing *)
| Symlink (io : faults) (target : node).  (* a symbolic link and what it resolves to;
                                     [open_err]: it dangles or cannot be followed *)
#[local] Set Elimination Schemes.

Lemma node_ind (P : node → Prop) :
  (∀ io data, P (Regular io data)) →
  (∀ io dir, Forall (λ e, P e.2) dir → P (Directory io dir)) →
  (∀ io, P (Irregular io)) →
  (∀ io, P (Fifo io)) →
  (∀ io target, P target → P (Symlink io target)) →
  ∀ n, P n.
Proof.
  intros HR HD HI HF HS. fix IH 1.
  intros [io data|io dir|io|io|io target];
    [apply HR | apply HD | apply HI | apply HF | apply HS, IH].
  induction dir as [|[name c] dir IHdir]; constructor; [apply IH | apply IHdir].
Qed.

Definition node_io (n : node) : faults :=
  match n with
  | Regular io _ | Directory io _ | Irregular io | Fifo io | Symlink io _ => io
  end.

Inductive FileMode := ModeRegular | ModeDir | ModeIrregular | ModeNamedPipe | ModeSymlink.

Definition IsRegular (m : FileMode) : bool :=
  match m with ModeRegular => true | _ => false end.
Definition IsDir (m : FileMode) : bool :=
  match m with ModeDir => true | _ => false end.

Definition node_mode (n : node) : FileMode :=
  match n with
  | Regular _ _ => ModeRegular
  | Directory _ _ => ModeDir
  | Irregular _ => ModeIrregular
  | Fifo _ => ModeNamedPipe
  | Symlink _ _ => ModeSymlink
  end.

Definition node_data (n : node) : bytes :=
  match n with Regular _ data => data | _ => [] end.

(** The file that a path leads to once the symbolic links are followed. *)
Fixpoint follow (n : node) : node :=
  match n with
  | Symlink _ target => follow target
  | _ => n
  end.

(** [os.Open]: a nil file and an error, or the open file.  The call follows
    symbolic links.  On a named pipe it waits for a process to open the pipe
    for writing: [None] stands for the call that does not return. *)
Fixpoint os_Open (path : string) (n : node) : option (option node * option error) :=
  if open_err (node_io n) then Some (None, Some (ErrOpen path))
  else match n with
       | Symlink _ target => os_Open path target
       | Fifo _ => None
       | _ => Some (Some n, None)
       end.

(** [File.Stat]: on a nil file it returns [os.ErrInvalid]. *)
Definition File_Stat (path : string) (fi : option node)
    : option FileMode * option error :=
  match fi with
  | None => (None, Some ErrInvalid)
  | Some n =>
      if stat_err (node_io n) then (None, Some (ErrStat path))
      else (Some (node_mode n), None)
  end.

(** *** The archive being written *)

(** What the writes of the archive may answer: [os.Create] of the archive
    file, [w.Create] of an entry, [w.Close].  The writer buffers what it is
    given: a failure of the output file shows in [w.Close], or in the
    [w.Create] at which the buffer is first flushed, which [create_fails]
    stands for as well. *)
Record sink := Sink {
  output_fails : bool;
  create_fails : string → bool;
  close_fails : bool
}.

Definition sound_sink : sink := Sink false (λ _, false) false.

(** The entries written so far, in the order of their creation (the last
    one is the one being written), and the lines printed by [fmt.Println]. *)
Record state := State {
  entries : list (string * bytes);
  printed : list error
}.

Definition Println (e : error) (s : state) : state :=
  State (entries s) (printed s ++ [e]).

(** [w.Create(path)]. *)
Definition zip_Create (k : sink) (path : string) (s : state)
    : state * option error :=
  if create_fails k path then (s, Some (ErrZipCreate path))
  else (State (entries s ++ [(path, [])]) (printed s), None).

Definition write_last (data : bytes) (w : list (string * bytes))
    : list (string * bytes) :=
  match reverse w with
  | (name, content) :: w' => reverse ((name, content ++ data) :: w')
  | [] => []
  end.

(** [io.Copy(fo, fi)]: the bytes of the file go to the entry being written,
    up to the point where the copy fails. *)
Definition io_Copy (path : string) (fi : node) (s : state) : state * option error :=
  match copy_err (node_io fi) with
  | None => (State (write_last (node_data fi) (entries s)) (printed s), None)
  | Some n =>
      (State (write_last (take n (node_data fi)) (entries s)) (printed s),
       Some (ErrCopy path))
  end.

(** [w.Close()]: it writes the directory of the archive and flushes.  When
    [os.Create] has failed the writer sits on a nil [*os.File], whose
    [Write] returns [os.ErrInvalid]: the flush of [Close] fails with it. *)
Definition zip_Close (k : sink) (zipFileName : string) : option error :=
  if output_fails k then Some ErrInvalid
  else if close_fails k then Some ErrZipClose
  else None.

(** *** The traversal callback *)

(** What a call returns to the traversal: nil, an error, or nothing at all,
    because [log.Fatal] has ended the process or because a call inside it
    does not return. *)
Inductive result :=
| Nil
| Err (e : error)
| Fatal (e : error)
| Blocked.

Definition of_error (err : option error) : result :=
  match err with None => Nil | Some e => Err e end.

(** The function literal handed to [filepath.Walk].  It has three
    variables named [err]: its parameter, the one of the else block
    ([err_1], set by [os.Open] and then by [fi.Stat]) and the one of the
    first case clause ([err_2], set by [w.Create] and then by [io.Copy]).
    The test after the switch reads [err_1].  The callback never looks at
    [info]: what it does depends on what [os.Open] finds at [path]. *)
Definition walkFn (k : sink) (path : string) (info : node) (err : option error)
    (s : state) : state * result :=
  if excluded path then (s, of_error err)
  else
    match os_Open path info with
    | None => (s, Blocked)
    | Some (fi, _) =>
        let '(fi_stat, err_1) := File_Stat path fi in
        match err_1, fi, fi_stat with
        | None, Some fi, Some fi_stat =>
            let after_switch (s : state) : state * result :=
              match err_1 with
              | Some e => (s, Fatal e)
              | None => (s, of_error err)
              end in
            if IsRegular fi_stat then
              match zip_Create k path s with
              | (s, Some e) => (s, Fatal e)
              | (s, None) =>
                  let '(s, err_2) := io_Copy path fi s in
                  after_switch s
              end
            else if IsDir fi_stat then after_switch s
            else after_switch s
        | Some e, _, _ => (Println e s, Err e)
        | None, _, _ => (s, of_error err)
        end
    end.

(** *** [filepath.Walk]

    As the standard library has it: the names of a directory are read and
    sorted before the callback is called on the directory (an older
    [filepath] calls the callback first; the two differ only when reading a
    directory fails).  The callback of this program never returns
    [SkipDir]: the only errors it returns are the one it was given and the
    one of [fi.Stat], so the tests for [SkipDir] are left out. *)

Definition by_name {A} (x y : string * A) : Prop := String.le x.1 y.1.

Definition walker : Type := string → state → state * result.

(** The loop of [walk] over the sorted names of a directory; each name
    comes with the node that [lstat] finds there and with the walk below
    it. *)
Fixpoint walk_names (k : sink) (path : string)
    (names : list (string * (node * walker))) (s : state) : state * result :=
  match names with
  | [] => (s, Nil)
  | (name, (fileInfo, walk_file)) :: names' =>
      let filename := Join path name in
      let '(s, err) :=
        if lstat_err (node_io fileInfo)
        then walkFn k filename fileInfo (Some (ErrLstat filename)) s
        else walk_file filename s in
      match err with
      | Nil => walk_names k path names' s
      | _ => (s, err)
      end
  end.

Fixpoint walk (k : sink) (info : node) : walker :=
  λ path s,
  match info with
  | Directory io dir =>
      let err := if readdir_err io then Some (ErrReadDir path) else None in
      let '(s, err1) := walkFn k path info err s in
      match err, err1 with
      | None, Nil =>
          walk_names k path
            (merge_sort by_name ((λ e, (e.1, (e.2, walk k e.2))) <$> dir)) s
      | _, _ => (s, err1)
      end
  | _ => walkFn k path info None s
  end.

Definition Walk (k : sink) (root : string) (info : node) (s : state)
    : state * result :=
  if lstat_err (node_io info) then walkFn k root info (Some (ErrLstat root)) s
  else walk k info root s.

(** *** [createAppArchive] *)

Inductive outcome :=
| Returned (err : option error) (s : state)
| Exited (e : error) (s : state)        (* [log.Fatal]: exit status 1 *)
| Hangs (s : state).                    (* a call that does not return *)

(** [fs] is the file at [appName].  The result of [filepath.Walk] is
    dropped unless the callback has ended the process. *)
Definition createAppArchive (k : sink) (fs : node)
    (appName zipFileName : string) : outcome :=
  let w := State [] [] in
  let '(w, walked) := Walk k appName fs w in
  match walked with
  | Fatal e => Exited e w
  | Blocked => Hangs w
  | _ =>
      let err := zip_Close k zipFileName in
      match err with
      | Some e => Exited e w
      | None => Returned err w
      end
  end.

(** *** Trees and what a traversal sees of them *)

Definition sound (io : faults) : bool :=
  negb (lstat_err io) && negb (readdir_err io) && negb (open_err io) &&
  negb (stat_err io) && bool_decide (copy_err io = None).

(** Every call on the file returns, and without error: on a symbolic link,
    the calls on what it resolves to as well. *)
Fixpoint opens_well (n : node) : bool :=
  match n with
  | Fifo _ => false
  | Symlink io target => sound io && opens_well target
  | _ => sound (node_io n)
  end.

(** No call on the tree fails or waits for ever. *)
Fixpoint healthy (n : node) : bool :=
  match n with
  | Directory io dir => sound io && forallb (λ e, healthy e.2) dir
  | _ => opens_well n
  end.

(** The names of a directory are names, and no two of them are the same. *)
Fixpoint well_formed (n : node) : bool :=
  match n with
  | Regular _ _ | Irregular _ | Fifo _ | Symlink _ _ => true
  | Directory _ dir =>
      forallb valid_name dir.*1 && bool_decide (NoDup dir.*1) &&
      forallb (λ e, well_formed e.2) dir
  end.

(** The files of the tree with the path under which the traversal reaches
    them: the root under the path given, a directory entry under
    [Join path name]. *)
Fixpoint listing (n : node) (path : string) : list (string * node) :=
  (path, n) ::
  match n with
  | Directory _ dir => dir ≫= λ e, listing e.2 (Join path e.1)
  | _ => []
  end.

(** The traversal does not follow a symbolic link: the files below a link to
    a directory are not listed.

    The same files in the order in which [filepath.Walk] visits them. *)
Fixpoint visits (n : node) (path : string) : list (string * node) :=
  (path, n) ::
  match n with
  | Directory _ dir =>
      merge_sort by_name ((λ e, (e.1, visits e.2)) <$> dir)
        ≫= λ e, e.2 (Join path e.1)
  | _ => []
  end.

(** The archive entry that a visited file gives rise to: the callback
    archives what [os.Open] finds to be a regular file. *)
Definition archived (v : string * node) : option (string * bytes) :=
  if excluded v.1 then None
  else match follow v.2 with
       | Regular _ data => Some (v.1, data)
       | _ => None
       end.

(** The entries written when the run ends, however it ends. *)
Definition archive_of (o : outcome) : list (string * bytes) :=
  match o with Returned _ s | Exited _ s | Hangs s => entries s end.

(** *** A traversal on which no call fails *)

Definition add_entries (l : list (string * bytes)) (s : state) : state :=
  State (entries s ++ l) (printed s).

Lemma add_entries_nil s : add_entries [] s = s.
Proof. destruct s. unfold add_entries. simpl. by rewrite app_nil_r. Qed.

Lemma add_entries_app l1 l2 s :
  add_entries l2 (add_entries l1 s) = add_entries (l1 ++ l2) s.
Proof. unfold add_entries. simpl. by rewrite (assoc_L (++)). Qed.

Lemma omap_cons {A B} (f : A → option B) x l :
  omap f (x :: l) = option_list (f x) ++ omap f l.
Proof. simpl. by destruct (f x). Qed.

Lemma omap_singleton {A B} (f : A → option B) x : omap f [x] = option_list (f x).
Proof. simpl. by destruct (f x). Qed.

Lemma write_last_snoc data w name content :
  write_last data (w ++ [(name, content)]) = w ++ [(name, content ++ data)].
Proof. unfold write_last. by rewrite reverse_snoc, reverse_cons, reverse_involutive. Qed.

Lemma sound_inv io :
  sound io = true →
  lstat_err io = false ∧ readdir_err io = false ∧ open_err io = false ∧
  stat_err io = false ∧ copy_err io = None.
Proof.
  unfold sound. rewrite !andb_true_iff, !negb_true_iff, bool_decide_eq_true. tauto.
Qed.

(** The callback does on a symbolic link what it does on the file that the
    link resolves to. *)
Lemma walkFn_Symlink k path io target err s :
  open_err io = false →
  walkFn k path (Symlink io target) err s = walkFn k path target err s.
Proof. intros Ho. unfold walkFn. cbn [os_Open node_io]. by rewrite Ho. Qed.

Lemma healthy_sound n : healthy n = true → sound (node_io n) = true.
Proof. destruct n; simpl; try done; by intros [? _]%andb_true_iff. Qed.

Section healthy.
Context (k : sink) (Hk : ∀ path, create_fails k path = false).

Lemma walkFn_healthy path n s :
  opens_well n = true →
  walkFn k path n None s = (add_entries (option_list (archived (path, n))) s, Nil).
Proof using Hk.
  induction n as [io data|io dir _|io|io|io target IH] using node_ind;
    cbn [opens_well node_io]; [| | |done|].
  1-3: intros (_ & _ & Ho & Hs & Hc)%sound_inv;
    unfold walkFn, archived, File_Stat; cbn [os_Open node_io follow fst snd];
    (destruct (excluded path); [by rewrite add_entries_nil|]);
    rewrite Ho; cbn [node_io]; rewrite Hs; simpl.
  - unfold zip_Create. rewrite Hk. unfold io_Copy. simpl in *. rewrite Hc. simpl.
    by rewrite write_last_snoc.
  - by rewrite add_entries_nil.
  - by rewrite add_entries_nil.
  - intros [(_ & _ & Ho & _)%sound_inv Ht]%andb_true_iff.
    rewrite walkFn_Symlink by done. by rewrite IH.
Qed.

Definition walks_well (n : node) : Prop :=
  ∀ path s, walk k n path s = (add_entries (omap archived (visits n path)) s, Nil).

Lemma walk_names_healthy path (dir : list (string * node)) s :
  Forall (λ e, healthy e.2 = true ∧ walks_well e.2) dir →
  walk_names k path ((λ e, (e.1, (e.2, walk k e.2))) <$> dir) s
  = (add_entries
       (omap archived (((λ e, (e.1, visits e.2)) <$> dir) ≫= λ e, e.2 (Join path e.1))) s,
     Nil).
Proof using Hk.
  intros Hdir. revert s. induction Hdir as [|[name c] dir [Hc Hw] _ IH]; intros s.
  - by rewrite add_entries_nil.
  - rewrite !fmap_cons, bind_cons, omap_app. cbn [walk_names fst snd].
    assert (lstat_err (node_io c) = false) as ->
      by by apply healthy_sound, sound_inv in Hc as (? & _).
    rewrite Hw, IH. by rewrite add_entries_app.
Qed.

Lemma walk_healthy n : healthy n = true → walks_well n.
Proof using Hk.
  induction n as [io data|io dir IH|io|io|io target _] using node_ind; intros Hn path s.
  1, 3, 4, 5: cbn [walk visits]; by rewrite walkFn_healthy, omap_singleton.
  - pose proof (healthy_sound _ Hn) as Hio.
    pose proof (sound_inv _ Hio) as (_ & Hrd & _). simpl in Hrd.
    cbn [walk visits]. rewrite Hrd. cbv zeta. rewrite walkFn_healthy by done.
    rewrite (merge_sort_fmap by_name by_name (λ e, (e.1, (e.2, walk k e.2)))) by done.
    rewrite (merge_sort_fmap by_name by_name (λ e, (e.1, visits e.2))) by done.
    rewrite walk_names_healthy.
    + rewrite add_entries_app. by rewrite omap_cons.
    + simpl in Hn. apply andb_true_iff in Hn as [_ Hdir].
      apply Is_true_true, forallb_True in Hdir.
      rewrite merge_sort_Permutation.
      eapply Forall_impl; [apply Forall_and; split; [exact Hdir | exact IH]|].
      intros e [He IHe]. apply Is_true_true in He. auto.
Qed.

(** On a tree on which no call fails, and with a sound archive file,
    the builder returns nil and the archive holds the entries of the
    files visited, in the order of the visits. *)
Lemma createAppArchive_healthy fs appName zipFileName :
  healthy fs = true → output_fails k = false → close_fails k = false →
  createAppArchive k fs appName zipFileName
  = Returned None (State (omap archived (visits fs appName)) []).
Proof using Hk.
  intros Hfs Ho Hc. unfold createAppArchive, Walk, zip_Close.
  pose proof (healthy_sound _ Hfs) as (-> & _)%sound_inv.
  rewrite walk_healthy by done. by rewrite Ho, Hc.
Qed.
End healthy.

(** *** No two files of a tree are visited under the same path *)

Lemma fmap_bind_list {A B C} (g : B → C) (f : A → list B) (l : list A) :
  g <$> (l ≫= f) = l ≫= λ x, g <$> f x.
Proof.
  induction l as [|x l IH]; [done|]. by rewrite !bind_cons, fmap_app, IH.
Qed.

Lemma NoDup_fst_eq {A B} (l : list (A * B)) x y1 y2 :
  NoDup l.*1 → (x, y1) ∈ l → (x, y2) ∈ l → y1 = y2.
Proof.
  induction l as [|[x' y'] l IH]; simpl; [by intros _ ?%elem_of_nil|].
  intros [Hx Hl]%NoDup_cons [H1|H1]%elem_of_cons [H2|H2]%elem_of_cons.
  - congruence.
  - injection H1 as -> ->. destruct Hx. apply list_elem_of_fmap. by exists (x', y2).
  - injection H2 as -> ->. destruct Hx. apply list_elem_of_fmap. by exists (x', y1).
  - by apply IH.
Qed.

Lemma forallb_valid_name (dir : list (string * node)) e :
  forallb valid_name dir.*1 = true → e ∈ dir → valid_name e.1 = true.
Proof.
  intros H He. apply (proj1 (forallb_forall _ _) H).
  apply list_elem_of_In, list_elem_of_fmap. eauto.
Qed.

(** Below a settled path [q], the path of a file is [q] followed by
    nothing or by a separator and more. *)
Definition below (q p : string) : Prop :=
  ∃ t, p = q +:+ t ∧ (t = "" ∨ ∃ t', t = String "/" t').

Definition apart (n : node) : Prop :=
  ∀ q, settled q →
       NoDup (listing n q).*1 ∧
       ∀ p, p ∈ (listing n q).*1 → settled p ∧ below q p.

Lemma below_refl q : below q q.
Proof. exists "". by rewrite Str.app_nil_r; auto. Qed.

Lemma below_trans_name q name p :
  below (q +:+ "/" +:+ name) p → ∃ t', p = q +:+ String "/" t'.
Proof.
  intros (t & -> & _). exists (name +:+ t). by rewrite !Str.app_assoc.
Qed.

(** The files below the entries of a directory at [path]. *)
Lemma entries_apart path (dir : list (string * node)) :
  forallb valid_name dir.*1 = true → NoDup dir.*1 →
  Forall (λ e, apart e.2) dir →
  let below_dir := (dir ≫= λ e, listing e.2 (Join path e.1)).*1 in
  NoDup below_dir ∧
  ∀ p, p ∈ below_dir → settled p ∧ ∃ e, e ∈ dir ∧ below (Join path e.1) p.
Proof.
  intros Hvalid Hnodup Hdir below_dir. subst below_dir.
  rewrite fmap_bind_list.
  assert (∀ e, e ∈ dir →
            settled (Join path e.1) ∧ NoDup (listing e.2 (Join path e.1)).*1 ∧
            ∀ p, p ∈ (listing e.2 (Join path e.1)).*1 →
                 settled p ∧ below (Join path e.1) p) as Hsub.
  { intros e He.
    assert (valid_name e.1 = true) as Hname by by eapply forallb_valid_name.
    pose proof (Join_settled path e.1 Hname) as Hq.
    destruct (proj1 (Forall_forall _ _) Hdir e He _ Hq) as [? ?]. done. }
  assert (∀ e1 e2 p, e1 ∈ dir → e2 ∈ dir →
            below (Join path e1.1) p → below (Join path e2.1) p → e1 = e2) as Hinj.
  { intros [n1 c1] [n2 c2] p He1 He2 (t1 & -> & Ht1) (t2 & Heq & Ht2). simpl in *.
    assert (valid_name n1 = true ∧ valid_name n2 = true) as [Hn1 Hn2].
    { split; [by apply (forallb_valid_name dir (n1, c1))
             |by apply (forallb_valid_name dir (n2, c2))]. }
    rewrite !Join_base, !Str.app_assoc in Heq by done.
    apply (inj (String.app _)) in Heq.
    apply valid_name_inv in Hn1 as (_ & _ & _ & ?).
    apply valid_name_inv in Hn2 as (_ & _ & _ & ?).
    apply (Str.app_sep_inj "/") in Heq as [-> _]; [|done..].
    f_equal. by eapply NoDup_fst_eq. }
  split.
  - apply NoDup_bind.
    + intros e1 e2 p He1 He2 Hp1 Hp2.
      apply (Hinj e1 e2 p); [done..| |];
        [by apply (Hsub e1 He1) | by apply (Hsub e2 He2)].
    + intros e He. by apply (Hsub e He).
    + by eapply NoDup_fmap_1.
  - intros p (e & Hp & He)%list_elem_of_bind.
    destruct (Hsub e He) as (_ & _ & Hb). destruct (Hb p Hp). eauto.
Qed.

Lemma well_formed_apart n : well_formed n = true → apart n.
Proof.
  induction n as [io data|io dir IH|io|io|io target _] using node_ind; intros Hwf q Hq.
  1, 3, 4, 5: simpl; (split; [apply NoDup_singleton|]);
    intros p ->%list_elem_of_singleton; (split; [done | apply below_refl]).
  - simpl in Hwf. apply andb_true_iff in Hwf as [[Hvalid Hnodup]%andb_true_iff Hsub].
    apply bool_decide_eq_true in Hnodup.
    apply Is_true_true, forallb_True in Hsub.
    assert (Forall (λ e, apart e.2) dir) as Hdir.
    { eapply Forall_impl; [apply Forall_and; split; [exact Hsub | exact IH]|].
      intros e [He IHe]. apply IHe. by apply Is_true_true. }
    destruct (entries_apart q dir Hvalid Hnodup Hdir) as [Hnd Hbelow].
    cbn [listing]. rewrite fmap_cons. cbn [fst].
    assert (∀ p, p ∈ (dir ≫= λ e, listing e.2 (Join q e.1)).*1 →
                 settled p ∧ ∃ t', p = q +:+ String "/" t') as Hbelow'.
    { intros p Hp. destruct (Hbelow p Hp) as (? & e & He & Hpe). split; [done|].
      assert (valid_name e.1 = true) as Hname by by eapply forallb_valid_name.
      destruct (Join_on_settled q e.1 Hq Hname) as [Heq _]. rewrite Heq in Hpe.
      by eapply below_trans_name. }
    split.
    + apply NoDup_cons. split; [|done].
      intros Hin. destruct (Hbelow' q Hin) as (_ & t' & Ht').
      by apply Str.app_cons_ne in Ht'.
    + intros p [->|Hp]%elem_of_cons; [split; [done | apply below_refl]|].
      destruct (Hbelow' p Hp) as (? & t' & ->). split; [done|]. exists (String "/" t'). eauto.
Qed.

(** Whatever the path given to the traversal. *)
Lemma listing_NoDup n path : well_formed n = true → NoDup (listing n path).*1.
Proof.
  intros Hwf. destruct n as [io data|io dir|io|io|io target];
    [apply NoDup_singleton| |apply NoDup_singleton..].
  cbn [listing]. rewrite fmap_cons. cbn [fst].
  pose proof Hwf as Hwf'.
  simpl in Hwf. apply andb_true_iff in Hwf as [[Hvalid Hnodup]%andb_true_iff Hsub].
  apply bool_decide_eq_true in Hnodup.
  apply Is_true_true, forallb_True in Hsub.
  assert (Forall (λ e, apart e.2) dir) as Hdir.
  { eapply Forall_impl; [exact Hsub|].
    intros e He. apply well_formed_apart. by apply Is_true_true. }
  destruct (entries_apart path dir Hvalid Hnodup Hdir) as [Hnd Hbelow].
  apply NoDup_cons. split; [|done].
  intros Hin. destruct (Hbelow path Hin) as [Hsettled _].
  destruct (well_formed_apart _ Hwf' path Hsettled) as [Hnd' _].
  cbn [listing] in Hnd'. rewrite fmap_cons in Hnd'. cbn [fst] in Hnd'.
  by apply NoDup_cons in Hnd' as [? _].
Qed.

Lemma visits_listing n path : visits n path ≡ₚ listing n path.
Proof.
  revert path. induction n as [io data|io dir IH|io|io|io target _] using node_ind;
    intros path; [done| |done..].
  cbn [visits listing]. constructor.
  rewrite (merge_sort_fmap by_name by_name (λ e, (e.1, visits e.2))) by done.
  rewrite merge_sort_Permutation, list_fmap_bind.
  induction IH as [|e dir He _ IHdir]; [done|].
  rewrite !bind_cons. by rewrite IHdir, <- (He (Join path e.1)).
Qed.

Lemma archived_fst v e : archived v = Some e → e.1 = v.1.
Proof.
  unfold archived. destruct (excluded v.1); [done|].
  destruct (follow v.2); [|done..]. by intros [= <-].
Qed.

Lemma omap_archived_NoDup (l : list (string * node)) :
  NoDup l.*1 → NoDup (omap archived l).*1.
Proof.
  induction l as [|v l IH]; [done|].
  rewrite fmap_cons, omap_cons, fmap_app.
  intros [Hv Hl]%NoDup_cons. specialize (IH Hl).
  destruct (archived v) as [e|] eqn:He; simpl; [|done].
  apply NoDup_cons. split; [|done].
  intros (e' & Heq & (v' & Hv' & He')%list_elem_of_omap)%list_elem_of_fmap.
  apply archived_fst in He, He'. destruct Hv.
  apply list_elem_of_fmap. exists v'. split; [congruence | done].
Qed.

Lemma elem_of_archived (l : list (string * node)) path data :
  (path, data) ∈ omap archived l ↔
  excluded path = false ∧ ∃ n io, (path, n) ∈ l ∧ follow n = Regular io data.
Proof.
  rewrite list_elem_of_omap. split.
  - intros ([p n] & Hin & Ha). unfold archived in Ha. cbn [fst snd] in Ha.
    destruct (excluded p) eqn:Hex; [done|].
    destruct (follow n) as [io d| | | |] eqn:Hn; [|done..].
    injection Ha as -> ->. eauto.
  - intros (Hex & n & io & Hin & Hn). exists (path, n). split; [done|].
    unfold archived. cbn [fst snd]. by rewrite Hex, Hn.
Qed.

(** *** Every entry of the archive has passed the exclusion test *)

Definition kept_only (s : state) : Prop :=
  Forall (λ path, excluded path = false) (entries s).*1.

Lemma write_last_fst data w : (write_last data w).*1 = w.*1.
Proof.
  destruct w as [|[name content] w _] using rev_ind; [done|].
  by rewrite write_last_snoc, !fmap_app.
Qed.

Lemma walkFn_kept k path n err s : kept_only s → kept_only (walkFn k path n err s).1.
Proof.
  unfold kept_only, walkFn, File_Stat, zip_Create, io_Copy. intros Hs.
  destruct (excluded path) eqn:Hex; [done|].
  repeat (case_match; simplify_eq; simpl; try done);
    rewrite write_last_fst, fmap_app; apply Forall_app; by repeat constructor.
Qed.

Definition keeps (w : walker) : Prop :=
  ∀ path s, kept_only s → kept_only (w path s).1.

Lemma walk_names_kept k path names s :
  Forall (λ e, keeps e.2.2) names → kept_only s →
  kept_only (walk_names k path names s).1.
Proof.
  intros Hnames. revert s.
  induction Hnames as [|[name [fileInfo walk_file]] names Hw _ IH]; intros s Hs; [done|].
  cbn [walk_names]. simpl in Hw.
  destruct (lstat_err (node_io fileInfo)).
  - pose proof (walkFn_kept k (Join path name) fileInfo
                  (Some (ErrLstat (Join path name))) s Hs) as Hs'.
    destruct (walkFn k _ fileInfo _ s) as [s' []]; auto.
  - pose proof (Hw (Join path name) s Hs) as Hs'.
    destruct (walk_file _ s) as [s' []]; auto.
Qed.

Lemma walk_kept k n : keeps (walk k n).
Proof.
  induction n as [io data|io dir IH|io|io|io target _] using node_ind; intros path s Hs;
    [by apply walkFn_kept| |by apply walkFn_kept..].
  cbn [walk].
  pose proof (walkFn_kept k path (Directory io dir)
                (if readdir_err io then Some (ErrReadDir path) else None) s Hs) as Hs'.
  destruct (walkFn k path (Directory io dir) _ s) as [s' err1].
  destruct (readdir_err io), err1; try done.
  apply walk_names_kept; [|done].
  rewrite merge_sort_Permutation. apply Forall_fmap.
  eapply Forall_impl; [exact IH|]. done.
Qed.

Lemma createAppArchive_kept k fs appName zipFileName path data :
  (path, data) ∈ archive_of (createAppArchive k fs appName zipFileName) →
  excluded path = false.
Proof.
  assert (kept_only (State [] [])) as Hs by constructor.
  assert (kept_only (Walk k appName fs (State [] [])).1) as Hw.
  { unfold Walk. destruct (lstat_err _); [by apply walkFn_kept | by apply walk_kept]. }
  unfold createAppArchive. destruct (Walk k appName fs _) as [w walked].
  intros Hin.
  assert ((path, data) ∈ entries w) as Hin'.
  { destruct walked; [| |done..]; by destruct (zip_Close k zipFileName). }
  apply (proj1 (Forall_forall _ _) Hw).
  apply list_elem_of_fmap. by exists (path, data).
Qed.

(** *** The same tree, its directories read in another order *)

(** [os.File.Readdirnames] returns the names of a directory in no fixed
    order.  Two trees are the same when each directory has the same names,
    in whatever order, and the same files under them. *)
Inductive same_tree : node → node → Prop :=
| same_Regular io data : same_tree (Regular io data) (Regular io data)
| same_Irregular io : same_tree (Irregular io) (Irregular io)
| same_Fifo io : same_tree (Fifo io) (Fifo io)
| same_Symlink io target : same_tree (Symlink io target) (Symlink io target)
| same_Directory io dir1 dir2 :
    dir1.*1 ≡ₚ dir2.*1 →
    (∀ name n1 n2, (name, n1) ∈ dir1 → (name, n2) ∈ dir2 → same_tree n1 n2) →
    same_tree (Directory io dir1) (Directory io dir2).

Lemma same_tree_refl n : well_formed n = true → same_tree n n.
Proof.
  induction n as [io data|io dir IH|io|io|io target _] using node_ind; intros Hwf;
    [constructor| |constructor..].
  simpl in Hwf. apply andb_true_iff in Hwf as [[_ Hnodup]%andb_true_iff Hsub].
  apply bool_decide_eq_true in Hnodup. apply Is_true_true, forallb_True in Hsub.
  constructor; [done|]. intros name n1 n2 H1 H2.
  rewrite (NoDup_fst_eq dir name n1 n2 Hnodup H1 H2).
  apply (proj1 (Forall_forall _ _) IH (name, n2) H2).
  apply Is_true_true. by apply (proj1 (Forall_forall _ _) Hsub (name, n2)).
Qed.

Lemma same_tree_Permutation io dir1 dir2 :
  well_formed (Directory io dir1) = true → dir1 ≡ₚ dir2 →
  same_tree (Directory io dir1) (Directory io dir2).
Proof.
  intros Hwf Hperm. pose proof (same_tree_refl _ Hwf) as Hrefl.
  inversion Hrefl as [| | | |? ? ? _ Hsame]; subst.
  constructor; [by rewrite Hperm|].
  intros name n1 n2 H1 H2. apply (Hsame name); [done | by rewrite Hperm].
Qed.

Lemma walkFn_same k path n1 n2 err s :
  same_tree n1 n2 → walkFn k path n1 err s = walkFn k path n2 err s.
Proof.
  intros [io data|io|io|io target|io dir1 dir2 _ _]; [done..|].
  unfold walkFn, File_Stat. simpl.
  destruct (excluded path), (open_err io), (stat_err io); done.
Qed.

Lemma merge_sort_names (dir : list (string * node)) :
  (merge_sort by_name dir).*1 = merge_sort String.le dir.*1.
Proof. symmetry. by apply (merge_sort_fmap by_name String.le fst). Qed.

Lemma merge_sort_same_names (dir1 dir2 : list (string * node)) :
  dir1.*1 ≡ₚ dir2.*1 → (merge_sort by_name dir1).*1 = (merge_sort by_name dir2).*1.
Proof.
  intros Hperm. rewrite !merge_sort_names.
  apply (Sorted_unique String.le).
  - apply Sorted_merge_sort, _.
  - apply Sorted_merge_sort, _.
  - by rewrite !merge_sort_Permutation.
Qed.

Lemma walk_names_same k path (dir1 dir2 : list (string * node)) s :
  dir1.*1 = dir2.*1 →
  (∀ name n1 n2, (name, n1) ∈ dir1 → (name, n2) ∈ dir2 →
     same_tree n1 n2 ∧ ∀ path s, walk k n1 path s = walk k n2 path s) →
  walk_names k path ((λ e, (e.1, (e.2, walk k e.2))) <$> dir1) s
  = walk_names k path ((λ e, (e.1, (e.2, walk k e.2))) <$> dir2) s.
Proof.
  revert dir2 s. induction dir1 as [|[name n1] dir1 IH]; intros [|[name' n2] dir2] s Hnames Hsame;
    try done.
  simpl in Hnames. injection Hnames as <- Hnames.
  destruct (Hsame name n1 n2) as [Hn Hwalk]; [by left..|].
  rewrite !fmap_cons. cbn [walk_names fst snd].
  assert (node_io n1 = node_io n2) as -> by by destruct Hn.
  rewrite (walkFn_same k _ n1 n2) by done. rewrite Hwalk.
  destruct (if lstat_err (node_io n2) then _ else _) as [s' []]; [|done..].
  apply IH; [done|]. intros name' n1' n2' H1 H2. apply (Hsame name'); by right.
Qed.

Lemma walk_same k n1 n2 :
  same_tree n1 n2 → ∀ path s, walk k n1 path s = walk k n2 path s.
Proof.
  induction 1 as [io data|io|io|io target|io dir1 dir2 Hnames Hsame IH]; intros path s;
    [done..|].
  cbn [walk].
  rewrite (walkFn_same k path (Directory io dir1) (Directory io dir2))
    by by constructor.
  destruct (walkFn k path (Directory io dir2) _ s) as [s' err1].
  destruct (readdir_err io), err1; try done.
  rewrite !(merge_sort_fmap by_name by_name (λ e, (e.1, (e.2, walk k e.2)))) by done.
  apply walk_names_same; [by apply merge_sort_same_names|].
  intros name n1 n2 H1 H2.
  rewrite merge_sort_Permutation in H1. rewrite merge_sort_Permutation in H2.
  split; [by apply (Hsame name) | by apply (IH name)].
Qed.

Lemma createAppArchive_same k fs1 fs2 appName zipFileName :
  same_tree fs1 fs2 →
  createAppArchive k fs1 appName zipFileName = createAppArchive k fs2 appName zipFileName.
Proof.
  intros Hsame. unfold createAppArchive, Walk.
  assert (node_io fs1 = node_io fs2) as -> by by destruct Hsame.
  by rewrite (walkFn_same k _ fs1 fs2), (walk_same k fs1 fs2).
Qed.

(** *** A directory node adds nothing to the archive *)


(** [createAppArchive] returns nil whenever it returns. *)
Lemma createAppArchive_returns_nil k fs appName zipFileName err s :
  createAppArchive k fs appName zipFileName = Returned err s → err = None.
Proof.
  unfold createAppArchive. destruct (Walk k appName fs _) as [w []];
    destruct (zip_Close k zipFileName); congruence.
Qed.

Definition unfailing (k : sink) : Prop :=
  (∀ path, create_fails k path = false) ∧
  output_fails k = false ∧ close_fails k = false.

Lemma sound_sink_unfailing : unfailing sound_sink.
Proof. by split_and!. Qed.

End Archive.

(** ** The command dispatcher *)

Module Cli.

(** *** Values *)

Definition error : Type := string.
Definition bytes : Type := list Byte.byte.

(** What [docopt.Parse] stores under a key: a boolean for a command, a
    string or nil for a positional argument or an option with an argument. *)
Inductive value :=
| VBool (b : bool)
| VString (s : string)
| VNil.

(** [%v] of an interface value; a key that is absent reads as nil. *)
Definition Sprint (v : option value) : string :=
  match v with
  | Some (VString s) => s
  | Some (VBool true) => "true"
  | Some (VBool false) => "false"
  | Some VNil | None => "<nil>"
  end.

(** The two fields of [agent.Connection] that the program sets. *)
Record Connection := { Service : string; Credentials : string }.

(** Modelled from the spec: the application descriptor of package [agent]
    (identifier, name, description, capacity, path list, domain list,
    version list, worker list); the program reads the fields below. *)
Record Version := {
  v_Version : string;
  v_Filename : string;
  v_Created : string
}.

Record Worker := {
  w_Container : string;
  w_Host : string;
  w_Port : Z;
  w_Version : string
}.

Record App := {
  Id : string;
  Name : string;
  Description : string;
  Capacity : Z;
  Paths : list string;
  Domains : list string;
  Versions : list Version;
  Workers : list Worker
}.

(** [var app agent.App]. *)
Definition zero_App : App := Build_App "" "" "" 0 [] [] [] [].

(** A value of type [interface{}] decoded from an answer of the service. *)
#[local] Unset Elimination Schemes.
Inductive any :=
| ANull
| ABool (b : bool)
| ANumber (z : Z)
| AText (s : string)
| AList (l : list any)
| AMap (m : list (string * any)).
#[local] Set Elimination Schemes.

(** [map[string]interface{}]; [None] is the nil map of [var result]. *)
Definition Result : Type := option (list (string * any)).

(** *** Effects *)

(** A method of the remote-service collaborator, indexed by the type of the
    variable whose address it is given.  [GetApps] and [GetApp] return an
    error (the program reads it); the other methods are modelled from the
    spec as returning one too. *)
Inductive request : Type → Type :=
| GetApps (apps : list App) : request (list App)
| GetApp (app : App) (appid : string) : request App
| CreateApp (result : Result) (appinfo : App) : request Result
| CreateAppVersion (result : Result) (appid : string) (data : bytes) : request Result
| StartApp (result : Result) (appid : string) : request Result
| StartAppVersion (result : Result) (appid versionid : string) : request Result
| StopApp (result : Result) (appid : string) : request Result
| StopAppVersion (result : Result) (appid versionid : string) : request Result
| DeleteApp (result : Result) (appid : string) : request Result
| DeleteAppVersion (result : Result) (appid versionid : string) : request Result.

(** An argument of [fmt.Printf]. *)
Inductive arg :=
| OfString (s : string)
| OfInt (z : Z)
| OfStrings (l : list string)
| OfError (e : error)
| OfApp (a : App)
| OfResult (r : Result)
| OfArguments (m : gmap string value).

(** A cell of a table: a string, or the string that a call returns. *)
Inductive cell :=
| Text (s : string)
| Hex (id : string)                     (* [app.Id.Hex()] *)
| Itoa (n : nat)                        (* [strconv.Itoa(len(...))] *)
| Sprintf (format : string) (a : arg).  (* [fmt.Sprintf(format, a)] *)

(** A [tablewriter] table as it is when [Render] is called. *)
Record table := {
  header : option (list string);
  colWidth : option nat;
  rows : list (list cell)
}.

(** The calls that reach outside the program, with the type of what they
    return.  Formats are kept as the source writes them. *)
Inductive eff : Type → Type :=
| Getenv (key : string) : eff string
| Marshal (c : Connection) : eff (bytes * option error)
| Unmarshal (data : bytes) (c : Connection) : eff (Connection * option error)
| YamlUnmarshal (data : bytes) (app : App) : eff (App * option error)
| WriteFile (filename : string) (data : bytes) (perm : N) : eff (option error)
| ReadFile (filename : string) : eff (bytes + error)
| Remove (name : string) : eff (option error)
| Printf (format : string) (args : list arg) : eff unit
| Render (t : table) : eff unit
| Remote {T : Type} (c : Connection) (r : request T) : eff (T * option error)
| CreateAppArchive (appName zipFileName : string) : eff Archive.outcome
| ExecOutput (name : string) (args : list string) : eff (bytes * option error).

(** How the process ends: [main] returns, a panic, or [log.Fatal]; or it
    does not end, waiting in a call that does not return. *)
Inductive exit :=
| Done
| Panic (e : error)
| Fatal
| Hung.

(** A program: it ends, or it makes a call and goes on with the answer. *)
Inductive io (R : Type) : Type :=
| Ret (r : R)
| Do {X : Type} (e : eff X) (k : X → io R).
Arguments Ret {R} r.
Arguments Do {R X} e k.

Notation "'let!' x ':=' e 'in' k" := (Do e (λ x, k))
  (at level 10, x binder, e at level 100, k at level 200).
Notation "'let!' ' x ':=' e 'in' k" := (Do e (λ x, k))
  (at level 10, x strict pattern, e at level 100, k at level 200).

(** A call with its answer. *)
Inductive event :=
| Event {X : Type} (e : eff X) (x : X).

(** [always p P]: whatever the answers, the run of [p] satisfies [P];
    [possibly p P]: some answers make the run of [p] satisfy [P]. *)
Fixpoint always {R} (p : io R) (P : list event → R → Prop) : Prop :=
  match p with
  | Ret r => P [] r
  | Do e k => ∀ x, always (k x) (λ tr, P (Event e x :: tr))
  end.

Fixpoint possibly {R} (p : io R) (P : list event → R → Prop) : Prop :=
  match p with
  | Ret r => P [] r
  | Do e k => ∃ x, possibly (k x) (λ tr, P (Event e x :: tr))
  end.

(** The run of [p] in a world that answers every call: the trace and the
    result. *)
Definition world : Type := ∀ X, eff X → X.

Fixpoint run {R} (p : io R) (w : world) : list event * R :=
  match p with
  | Ret r => ([], r)
  | Do e k => let '(tr, r) := run (k (w _ e)) w in (Event e (w _ e) :: tr, r)
  end.

(** *** Type assertions and [check] *)

(** [v.(bool)] and [v.(string)]: a panic when the value has another type. *)
Definition assert_bool (v : option value) (k : bool → io exit) : io exit :=
  match v with
  | Some (VBool b) => k b
  | _ => Ret (Panic "interface conversion: interface {} is not bool")
  end.

Definition assert_string (v : option value) (k : string → io exit) : io exit :=
  match v with
  | Some (VString s) => k s
  | _ => Ret (Panic "interface conversion: interface {} is not string")
  end.

(** [check(err)]. *)
Definition check (err : option error) (k : io exit) : io exit :=
  match err with
  | Some e => Ret (Panic e)
  | None => k
  end.

(** *** Reading a trace *)

(** The methods of the collaborator called in a run, in order. *)
Definition method {T} (r : request T) : string :=
  match r with
  | GetApps _ => "GetApps"
  | GetApp _ _ => "GetApp"
  | CreateApp _ _ => "CreateApp"
  | CreateAppVersion _ _ _ => "CreateAppVersion"
  | StartApp _ _ => "StartApp"
  | StartAppVersion _ _ _ => "StartAppVersion"
  | StopApp _ _ => "StopApp"
  | StopAppVersion _ _ _ => "StopAppVersion"
  | DeleteApp _ _ => "DeleteApp"
  | DeleteAppVersion _ _ _ => "DeleteAppVersion"
  end.

Definition remote_call (ev : event) : option string :=
  match ev with
  | Event (Remote _ r) _ => Some (method r)
  | _ => None
  end.

Definition remote_calls (tr : list event) : list string := omap remote_call tr.

(** The errors that the collaborator returned in a run. *)
Definition remote_error (ev : event) : option error :=
  match ev with
  | @Event X e x =>
      match e in eff X return X → option error with
      | Remote _ _ => λ x, x.2
      | _ => λ _, None
      end x
  end.

Definition remote_errors (tr : list event) : list error := omap remote_error tr.

(** The errors printed in a run. *)
Definition printed_error (ev : event) : list error :=
  match ev with
  | Event (Printf _ args) _ =>
      omap (λ a, match a with OfError e => Some e | _ => None end) args
  | _ => []
  end.

Definition printed_errors (tr : list event) : list error := tr ≫= printed_error.

(** The files written in a run. *)
Definition written (ev : event) : option (string * bytes) :=
  match ev with
  | Event (WriteFile filename data _) _ => Some (filename, data)
  | _ => None
  end.

(** The connection records encoded in a run, each with its encoding. *)
Definition marshalled (ev : event) : option (Connection * bytes) :=
  match ev with
  | @Event X e x =>
      match e in eff X return X → option (Connection * bytes) with
      | Marshal c => λ x, Some (c, x.1)
      | _ => λ _, None
      end x
  end.

(** No call on the local machine failed in the run. *)
Definition local_ok (ev : event) : bool :=
  match ev with
  | @Event X e x =>
      match e in eff X return X → bool with
      | Marshal _ => λ x, bool_decide (x.2 = None)
      | WriteFile _ _ _ => λ x, bool_decide (x = None)
      | ReadFile _ => λ x, match x with inl _ => true | inr _ => false end
      | CreateAppArchive _ _ =>
          λ x, match x with Archive.Returned _ _ => true | _ => false end
      | ExecOutput _ _ => λ x, bool_decide (x.2 = None)
      | _ => λ _, true
      end x
  end.

Lemma always_impl {R} (p : io R) (P Q : list event → R → Prop) :
  (∀ tr r, P tr r → Q tr r) → always p P → always p Q.
Proof.
  revert P Q. induction p as [r|X e k IH]; intros P Q HPQ; simpl; [by apply HPQ|].
  intros Hp x. eapply IH; [|apply Hp]. intros tr r. apply HPQ.
Qed.

Lemma always_run {R} (p : io R) (P : list event → R → Prop) (w : world) :
  always p P → P (run p w).1 (run p w).2.
Proof.
  revert P. induction p as [r|X e k IH]; intros P; simpl; [done|].
  intros Hp. specialize (IH (w _ e) _ (Hp (w _ e))).
  by destruct (run (k (w X e)) w).
Qed.

Lemma run_possibly {R} (p : io R) (P : list event → R → Prop) (w : world) :
  P (run p w).1 (run p w).2 → possibly p P.
Proof.
  revert P. induction p as [r|X e k IH]; intros P; simpl; [done|].
  intros Hp. exists (w _ e). apply IH. by destruct (run (k (w X e)) w).
Qed.

(** A world in which the files are there and empty, the archive gets
    built, and the service refuses every call and leaves the variable it was
    given as it is. *)
Definition untouched {T} (r : request T) : T :=
  match r with
  | GetApps apps => apps
  | GetApp app _ => app
  | CreateApp result _ | CreateAppVersion result _ _
  | StartApp result _ | StartAppVersion result _ _
  | StopApp result _ | StopAppVersion result _ _
  | DeleteApp result _ | DeleteAppVersion result _ _ => result
  end.

Definition refusing : world :=
  λ X e,
    match e in eff X return X with
    | Getenv _ => "/home/q"
    | Marshal _ => ([], None)
    | Unmarshal _ c => (c, None)
    | YamlUnmarshal _ app => (app, None)
    | WriteFile _ _ _ => None
    | ReadFile _ => inl []
    | Remove _ => None
    | Printf _ _ => ()
    | Render _ => ()
    | Remote _ r => (untouched r, Some "connection refused")
    | CreateAppArchive _ _ => Archive.Returned None (Archive.State [] [])
    | ExecOutput _ _ => ([], None)
    end.

End Cli.

(** ** The variant with the in-process archive builder *)

Module QZip.
Import Cli.

(** The tables of [list] and [show]. *)
Definition apps_table (apps : list App) : table :=
  {| header := Some ["Id"; "Name"; "Description"; "Workers"];
     colWidth := None;
     rows := (λ app, [Hex (Id app); Text (Name app); Text (Description app);
                      Itoa (length (Workers app))]) <$> apps |}.

Definition app_table (app : App) : table :=
  {| header := None;
     colWidth := Some 100;
     rows := [[Text "Id"; Hex (Id app)];
              [Text "Name"; Text (Name app)];
              [Text "Description"; Text (Description app)];
              [Text "Capacity"; Sprintf "%v" (OfInt (Capacity app))];
              [Text "Paths"; Sprintf "%v" (OfStrings (Paths app))];
              [Text "Domains"; Sprintf "%v" (OfStrings (Domains app))]] |}.

Definition versions_table (app : App) : table :=
  {| header := Some ["Version"; "Filename"; "Created"];
     colWidth := Some 100;
     rows := (λ v, [Text (v_Version v); Text (v_Filename v);
                    Sprintf "%v" (OfString (v_Created v))]) <$> Versions app |}.

Definition workers_table (app : App) : table :=
  {| header := Some ["Container"; "Host"; "Port"; "Version"];
     colWidth := Some 100;
     rows := (λ w, [Text (w_Container w); Text (w_Host w);
                    Sprintf "%v" (OfInt (w_Port w)); Text (w_Version w)]) <$> Workers app |}.

(** The commands, once the connection record [c] is there. *)

Definition list (c : Connection) : io exit :=
  let! '(apps, err) := Remote c (GetApps []) in
  match err with
  | Some e =>
      let! _ := Printf "Error: %v\n" [OfError e] in
      Ret Done
  | None =>
      let! _ := Render (apps_table apps) in
      Ret Done
  end.

Definition show_tables (app : App) : io exit :=
  let! _ := Render (app_table app) in
  let workers : io exit :=
    if bool_decide (0 < length (Workers app))
    then let! _ := Render (workers_table app) in Ret Done
    else Ret Done in
  if bool_decide (0 < length (Versions app))
  then let! _ := Render (versions_table app) in workers
  else workers.

Definition show (arguments : gmap string value) (c : Connection) : io exit :=
  assert_string (arguments !! "<appid>") (λ appid,
  let! '(app, err) := Remote c (GetApp zero_App appid) in
  match err with
  | Some e =>
      let! _ := Printf "Error: %v\n" [OfError e] in
      Ret Done
  | None => show_tables app
  end).

Definition create (arguments : gmap string value) (c : Connection) : io exit :=
  let appname := arguments !! "<appname>" in
  let! read := ReadFile (Sprint appname +:+ "/app.yaml") in
  match read with
  | inr err => Ret (Panic err)
  | inl data =>
      let! '(appinfo, _) := YamlUnmarshal data zero_App in
      let! _ := Printf "%v\n" [OfApp appinfo] in
      let! '(result, _) := Remote c (CreateApp None appinfo) in
      let! _ := Printf "\n%+v\n\n" [OfResult result] in
      Ret Done
  end.

Definition upload (arguments : gmap string value) (c : Connection) : io exit :=
  assert_string (arguments !! "<appid>") (λ appid,
  let! '(app, _) := Remote c (GetApp zero_App appid) in
  let zipfilename := Name app +:+ ".zip" in
  let! _ := Remove zipfilename in
  let! built := CreateAppArchive appid zipfilename in
  match built with
  | Archive.Exited _ _ => Ret Fatal
  | Archive.Hangs _ => Ret Hung
  | Archive.Returned _ _ =>
      let! read := ReadFile zipfilename in
      match read with
      | inr err => Ret (Panic err)
      | inl data =>
          let! '(result, _) := Remote c (CreateAppVersion None appid data) in
          let! _ := Printf "\n%+v\n\n" [OfResult result] in
          Ret Done
      end
  end).

(** [start], [stop] and [delete]: the switch on the type of
    [arguments["<versionid>"]]. *)
Definition scoped (arguments : gmap string value) (c : Connection)
    (on_app : Result → string → request Result)
    (on_version : Result → string → string → request Result) : io exit :=
  assert_string (arguments !! "<appid>") (λ appid,
  match arguments !! "<versionid>" with
  | Some (VString versionid) =>
      let! '(result, _) := Remote c (on_version None appid versionid) in
      let! _ := Printf "\n%+v\n\n" [OfResult result] in
      Ret Done
  | Some VNil | None =>
      let! '(result, _) := Remote c (on_app None appid) in
      let! _ := Printf "\n%+v\n\n" [OfResult result] in
      Ret Done
  | Some (VBool _) => Ret Done
  end).

Definition restart (arguments : gmap string value) (c : Connection) : io exit :=
  assert_string (arguments !! "<appid>") (λ appid,
  match arguments !! "<versionid>" with
  | Some (VString versionid) =>
      let! '(result, _) := Remote c (StopAppVersion None appid versionid) in
      let! _ := Printf "\n%+v\n\n" [OfResult result] in
      let! '(result, _) := Remote c (StartAppVersion result appid versionid) in
      let! _ := Printf "\n%+v\n\n" [OfResult result] in
      Ret Done
  | Some VNil | None =>
      let! '(result, _) := Remote c (StopApp None appid) in
      let! _ := Printf "\n%+v\n\n" [OfResult result] in
      let! '(result, _) := Remote c (StartApp result appid) in
      let! _ := Printf "\n%+v\n\n" [OfResult result] in
      Ret Done
  | Some (VBool _) => Ret Done
  end).

(** The chain of [if arguments["..."].(bool) { ...; return }]. *)
Definition dispatch (arguments : gmap string value) (c : Connection) : io exit :=
  assert_bool (arguments !! "list") (λ b,
  if b then list c else
  assert_bool (arguments !! "show") (λ b,
  if b then show arguments c else
  assert_bool (arguments !! "create") (λ b,
  if b then create arguments c else
  assert_bool (arguments !! "upload") (λ b,
  if b then upload arguments c else
  assert_bool (arguments !! "start") (λ b,
  if b then scoped arguments c StartApp StartAppVersion else
  assert_bool (arguments !! "stop") (λ b,
  if b then scoped arguments c StopApp StopAppVersion else
  assert_bool (arguments !! "restart") (λ b,
  if b then restart arguments c else
  assert_bool (arguments !! "delete") (λ b,
  if b then scoped arguments c DeleteApp DeleteAppVersion else
  let! _ := Printf "\n%+v\n\n" [OfArguments arguments] in
  Ret Done)))))))).

(** [main], from the result of [docopt.Parse] on. *)
Definition main (arguments : gmap string value) : io exit :=
  let! home := Getenv "HOME" in
  let credentialsFileName := home +:+ "/.agent.json" in
  let c := {| Service := ""; Credentials := "" |} in
  assert_bool (arguments !! "connect") (λ connect,
  if connect then
    assert_string (arguments !! "<service>") (λ service,
    let c := {| Service := service;
                Credentials := Sprint (arguments !! "-u") +:+ ":" +:+
                               Sprint (arguments !! "-p") |} in
    let! '(data, err) := Marshal c in
    check err (
    let! err := WriteFile credentialsFileName data 420 in
    check err (
    dispatch arguments c)))
  else
    let! read := ReadFile credentialsFileName in
    match read with
    | inr _ =>
        let! _ := Printf "Unable to read agent information from %v\n"
                    [OfString credentialsFileName] in
        Ret Done
    | inl data =>
        let! '(c, _) := Unmarshal data c in
        dispatch arguments c
    end).

End QZip.

(** ** The variant that runs [zip] *)

Module QExec.
Import Cli.

Definition list (c : Connection) : io exit :=
  let! '(apps, _) := Remote c (GetApps []) in
  let! _ := Render (QZip.apps_table apps) in
  Ret Done.

Definition show (arguments : gmap string value) (c : Connection) : io exit :=
  assert_string (arguments !! "<appid>") (λ appid,
  let! '(app, _) := Remote c (GetApp zero_App appid) in
  QZip.show_tables app).

Definition create (arguments : gmap string value) (c : Connection) : io exit :=
  let appname := arguments !! "<appname>" in
  let! read := ReadFile (Sprint appname +:+ "/app.yaml") in
  match read with
  | inr err => Ret (Panic err)
  | inl data =>
      let! '(appinfo, _) := YamlUnmarshal data zero_App in
      let! _ := Printf "%v\n" [OfApp appinfo] in
      let! '(result, _) := Remote c (CreateApp None appinfo) in
      let! _ := Printf "\n%+v\n\n" [OfResult result] in
      Ret Done
  end.

Definition upload (arguments : gmap string value) (c : Connection) : io exit :=
  assert_string (arguments !! "<appid>") (λ appid,
  let! '(app, _) := Remote c (GetApp zero_App appid) in
  let zipfilename := Name app +:+ ".zip" in
  let! '(_, err) := ExecOutput "zip" ["-r"; zipfilename; Name app] in
  check err (
  let! read := ReadFile zipfilename in
  match read with
  | inr err => Ret (Panic err)
  | inl data =>
      let! '(result, _) := Remote c (CreateAppVersion None appid data) in
      let! _ := Printf "\n%+v\n\n" [OfResult result] in
      Ret Done
  end)).

Definition scoped (arguments : gmap string value) (c : Connection)
    (on_app : Result → string → request Result)
    (on_version : Result → string → string → request Result) : io exit :=
  assert_string (arguments !! "<appid>") (λ appid,
  match arguments !! "<versionid>" with
  | Some (VString versionid) =>
      let! '(result, _) := Remote c (on_version None appid versionid) in
      let! _ := Printf "\n%+v\n\n" [OfResult result] in
      Ret Done
  | Some VNil | None =>
      let! '(result, _) := Remote c (on_app None appid) in
      let! _ := Printf "\n%+v\n\n" [OfResult result] in
      Ret Done
  | Some (VBool _) => Ret Done
  end).

Definition dispatch (arguments : gmap string value) (c : Connection) : io exit :=
  assert_bool (arguments !! "list") (λ b,
  if b then list c else
  assert_bool (arguments !! "show") (λ b,
  if b then show arguments c else
  assert_bool (arguments !! "create") (λ b,
  if b then create arguments c else
  assert_bool (arguments !! "upload") (λ b,
  if b then upload arguments c else
  assert_bool (arguments !! "start") (λ b,
  if b then scoped arguments c StartApp StartAppVersion else
  assert_bool (arguments !! "stop") (λ b,
  if b then scoped arguments c StopApp StopAppVersion else
  assert_bool (arguments !! "delete") (λ b,
  if b then scoped arguments c DeleteApp DeleteAppVersion else
  let! _ := Printf "\n%+v\n\n" [OfArguments arguments] in
  Ret Done))))))).

Definition main (arguments : gmap string value) : io exit :=
  let c := {| Service := ""; Credentials := "" |} in
  assert_bool (arguments !! "connect") (λ connect,
  if connect then
    assert_string (arguments !! "<service>") (λ service,
    let c := {| Service := service;
                Credentials := Sprint (arguments !! "-u") +:+ ":" +:+
                               Sprint (arguments !! "-p") |} in
    let! '(data, err) := Marshal c in
    check err (
    let! home := Getenv "HOME" in
    let! err := WriteFile (home +:+ "/.agent.json") data 420 in
    check err (
    dispatch arguments c)))
  else
    let! home := Getenv "HOME" in
    let! read := ReadFile (home +:+ "/.agent.json") in
    match read with
    | inr err => Ret (Panic err)
    | inl data =>
        let! '(c, _) := Unmarshal data c in
        dispatch arguments c
    end).

End QExec.

(** ** What [docopt.Parse] returns for a command line that the usage accepts *)

Module Docopt.
Import Cli.

Inductive command :=
| Connect (service : string) (username password : option string)
| List
| Show (appid : string)
| Create (appname : string)
| Upload (appid : string)
| Start (appid : string) (versionid : option string)
| Stop (appid : string) (versionid : option string)
| Restart (appid : string) (versionid : option string)
| Delete (appid : string) (versionid : option string).

Definition optional (s : option string) : value :=
  match s with Some s => VString s | None => VNil end.

Definition is_connect (cmd : command) : bool :=
  match cmd with Connect _ _ _ => true | _ => false end.
Definition is_restart (cmd : command) : bool :=
  match cmd with Restart _ _ => true | _ => false end.

Definition service_of (cmd : command) : option string :=
  match cmd with Connect service _ _ => Some service | _ => None end.
Definition username_of (cmd : command) : option string :=
  match cmd with Connect _ username _ => username | _ => None end.
Definition password_of (cmd : command) : option string :=
  match cmd with Connect _ _ password => password | _ => None end.
Definition appname_of (cmd : command) : option string :=
  match cmd with Create appname => Some appname | _ => None end.
Definition appid_of (cmd : command) : option string :=
  match cmd with
  | Show appid | Upload appid | Start appid _ | Stop appid _
  | Restart appid _ | Delete appid _ => Some appid
  | _ => None
  end.
Definition versionid_of (cmd : command) : option string :=
  match cmd with
  | Start _ versionid | Stop _ versionid | Restart _ versionid
  | Delete _ versionid => versionid
  | _ => None
  end.

(** The keys that both usages have: every command word is a boolean, every
    positional argument and every option with an argument is a string, or
    nil when the command line does not give it.  An option with a long name
    is stored under the long name only: [-h --help] under [--help]. *)
Definition common (cmd : command) : list (string * value) :=
  [("connect", VBool (is_connect cmd));
   ("list", VBool (match cmd with List => true | _ => false end));
   ("show", VBool (match cmd with Show _ => true | _ => false end));
   ("create", VBool (match cmd with Create _ => true | _ => false end));
   ("upload", VBool (match cmd with Upload _ => true | _ => false end));
   ("start", VBool (match cmd with Start _ _ => true | _ => false end));
   ("stop", VBool (match cmd with Stop _ _ => true | _ => false end));
   ("delete", VBool (match cmd with Delete _ _ => true | _ => false end));
   ("<service>", optional (service_of cmd));
   ("-u", optional (username_of cmd));
   ("-p", optional (password_of cmd));
   ("<appname>", optional (appname_of cmd));
   ("<appid>", optional (appid_of cmd));
   ("<versionid>", optional (versionid_of cmd));
   ("--help", VBool false);
   ("--version", VBool false)].

(** The usage with [(start|stop|restart)]. *)
Definition parse_zip (cmd : command) : gmap string value :=
  list_to_map (("restart", VBool (is_restart cmd)) :: common cmd).

(** The usage with [(start|stop)]: it has no [restart], a command line with
    that word is not accepted and the program ends in [docopt.Parse]. *)
Definition parse_exec (cmd : command) : option (gmap string value) :=
  if is_restart cmd then None else Some (list_to_map (common cmd)).

Lemma parse_exec_Some (cmd : command) (arguments : gmap string value) :
  parse_exec cmd = Some arguments →
  is_restart cmd = false ∧ arguments = list_to_map (common cmd).
Proof.
  unfold parse_exec. destruct (is_restart cmd); [discriminate|].
  intros H. injection H as H. split; [reflexivity | symmetry; exact H].
Qed.

(** The methods of the collaborator that a command calls when nothing on
    the local machine fails. *)
Definition calls_of (cmd : command) : list string :=
  match cmd with
  | Connect _ _ _ => []
  | List => ["GetApps"]
  | Show _ => ["GetApp"]
  | Create _ => ["CreateApp"]
  | Upload _ => ["GetApp"; "CreateAppVersion"]
  | Start _ None => ["StartApp"]
  | Start _ (Some _) => ["StartAppVersion"]
  | Stop _ None => ["StopApp"]
  | Stop _ (Some _) => ["StopAppVersion"]
  | Restart _ None => ["StopApp"; "StartApp"]
  | Restart _ (Some _) => ["StopAppVersion"; "StartAppVersion"]
  | Delete _ None => ["DeleteApp"]
  | Delete _ (Some _) => ["DeleteAppVersion"]
  end.

End Docopt.

(** * The properties that the specification states *)

Import Utf8 Regexp Filepath Archive.
Import Cli Docopt.

(** ** The scenario tree: [app/main.go], [app/.git/HEAD], [app/.DS_Store] *)

Definition app_tree (main_go head ds_store : bytes) : node :=
  Directory no_faults
    [("main.go", Regular no_faults main_go);
     (".git", Directory no_faults [("HEAD", Regular no_faults head)]);
     (".DS_Store", Regular no_faults ds_store)].

Definition zeros (n : nat) : bytes := replicate n Byte.x00.

Example Clean_examples :
  Clean <$> ["a/b/../c"; "/.."; "../../a/.."; "app/"; "./x"; ""; "a//b/./c/"]
  = ["a/c"; "/"; "../.."; "app"; "x"; "."; "a/b/c"].
Proof. vm_compute. reflexivity. Qed.

Example Join_examples :
  (Join "app/" "main.go", Join "" "x", Join "." "x", Join "/" "x", Join "app/.git" "HEAD")
  = ("app/main.go", "x", "x", "/x", "app/.git/HEAD").
Proof. vm_compute. reflexivity. Qed.

Example excluded_examples :
  excluded <$> ["app/.DS_Store"; "app/main.go"; "app/.git/HEAD"; "go/src/x/.git/HEAD";
                "go/.git/HEAD"; "app/go/pkg/lib.a"; "app/go/bin/tool"; "cargo/binary";
                "app/xDS_Store"]
  = [true; false; false; true; false; true; true; true; true].
Proof. vm_compute. reflexivity. Qed.

Example visits_app_tree :
  (visits (app_tree [] [] []) "app/").*1
  = ["app/"; "app/.DS_Store"; "app/.git"; "app/.git/HEAD"; "app/main.go"].
Proof. vm_compute. reflexivity. Qed.

(** A [.] of the pattern takes one character, of however many bytes. *)
Example excluded_characters :
  excluded <$> ["app/go/src/égit/config"; "app/go/src/ééhg"; "naïveDS_Store"; "go/€/😀bzr"]
  = [true; false; true; true].
Proof. vm_compute. reflexivity. Qed.

(** ** Symbolic links and named pipes *)

(** [app/a.txt] and [app/latest], a symbolic link to it. *)
Definition linked_tree (data : bytes) : node :=
  Directory no_faults
    [("a.txt", Regular no_faults data);
     ("latest", Symlink no_faults (Regular no_faults data))].

(** [app/a.txt], the named pipe [app/b.pipe] that no process writes to, and
    [app/c.txt]. *)
Definition piped_tree (data : bytes) : node :=
  Directory no_faults
    [("a.txt", Regular no_faults data);
     ("b.pipe", Fifo no_faults);
     ("c.txt", Regular no_faults data)].

(** The archive in the words of the specification: the regular files of
    the tree whose traversal path does not match the pattern, each under its
    path and with its bytes. *)
Definition spec_archive (fs : node) (appName : string) : list (string * bytes) :=
  omap (λ v, match v.2 with
             | Regular _ data => if excluded v.1 then None else Some (v.1, data)
             | _ => None
             end) (listing fs appName).

(** Nothing in the tree is a symbolic link. *)
Fixpoint no_links (n : node) : bool :=
  match n with
  | Symlink _ _ => false
  | Directory _ dir => forallb (λ e, no_links e.2) dir
  | _ => true
  end.

Lemma listing_no_links n path p m :
  no_links n = true → (p, m) ∈ listing n path → follow m = m.
Proof.
  revert path. induction n as [io data|io dir IH|io|io|io target _] using node_ind;
    intros path Hn; [| |..|done].
  1, 3, 4: by intros [= _ ->]%list_elem_of_singleton.
  cbn [listing]. intros [[= _ ->]|Hin]%elem_of_cons; [done|].
  apply list_elem_of_bind in Hin as (e & Hin & He).
  simpl in Hn. apply Is_true_true, forallb_True in Hn.
  apply (proj1 (Forall_forall _ _) IH e He (Join path e.1)); [|done].
  apply Is_true_true. by apply (proj1 (Forall_forall _ _) Hn e).
Qed.

(** C1, as stated, fails.  The archive of [app/a.txt] and the symbolic link
    [app/latest] has an entry for the link, which is no regular file of the
    tree: the callback opens the path, and [os.Open] follows the link.  And
    on the named pipe [app/b.pipe] the build never returns: it waits in
    [os.Open], [app/c.txt] is never reached. *)
Lemma createAppArchive_not_only_regular :
  createAppArchive sound_sink (linked_tree (zeros 5)) "app" "app.zip"
  = Returned None (State [("app/a.txt", zeros 5); ("app/latest", zeros 5)] []) ∧
  spec_archive (linked_tree (zeros 5)) "app" = [("app/a.txt", zeros 5)] ∧
  createAppArchive sound_sink (piped_tree (zeros 5)) "app" "app.zip"
  = Hangs (State [("app/a.txt", zeros 5)] []) ∧
  spec_archive (piped_tree (zeros 5)) "app"
  = [("app/a.txt", zeros 5); ("app/c.txt", zeros 5)].
Proof. vm_compute. auto. Qed.

(** C1, amended: on every tree on which every call returns, and without
    error, the build returns nil and the archive holds exactly the paths
    that the pattern does not match and at which [os.Open] finds a regular
    file (a regular file, or a symbolic link that resolves to one): each
    under the path of its visit, with the bytes of the file, no path twice,
    and no entry for a directory.  On a tree without symbolic links these
    are exactly the regular files that the pattern does not match. *)
Theorem createAppArchive_exact (k : sink) (fs : node) (appName zipFileName : string) :
  unfailing k → healthy fs = true → well_formed fs = true →
  ∃ arch,
    createAppArchive k fs appName zipFileName = Returned None (State arch []) ∧
    (∀ path data,
        (path, data) ∈ arch ↔
        excluded path = false ∧
        ∃ n io, (path, n) ∈ listing fs appName ∧ follow n = Regular io data) ∧
    NoDup arch.*1 ∧
    (∀ path data io dir,
        (path, data) ∈ arch → (path, Directory io dir) ∉ listing fs appName) ∧
    (no_links fs = true →
     ∀ path data,
       (path, data) ∈ arch ↔
       excluded path = false ∧ ∃ io, (path, Regular io data) ∈ listing fs appName).
Proof.
  intros (Hk & Ho & Hc) Hfs Hwf. exists (omap archived (visits fs appName)).
  pose proof (listing_NoDup fs appName Hwf) as Hnd.
  assert (∀ path data,
            (path, data) ∈ omap archived (visits fs appName) ↔
            excluded path = false ∧
            ∃ n io, (path, n) ∈ listing fs appName ∧ follow n = Regular io data)
    as Hin.
  { intros path data. rewrite elem_of_archived. by setoid_rewrite visits_listing. }
  split_and!.
  - by apply createAppArchive_healthy.
  - done.
  - apply omap_archived_NoDup. by rewrite visits_listing.
  - intros path data io dir (_ & n & io' & Hfile & Hn)%Hin Hdir.
    pose proof (NoDup_fst_eq _ _ _ _ Hnd Hfile Hdir) as ->. done.
  - intros Hlinks path data. rewrite Hin. split.
    + intros (? & n & io & Hfile & Hn). split; [done|]. exists io.
      by rewrite (listing_no_links _ _ _ _ Hlinks Hfile) in Hn; subst.
    + intros (? & io & Hfile). split; [done|]. by exists (Regular io data), io.
Qed.

Lemma createAppArchive_exact_witness :
  ∃ arch,
    createAppArchive sound_sink (linked_tree (zeros 100)) "app" "app.zip"
    = Returned None (State arch []) ∧
    (∀ path data,
        (path, data) ∈ arch ↔
        excluded path = false ∧
        ∃ n io, (path, n) ∈ listing (linked_tree (zeros 100)) "app" ∧
                follow n = Regular io data) ∧
    NoDup arch.*1 ∧
    (∀ path data io dir,
        (path, data) ∈ arch →
        (path, Directory io dir) ∉ listing (linked_tree (zeros 100)) "app") ∧
    (no_links (linked_tree (zeros 100)) = true →
     ∀ path data,
       (path, data) ∈ arch ↔
       excluded path = false ∧
       ∃ io, (path, Regular io data) ∈ listing (linked_tree (zeros 100)) "app").
Proof.
  apply (createAppArchive_exact sound_sink (linked_tree (zeros 100)) "app" "app.zip").
  - exact sound_sink_unfailing.
  - vm_compute. reflexivity.
  - vm_compute. reflexivity.
Defined.

Example spec_excluded_examples :
  spec_excluded <$> ["app/.DS_Store"; "app/main.go"; "app/.git/HEAD"; "app/go/pkg/lib.a";
                     "app/go/bin/tool"; "app/go/src/x/.git/HEAD"; "go/pkg"; "cargo/binary"]
  = [true; false; false; true; true; true; true; false].
Proof. vm_compute. reflexivity. Qed.

(** C2, as stated, fails in both directions: [app/xDS_Store] does not
    contain [.DS_Store] and [cargo/binary] has no [go] directory, yet the
    builder excludes both; [app/go/.git/HEAD] has a [.git] segment beneath
    the [go] directory at the top of [app], yet the builder archives it. *)
Lemma excluded_not_spec_excluded :
  (excluded "app/xDS_Store" = true ∧ spec_excluded "app/xDS_Store" = false) ∧
  (excluded "cargo/binary" = true ∧ spec_excluded "cargo/binary" = false) ∧
  (excluded "app/go/.git/HEAD" = false ∧ spec_excluded "app/go/.git/HEAD" = true) ∧
  (archive_of (createAppArchive sound_sink
                 (Directory no_faults
                    [("go", Directory no_faults
                       [(".git", Directory no_faults
                          [("HEAD", Regular no_faults (zeros 20))])])])
                 "app" "app.zip")).*1 = ["app/go/.git/HEAD"].
Proof. vm_compute. auto 10. Qed.

(** C2, amended: a path is excluded exactly when one of its substrings
    belongs to the language of the pattern, in which [.] is any character
    but newline (the path is read as UTF-8): one character and [DS_Store];
    or [go/], any run of bytes without newline, [/], one character, and
    [git], [bzr] or [hg]; or [go/pkg]; or [go/bin].  No entry of an
    archive, whatever fails during the build, has a path that is excluded;
    so none ends in [.DS_Store], none contains
    [go/pkg] or [go/bin], and none contains [go/], a run of bytes without
    newline and then [/.git], [/.bzr] or [/.hg]. *)
Theorem exclusion_exact :
  (∀ path,
      excluded path = true ↔
      ∃ pre mid post, path = pre +:+ mid +:+ post ∧ hit mid) ∧
  (∀ k fs appName zipFileName path data,
      (path, data) ∈ archive_of (createAppArchive k fs appName zipFileName) →
      excluded path = false ∧
      ¬ Str.has_suffix ".DS_Store" path ∧
      ¬ Str.contains "go/pkg" path ∧
      ¬ Str.contains "go/bin" path ∧
      ∀ pre mid v post,
        Str.free_of newline mid = true → v ∈ ["git"; "bzr"; "hg"] →
        path ≠ pre +:+ "go/" +:+ mid +:+ "/." +:+ v +:+ post).
Proof.
  split; [apply excluded_iff|].
  intros k fs appName zipFileName path data Hin.
  pose proof (createAppArchive_kept _ _ _ _ _ _ Hin) as Hex.
  split_and!; [done|..].
  - intros (pre & ->). rewrite excluded_DS_Store in Hex; [done|].
    exists pre, "". by rewrite Str.app_nil_r.
  - intros H. by rewrite excluded_go_pkg in Hex.
  - intros H. by rewrite excluded_go_bin in Hex.
  - intros pre mid v post Hmid Hv ->. by rewrite excluded_go_vcs in Hex.
Qed.

Lemma exclusion_exact_witness :
  excluded "src/go/x/y/.hg/store" = true ∧ excluded "app/go/src/égit" = true ∧
  excluded "app/main.go" = false.
Proof.
  destruct exclusion_exact as [Hiff _]. split_and!.
  - apply Hiff. exists "src/", "go/x/y/.hg", "/store". split; [reflexivity|].
    apply (hit_vcs "x/y" "." "hg"); [reflexivity | reflexivity | discriminate |].
    apply list_elem_of_In. simpl. tauto.
  - apply Hiff. exists "app/", "go/src/égit", "". split; [reflexivity|].
    apply (hit_vcs "src" "é" "git"); [reflexivity | reflexivity | discriminate |].
    apply list_elem_of_In. simpl. tauto.
  - vm_compute. reflexivity.
Defined.




(** ** Failures during the build *)

Definition hello : bytes := String.list_byte_of_string "hello".
Definition world : bytes := String.list_byte_of_string "world".

(** [io.Copy] fails on [app/a.txt] after three bytes. *)
Definition torn_tree : node :=
  Directory no_faults
    [("a.txt", Regular (Faults false false false false (Some 3)) hello);
     ("b.txt", Regular no_faults world)].

(** [os.Open] fails on [app/a.txt]. *)
Definition unreadable_tree : node :=
  Directory no_faults
    [("a.txt", Regular (Faults false false true false None) hello);
     ("b.txt", Regular no_faults world)].

(** [File.Stat] fails on [app/a.txt]. *)
Definition unstatable_tree : node :=
  Directory no_faults
    [("a.txt", Regular (Faults false false false true None) hello);
     ("b.txt", Regular no_faults world)].

(** C4 does not hold of the code.  A failed copy is dropped: the build goes
    on and returns nil with a truncated entry.  A failed open or stat ends
    the traversal, the error is printed, and the build still closes the
    archive and returns nil, the files not yet visited missing.  Only a
    failure of [w.Create] or of [w.Close] ends the process. *)
Theorem createAppArchive_swallows_errors :
  createAppArchive sound_sink torn_tree "app" "app.zip"
  = Returned None
      (State [("app/a.txt", String.list_byte_of_string "hel"); ("app/b.txt", world)] []) ∧
  createAppArchive sound_sink unreadable_tree "app" "app.zip"
  = Returned None (State [] [ErrInvalid]) ∧
  createAppArchive sound_sink unstatable_tree "app" "app.zip"
  = Returned None (State [] [ErrStat "app/a.txt"]) ∧
  createAppArchive (Sink false (λ _, false) true) (app_tree hello [] []) "app" "app.zip"
  = Exited ErrZipClose (State [("app/.git/HEAD", []); ("app/main.go", hello)] []) ∧
  createAppArchive (Sink false (λ _, true) false) (app_tree hello [] []) "app" "app.zip"
  = Exited (ErrZipCreate "app/.git/HEAD") (State [] []).
Proof. vm_compute. auto 10. Qed.



(** C9: two runs of the builder on the same tree, whatever the order in
    which the directories hand out their names, end the same way and leave
    the same archive: the same entries, with the same paths and the same
    bytes, in the same order. *)
Theorem createAppArchive_rerun (k : sink) (fs fs' : node) (appName zipFileName : string) :
  same_tree fs fs' →
  createAppArchive k fs appName zipFileName = createAppArchive k fs' appName zipFileName ∧
  archive_of (createAppArchive k fs appName zipFileName)
  = archive_of (createAppArchive k fs' appName zipFileName).
Proof.
  intros Hsame. by rewrite (createAppArchive_same k fs fs' appName zipFileName Hsame).
Qed.

(** The scenario tree, its names read in another order. *)
Definition app_tree_reordered (main_go head ds_store : bytes) : node :=
  Directory no_faults
    [(".DS_Store", Regular no_faults ds_store);
     ("main.go", Regular no_faults main_go);
     (".git", Directory no_faults [("HEAD", Regular no_faults head)])].

Lemma createAppArchive_rerun_witness :
  createAppArchive sound_sink (app_tree hello world []) "app" "app.zip"
  = createAppArchive sound_sink (app_tree_reordered hello world []) "app" "app.zip" ∧
  archive_of (createAppArchive sound_sink (app_tree hello world []) "app" "app.zip")
  = archive_of (createAppArchive sound_sink (app_tree_reordered hello world []) "app" "app.zip").
Proof.
  apply (createAppArchive_rerun sound_sink (app_tree hello world [])
           (app_tree_reordered hello world []) "app" "app.zip").
  apply same_tree_Permutation; [vm_compute; reflexivity|].
  symmetry. apply (Permutation_cons_append [_; _]).
Defined.

(** ** Runs of the dispatcher *)

Ltac eval_lookups :=
  repeat match goal with
         | |- context [ @lookup string value (gmap string value) _ ?k ?m ] =>
             let r := eval vm_compute in (m !! k) in
             change (m !! k) with r
         end.

Ltac unfold_main :=
  unfold QZip.main, QZip.dispatch, QZip.list, QZip.show, QZip.show_tables, QZip.create,
    QZip.upload, QZip.scoped, QZip.restart,
    QExec.main, QExec.dispatch, QExec.list, QExec.show, QExec.create, QExec.upload,
    QExec.scoped, parse_exec;
  eval_lookups; cbn.

Ltac answer :=
  lazymatch goal with
  | |- ∀ x : _ * option _, _ => intros [? [?|]]
  | |- ∀ x : _ + _, _ => intros [?|?]
  | |- ∀ x : _ * _, _ => intros [? ?]
  | |- ∀ x : option _, _ => intros [?|]
  | |- ∀ x : Archive.outcome, _ => intros [? ?|? ?|?]
  | |- ∀ x : unit, _ => intros []
  | |- ∀ x : _, _ => intros ?
  end.

Ltac run_through :=
  repeat (cbn; first [answer | case_match | case_bool_decide]).

Lemma QZip_calls (cmd : command) :
  always (QZip.main (parse_zip cmd))
    (λ tr r, remote_calls tr `prefix_of` calls_of cmd ∧
             (forallb local_ok tr = true → remote_calls tr = calls_of cmd ∧ r = Done)).
Proof.
  destruct cmd as [service u p| | | | |appid [v|]|appid [v|]|appid [v|]|appid [v|]];
    unfold_main; run_through; (split; [by eexists | by intros]).
Qed.

Lemma QExec_calls (cmd : command) (arguments : gmap string value) :
  parse_exec cmd = Some arguments →
  always (QExec.main arguments)
    (λ tr r, remote_calls tr `prefix_of` calls_of cmd ∧
             (forallb local_ok tr = true → remote_calls tr = calls_of cmd ∧ r = Done)).
Proof.
  intros [Hr ->]%parse_exec_Some.
  destruct cmd as [service u p| | | | |appid [v|]|appid [v|]|appid [v|]|appid [v|]];
    try discriminate Hr; clear Hr;
    unfold_main; run_through; (split; [by eexists | by intros]).
Qed.

(** The variant without [restart] never reads that key: on the map that the
    other usage yields for [restart] it calls nothing and prints the map. *)
Lemma QExec_ignores_restart (appid : string) (versionid : option string) :
  always (QExec.main (parse_zip (Restart appid versionid)))
    (λ tr r, remote_calls tr = [] ∧ (forallb local_ok tr = true → r = Done)).
Proof. destruct versionid; unfold_main; run_through; done. Qed.

(** The file that a run reads first, the files it writes. *)
Definition persisted (home : string) : string := home +:+ "/.agent.json".

Definition connection_of (cmd : command) : Connection :=
  {| Service := default "" (service_of cmd);
     Credentials := default "<nil>" (username_of cmd) +:+ ":" +:+
                    default "<nil>" (password_of cmd) |}.

(** [connect]: the record is encoded and, when that succeeds, the encoding
    is written to the file; nothing else is written. *)
Definition writes_record (cmd : command) (tr : list event) : Prop :=
  ∃ data err,
    omap marshalled tr = [(connection_of cmd, data)] ∧
    Event (Marshal (connection_of cmd)) (data, err) ∈ tr ∧
    match err with
    | None =>
        ∃ home, Event (Getenv "HOME") home ∈ tr ∧
                omap written tr = [(persisted home, data)]
    | Some _ => omap written tr = []
    end.

Ltac elem_of_trace :=
  repeat first [apply list_elem_of_here | apply list_elem_of_further].

Lemma QZip_connect service username password :
  always (QZip.main (parse_zip (Connect service username password)))
    (λ tr _, writes_record (Connect service username password) tr ∧
             remote_calls tr = []).
Proof.
  destruct username, password; unfold_main; run_through;
    (split; [|done]); eexists _, _; cbn;
    (split_and!; [reflexivity | elem_of_trace |]);
    first [reflexivity | eexists; split; [elem_of_trace | reflexivity]].
Qed.

Lemma QExec_connect service username password arguments :
  parse_exec (Connect service username password) = Some arguments →
  always (QExec.main arguments)
    (λ tr _, writes_record (Connect service username password) tr ∧
             remote_calls tr = []).
Proof.
  intros [_ ->]%parse_exec_Some. destruct username, password; unfold_main; run_through;
    (split; [|done]); eexists _, _; cbn;
    (split_and!; [reflexivity | elem_of_trace |]);
    first [reflexivity | eexists; split; [elem_of_trace | reflexivity]].
Qed.

(** Every command but [connect] reads the record first; when the file
    cannot be read the run ends there, by [abort]. *)
Definition reads_first (abort : string → error → list event * exit)
    (tr : list event) (r : exit) : Prop :=
  ∃ home read rest,
    tr = Event (Getenv "HOME") home :: Event (ReadFile (persisted home)) read :: rest ∧
    omap written tr = [] ∧
    match read with
    | inl _ => True
    | inr err => (rest, r) = abort home err
    end.

(** The first variant prints a message and returns. *)
Definition QZip_abort (home : string) (err : error) : list event * exit :=
  ([Event (Printf "Unable to read agent information from %v\n" [OfString (persisted home)]) ()],
   Done).

(** The second variant panics with the error. *)
Definition QExec_abort (home : string) (err : error) : list event * exit :=
  ([], Panic err).

Lemma QZip_reads_first (cmd : command) :
  is_connect cmd = false →
  always (QZip.main (parse_zip cmd)) (reads_first QZip_abort).
Proof.
  intros Hc.
  destruct cmd as [service u p| | | | |appid [v|]|appid [v|]|appid [v|]|appid [v|]];
    try discriminate Hc; clear Hc;
    unfold_main; run_through;
    (eexists _, _, _; split_and!; [reflexivity | reflexivity | cbn; try reflexivity]).
Qed.

Lemma QExec_reads_first (cmd : command) (arguments : gmap string value) :
  is_connect cmd = false → parse_exec cmd = Some arguments →
  always (QExec.main arguments) (reads_first QExec_abort).
Proof.
  intros Hc [Hr ->]%parse_exec_Some.
  destruct cmd as [service u p| | | | |appid [v|]|appid [v|]|appid [v|]|appid [v|]];
    try discriminate Hc; try discriminate Hr; clear Hc Hr;
    unfold_main; run_through;
    (eexists _, _, _; split_and!; [reflexivity | reflexivity | cbn; try reflexivity]).
Qed.

(** C5 does not hold of the code.  [list] and [show] of the first variant
    print an error of the collaborator and return; every other command drops
    it: [start] prints the result and returns as if nothing had failed,
    [upload] goes on to archive and to upload after a failed [GetApp], and
    the second variant drops the error of [list] as well. *)
Theorem remote_errors_dropped :
  (∀ cmd, cmd = List ∨ (∃ appid, cmd = Show appid) →
     always (QZip.main (parse_zip cmd))
       (λ tr r, ∀ e, e ∈ remote_errors tr →
                     ∃ tr', tr = tr' ++ [Event (Printf "Error: %v\n" [OfError e]) ()] ∧
                            r = Done)) ∧
  possibly (QZip.main (parse_zip (Start "app1" None)))
    (λ tr r, remote_errors tr = ["connection refused"] ∧ printed_errors tr = [] ∧
             remote_calls tr = ["StartApp"] ∧ r = Done) ∧
  possibly (QZip.main (parse_zip (Upload "app1")))
    (λ tr r, remote_errors tr = ["connection refused"] ∧ printed_errors tr = [] ∧
             remote_calls tr = ["GetApp"; "CreateAppVersion"] ∧ r = Done) ∧
  possibly (QExec.main (list_to_map (common List)))
    (λ tr r, remote_errors tr = ["connection refused"] ∧ printed_errors tr = [] ∧
             r = Done) ∧
  run (QZip.main (parse_zip (Upload "app1"))) refusing
  = ([Event (Getenv "HOME") "/home/q";
      Event (ReadFile "/home/q/.agent.json") (inl []);
      Event (Unmarshal [] (Build_Connection "" "")) (Build_Connection "" "", None);
      Event (Remote (Build_Connection "" "") (GetApp zero_App "app1"))
        (zero_App, Some "connection refused");
      Event (Remove ".zip") None;
      Event (CreateAppArchive "app1" ".zip") (Archive.Returned None (Archive.State [] []));
      Event (ReadFile ".zip") (inl []);
      Event (Remote (Build_Connection "" "") (CreateAppVersion None "app1" []))
        (None, Some "connection refused");
      Event (Printf "\n%+v\n\n" [OfResult None]) ()],
     Done).
Proof.
  split_and!; [| | | |vm_compute; reflexivity].
  - intros cmd [->|[appid ->]]; unfold_main; run_through;
      match goal with
      | H : _ ∈ _ |- _ =>
          apply list_elem_of_In in H; cbn in H;
          first [destruct H as [<-|[]]; by eexists [_; _; _; _] | by destruct H]
      end.
  - unfold_main. exists "/home/q", (inl []), (Build_Connection "" "", None),
      (None, Some "connection refused"), (). done.
  - unfold_main. exists "/home/q", (inl []), (Build_Connection "" "", None),
      (zero_App, Some "connection refused"), None,
      (Archive.Returned None (Archive.State [] [])), (inl []), (None, None), (). done.
  - unfold_main. exists "/home/q", (inl []), (Build_Connection "" "", None),
      ([], Some "connection refused"), (). done.
Qed.

(** C6: in both variants [connect] encodes the record made of the service
    endpoint and the credential string and writes the encoding to
    [$HOME/.agent.json], and writes nothing else; every other command first
    reads that file and writes none, and when the file cannot be read the
    run ends there: the first variant prints that it is unable to read the
    file and returns, the second panics with the error. *)
Theorem connection_record_lifecycle (cmd : command) :
  always (QZip.main (parse_zip cmd))
    (λ tr r, if is_connect cmd then writes_record cmd tr
             else reads_first QZip_abort tr r) ∧
  ∀ arguments, parse_exec cmd = Some arguments →
    always (QExec.main arguments)
      (λ tr r, if is_connect cmd then writes_record cmd tr
               else reads_first QExec_abort tr r).
Proof.
  destruct (is_connect cmd) eqn:Hcmd.
  - destruct cmd as [service username password| | | | | | | |];
      try discriminate Hcmd. split.
    + eapply always_impl; [|apply QZip_connect]. by intros tr r [? _].
    + intros arguments Hargs. eapply always_impl; [|by apply QExec_connect].
      by intros tr r [? _].
  - split; [by apply QZip_reads_first|].
    intros arguments Hargs. by eapply QExec_reads_first.
Qed.

Lemma connection_record_lifecycle_witness :
  always (QZip.main (parse_zip (Show "app1"))) (reads_first QZip_abort) ∧
  always (QExec.main (list_to_map (common (Show "app1")))) (reads_first QExec_abort) ∧
  always (QZip.main (parse_zip (Connect "http://agent" (Some "me") None)))
    (λ tr _, writes_record (Connect "http://agent" (Some "me") None) tr).
Proof.
  destruct (connection_record_lifecycle (Show "app1")) as [Hzip Hexec].
  destruct (connection_record_lifecycle (Connect "http://agent" (Some "me") None))
    as [Hconnect _].
  split_and!; [exact Hzip | apply Hexec; reflexivity | exact Hconnect].
Defined.

(** C7, as stated, fails: [restart] calls two methods of the collaborator,
    so does [upload], and [connect] calls none. *)
Lemma restart_calls_twice :
  possibly (QZip.main (parse_zip (Restart "app1" None)))
    (λ tr r, remote_calls tr = ["StopApp"; "StartApp"] ∧ r = Done) ∧
  possibly (QZip.main (parse_zip (Upload "app1")))
    (λ tr r, remote_calls tr = ["GetApp"; "CreateAppVersion"] ∧ r = Done) ∧
  possibly (QZip.main (parse_zip (Connect "http://agent" None None)))
    (λ tr r, remote_calls tr = [] ∧ r = Done).
Proof.
  split_and!; unfold_main.
  - exists "/home/q", (inl []), (Build_Connection "" "", None),
      (None, None), (), (None, None), (). done.
  - exists "/home/q", (inl []), (Build_Connection "" "", None),
      (zero_App, None), None, (Archive.Returned None (Archive.State [] [])),
      (inl []), (None, None), (). done.
  - exists "/home/q", ([], None), None, (). done.
Qed.

(** C7, amended: in every run the methods called are the first ones of the
    list of the command, and all of that list, each once and in order, when
    nothing fails on the local machine: none for [connect]; [GetApps] for
    [list]; [GetApp] for [show]; [CreateApp] for [create]; [GetApp] and then
    [CreateAppVersion] for [upload]; for [start], [stop] and [delete] the
    method of the application, or the method of the version when a version
    identifier is given; for [restart] the stop method and then the start
    method.  The second variant does the same for every command but
    [restart], which its usage does not accept and its dispatch never
    reads. *)
Theorem commands_call_the_collaborator (cmd : command) :
  always (QZip.main (parse_zip cmd))
    (λ tr r, remote_calls tr `prefix_of` calls_of cmd ∧
             (forallb local_ok tr = true → remote_calls tr = calls_of cmd ∧ r = Done)) ∧
  (∀ arguments, parse_exec cmd = Some arguments →
     always (QExec.main arguments)
       (λ tr r, remote_calls tr `prefix_of` calls_of cmd ∧
                (forallb local_ok tr = true → remote_calls tr = calls_of cmd ∧ r = Done))) ∧
  (parse_exec cmd = None ↔ is_restart cmd = true) ∧
  (is_restart cmd = true →
     always (QExec.main (parse_zip cmd))
       (λ tr r, remote_calls tr = [] ∧ (forallb local_ok tr = true → r = Done))).
Proof.
  split_and!.
  - apply QZip_calls.
  - intros arguments. apply QExec_calls.
  - unfold parse_exec. by destruct (is_restart cmd).
  - intros Hr. destruct cmd; try discriminate Hr. apply QExec_ignores_restart.
Qed.

Lemma commands_call_the_collaborator_witness :
  always (QExec.main (list_to_map (common (Delete "app1" (Some "v2")))))
    (λ tr r, remote_calls tr `prefix_of` ["DeleteAppVersion"] ∧
             (forallb local_ok tr = true →
              remote_calls tr = ["DeleteAppVersion"] ∧ r = Done)) ∧
  always (QExec.main (parse_zip (Restart "app1" None)))
    (λ tr r, remote_calls tr = [] ∧ (forallb local_ok tr = true → r = Done)).
Proof.
  destruct (commands_call_the_collaborator (Delete "app1" (Some "v2")))
    as (_ & Hexec & _).
  destruct (commands_call_the_collaborator (Restart "app1" None)) as (_ & _ & _ & Hrestart).
  split; [apply Hexec; reflexivity | apply Hrestart; reflexivity].
Defined.

(** C10: in both variants the credential string that [connect] persists is
    the [%v] form of the value of [-u], a colon, and the [%v] form of the
    value of [-p]; an option that the command line leaves out is nil and
    reads [<nil>], so that [connect] without either option persists
    [<nil>:<nil>]. *)
Theorem connect_credentials (service : string) (username password : option string) :
  let cmd := Connect service username password in
  let credentials :=
    Sprint (parse_zip cmd !! "-u") +:+ ":" +:+ Sprint (parse_zip cmd !! "-p") in
  credentials = default "<nil>" username +:+ ":" +:+ default "<nil>" password ∧
  always (QZip.main (parse_zip cmd))
    (λ tr _, (omap marshalled tr).*1 = [{| Service := service; Credentials := credentials |}] ∧
             writes_record cmd tr) ∧
  (∀ arguments, parse_exec cmd = Some arguments →
     always (QExec.main arguments)
       (λ tr _, (omap marshalled tr).*1
                = [{| Service := service; Credentials := credentials |}] ∧
                writes_record cmd tr)) ∧
  always (QZip.main (parse_zip (Connect service None None)))
    (λ tr _, Credentials <$> (omap marshalled tr).*1 = ["<nil>:<nil>"]).
Proof.
  intros cmd credentials.
  assert (credentials = default "<nil>" username +:+ ":" +:+ default "<nil>" password)
    as Hcred by (subst cmd credentials; by destruct username, password).
  assert (∀ tr, writes_record cmd tr →
                (omap marshalled tr).*1
                = [{| Service := service; Credentials := credentials |}] ∧
                writes_record cmd tr) as Hrecord.
  { intros tr Hw. split; [|done]. destruct Hw as (data & err & -> & _).
    by rewrite Hcred. }
  split_and!; [done|..].
  - eapply always_impl; [|apply QZip_connect]. intros tr r [? _]. by apply Hrecord.
  - intros arguments Hargs. eapply always_impl; [|by apply QExec_connect].
    intros tr r [? _]. by apply Hrecord.
  - eapply always_impl; [|apply (QZip_connect service None None)].
    by intros tr r [(data & err & -> & _) _].
Qed.

(** * More of the archive builder: runs on which calls fail *)

Module Build.
Import Regexp Filepath Archive.

(** The entries that the build of a tree yields when no call fails. *)
Definition expected (n : node) (path : string) : list (string * bytes) :=
  omap archived (visits n path).

(** What one step of the traversal does to the state.  [full] is what the
    step adds when nothing fails. *)
Record step (k : sink) (full : list (string * bytes)) (s s' : state) (r : result)
    : Prop := {
  step_entries :
    ∃ l, entries s' = entries s ++ l ∧ l.*1 `prefix_of` full.*1 ∧
         (r = Nil → l.*1 = full.*1);
  step_fatal : ∀ e, r = Fatal e → ∃ path, e = ErrZipCreate path ∧ create_fails k path = true;
  step_printed :
    printed s' = printed s ∨
    ∃ e, printed s' = printed s ++ [e] ∧ r = Err e ∧
         (e = ErrInvalid ∨ ∃ path, e = ErrStat path)
}.

(** What the callback adds: nothing, or the entry of the regular file at
    [path], cut where the copy fails. *)
Definition copied (io : faults) (data : bytes) : bytes :=
  match copy_err io with
  | None => data
  | Some n => take n data
  end.

(** [os.Open] does not return, fails, or opens the file that the path
    resolves to, which is no symbolic link and no pipe without writer. *)
Lemma os_Open_cases path n :
  os_Open path n = None ∨
  os_Open path n = Some (None, Some (ErrOpen path)) ∨
  os_Open path n = Some (Some (follow n), None) ∧
  open_err (node_io (follow n)) = false ∧
  match follow n with Fifo _ | Symlink _ _ => False | _ => True end.
Proof.
  induction n as [io data|io dir _|io|io|io target IH] using node_ind;
    cbn [os_Open follow node_io]; destruct (open_err io) eqn:Ho; auto.
Qed.

Lemma walkFn_cases k path n err s s' r :
  walkFn k path n err s = (s', r) →
  (entries s' = entries s ∧
   (r = of_error err ∧ printed s' = printed s ∧ archived (path, n) = None ∨
    (∃ e, r = Err e ∧ printed s' = printed s ++ [e] ∧
          (e = ErrInvalid ∨ e = ErrStat path)) ∨
    (r = Fatal (ErrZipCreate path) ∧ printed s' = printed s ∧
     create_fails k path = true) ∨
    (r = Blocked ∧ printed s' = printed s ∧ excluded path = false ∧
     os_Open path n = None))) ∨
  (∃ io data, follow n = Regular io data ∧ excluded path = false ∧
              entries s' = entries s ++ [(path, copied io data)] ∧
              printed s' = printed s ∧ r = of_error err).
Proof.
  unfold walkFn, archived, File_Stat. cbn [fst snd].
  destruct (excluded path) eqn:Hex; [intros [= <- <-]; left; auto 10|].
  destruct (os_Open_cases path n) as [->|[->|(-> & Ho & Hn)]];
    [intros [= <- <-]; left; auto 10
    |intros [= <- <-]; left; split; [done|]; right; left; eauto 10|].
  destruct (stat_err (node_io (follow n))); simpl;
    [intros [= <- <-]; left; split; [done|]; right; left; eauto 10|].
  destruct (follow n) as [io data|io dir|io|io|io target]; simpl;
    [|intros [= <- <-]; left; auto 10..].
  unfold zip_Create. destruct (create_fails k path) eqn:Hc;
    [intros [= <- <-]; left; split; [done|]; eauto 10|].
  intros Heq. right. exists io, data. unfold io_Copy, copied in *. simpl in *.
  destruct (copy_err io); simpl in *; injection Heq as <- <-; simpl;
    by rewrite write_last_snoc.
Qed.

Lemma archived_Regular path n io data :
  excluded path = false → follow n = Regular io data →
  archived (path, n) = Some (path, data).
Proof. unfold archived. simpl. by intros -> ->. Qed.

Lemma walkFn_step k path n err s s' r :
  walkFn k path n err s = (s', r) →
  step k (option_list (archived (path, n))) s s' r.
Proof.
  intros [[He H]|(io & data & Hn & Hex & He & Hp & ->)]%walkFn_cases.
  - split.
    + exists []. rewrite app_nil_r. split_and!; [done | apply prefix_nil |].
      intros ->. destruct H as [(_ & _ & ->)|[(e & ? & _)|[(? & _)|(? & _)]]]; done.
    + intros e ->.
      destruct H as [(Hr & _)|[(e' & ? & _)|[([= ->] & _ & ?)|(? & _)]]];
        [by destruct err | done | eauto | done].
    + destruct H as [(_ & ? & _)|[(e & ? & ? & He')|[(_ & ? & _)|(_ & ? & _)]]]; auto.
      right. exists e. split_and!; [done..|]. destruct He' as [->| ->]; eauto.
  - rewrite (archived_Regular _ _ io data) by done. split.
    + exists [(path, copied io data)]. by split_and!.
    + intros e. by destruct err.
    + auto.
Qed.

(** A call of the callback that is handed an error does not return nil. *)
Lemma walkFn_error k path n e s s' r :
  walkFn k path n (Some e) s = (s', r) → r ≠ Nil.
Proof.
  intros [[_ H]|(? & ? & _ & _ & _ & _ & ->)]%walkFn_cases; [|done].
  destruct H as [(-> & _)|[(? & -> & _)|[(-> & _)|(-> & _)]]]; done.
Qed.

Lemma omap_bind_list {A B C} (f : B → option C) (g : A → list B) (l : list A) :
  omap f (l ≫= g) = l ≫= λ x, omap f (g x).
Proof.
  induction l as [|x l IH]; [done|]. by rewrite !bind_cons, omap_app, IH.
Qed.

Lemma step_nil k s : step k [] s s Nil.
Proof.
  split; [|done|auto]. exists []. by rewrite app_nil_r.
Qed.

(** A step that ends well, followed by another. *)
Lemma step_then k full1 full2 s s1 s2 r :
  step k full1 s s1 Nil → step k full2 s1 s2 r → step k (full1 ++ full2) s s2 r.
Proof.
  intros [(l1 & He1 & _ & Hl1) _ Hp1] [(l2 & He2 & Hpre & Hl2) Hf2 Hp2]. split.
  - exists (l1 ++ l2). rewrite He2, He1, !fmap_app, (Hl1 eq_refl).
    split_and!; [by rewrite (assoc_L (++)) | by apply prefix_app |].
    intros Hr. by rewrite (Hl2 Hr).
  - done.
  - destruct Hp1 as [Hp1|(e & _ & ? & _)]; [|done]. by rewrite <- Hp1.
Qed.

(** A step that stops the traversal: what would have followed is missing. *)
Lemma step_stop k full1 full2 s s1 r :
  r ≠ Nil → step k full1 s s1 r → step k (full1 ++ full2) s s1 r.
Proof.
  intros Hr [(l1 & He1 & Hpre & _) Hf Hp]. split; [|done..].
  exists l1. split_and!; [done| |done]. rewrite fmap_app. by apply prefix_app_r.
Qed.

(** What the visit of a file that is no directory yields. *)
Lemma expected_file n path :
  (∀ io dir, n ≠ Directory io dir) →
  expected n path = option_list (archived (path, n)).
Proof.
  intros Hn. unfold expected.
  destruct n as [? ?|io' dir'|?|?|? ?]; cbn [visits];
    [|by destruct (Hn io' dir')|..]; apply omap_singleton.
Qed.

Lemma expected_head n path :
  ∃ rest, expected n path = option_list (archived (path, n)) ++ rest.
Proof. unfold expected. destruct n; cbn [visits]; rewrite omap_cons; eauto. Qed.

Lemma walk_names_step k path (dir : list (string * node)) s s' r :
  Forall (λ e, ∀ path s s' r, walk k e.2 path s = (s', r) →
                               step k (expected e.2 path) s s' r) dir →
  walk_names k path ((λ e, (e.1, (e.2, walk k e.2))) <$> dir) s = (s', r) →
  step k (dir ≫= λ e, expected e.2 (Join path e.1)) s s' r.
Proof.
  intros Hdir. revert s. induction Hdir as [|[name c] dir Hc _ IH]; intros s.
  - intros [= <- <-]. apply step_nil.
  - rewrite fmap_cons, bind_cons. cbn [walk_names fst snd].
    assert (∀ s1 r1,
              (if lstat_err (node_io c)
               then walkFn k (Join path name) c (Some (ErrLstat (Join path name))) s
               else walk k c (Join path name) s) = (s1, r1) →
              step k (expected c (Join path name)) s s1 r1) as Hhead.
    { intros s1 r1. destruct (lstat_err (node_io c)); [|apply Hc].
      intros Hfn. pose proof (walkFn_step _ _ _ _ _ _ _ Hfn) as Hstep.
      apply walkFn_error in Hfn.
      destruct (expected_head c (Join path name)) as [rest ->]. by apply step_stop. }
    destruct (if lstat_err (node_io c) then _ else _) as [s1 r1].
    specialize (Hhead s1 r1 eq_refl). destruct r1.
    + intros Htail. eapply step_then; [done | by apply IH].
    + intros [= <- <-]. by apply step_stop.
    + intros [= <- <-]. by apply step_stop.
    + intros [= <- <-]. by apply step_stop.
Qed.

Lemma walk_step k n :
  ∀ path s s' r, walk k n path s = (s', r) → step k (expected n path) s s' r.
Proof.
  induction n as [io data|io dir IH|io|io|io target _] using node_ind; intros path s s' r.
  1, 3, 4, 5: cbn [walk]; rewrite expected_file by done; apply walkFn_step.
  cbn [walk]. unfold expected. cbn [visits]. rewrite omap_cons.
  destruct (walkFn k path (Directory io dir) _ s) as [s1 err1] eqn:Hfn.
  apply walkFn_step in Hfn as Hstep.
  assert (readdir_err io = true → err1 ≠ Nil) as Hrd.
  { intros Hio. rewrite Hio in Hfn. by apply walkFn_error in Hfn. }
  destruct (readdir_err io).
  - intros [= <- <-]. apply step_stop; [by apply Hrd | done].
  - destruct err1.
    + rewrite (merge_sort_fmap by_name by_name (λ e, (e.1, (e.2, walk k e.2)))) by done.
      rewrite (merge_sort_fmap by_name by_name (λ e, (e.1, visits e.2))) by done.
      intros Hnames. eapply step_then; [done|].
      apply walk_names_step in Hnames; [|by rewrite merge_sort_Permutation].
      by rewrite list_fmap_bind, omap_bind_list.
    + intros [= <- <-]. by apply step_stop.
    + intros [= <- <-]. by apply step_stop.
    + intros [= <- <-]. by apply step_stop.
Qed.

Lemma Walk_step k root n s s' r :
  Walk k root n s = (s', r) → step k (expected n root) s s' r.
Proof.
  unfold Walk. destruct (lstat_err (node_io n)); [|apply walk_step].
  intros Hfn. pose proof (walkFn_step _ _ _ _ _ _ _ Hfn) as Hstep.
  apply walkFn_error in Hfn.
  destruct (expected_head n root) as [rest ->]. by apply step_stop.
Qed.

(** The state in which a build ends. *)
Definition final (o : outcome) : state :=
  match o with Returned _ s | Exited _ s | Hangs s => s end.

Lemma createAppArchive_step k fs appName zipFileName :
  ∃ r, step k (expected fs appName) (State [] [])
         (final (createAppArchive k fs appName zipFileName)) r ∧
       match createAppArchive k fs appName zipFileName with
       | Returned err _ => err = None ∧ zip_Close k zipFileName = None
       | Exited e _ => r = Fatal e ∨ zip_Close k zipFileName = Some e
       | Hangs _ => r = Blocked
       end.
Proof.
  unfold createAppArchive. destruct (Walk k appName fs (State [] [])) as [w r] eqn:HW.
  apply Walk_step in HW. exists r.
  destruct r; destruct (zip_Close k zipFileName); simpl; auto.
Qed.

(** *** Where the entries come from *)

(** An entry made from a file of [files] that opens as a regular file: its
    path passed the test, its bytes are those of the file, up to where the
    copy failed. *)
Definition made_from (files : list (string * node)) (e : string * bytes) : Prop :=
  ∃ n io data, (e.1, n) ∈ files ∧ follow n = Regular io data ∧
               excluded e.1 = false ∧ e.2 = copied io data.

(** A file of [files] that the pattern does not match and on which
    [os.Open] does not return. *)
Definition blocks_in (files : list (string * node)) : Prop :=
  ∃ path n, (path, n) ∈ files ∧ excluded path = false ∧ os_Open path n = None.

(** What holds of a state and of the result that comes with it. *)
Definition from (files : list (string * node)) (x : state * result) : Prop :=
  Forall (made_from files) (entries x.1) ∧ (x.2 = Blocked → blocks_in files).

Lemma walkFn_from files k path n err s :
  (path, n) ∈ files → Forall (made_from files) (entries s) →
  from files (walkFn k path n err s).
Proof.
  intros Hin Hs. destruct (walkFn k path n err s) as [s' r] eqn:Hfn.
  unfold from. cbn [fst snd].
  apply walkFn_cases in Hfn as [[He H]|(io & data & Hn & Hex & He & _ & ->)];
    rewrite He.
  - split; [done|]. intros ->.
    destruct H as [(Hr & _)|[(? & ? & _)|[(? & _)|(_ & _ & ? & ?)]]];
      [by destruct err | done | done |]. by exists path, n.
  - split; [|by destruct err].
    apply Forall_app. split; [done|]. constructor; [|done]. by exists n, io, data.
Qed.

Lemma walk_names_from files k path (dir : list (string * node)) s :
  Forall (λ e, ∀ path s, (∀ x, x ∈ listing e.2 path → x ∈ files) →
                         Forall (made_from files) (entries s) →
                         from files (walk k e.2 path s)) dir →
  (∀ e x, e ∈ dir → x ∈ listing e.2 (Join path e.1) → x ∈ files) →
  Forall (made_from files) (entries s) →
  from files (walk_names k path ((λ e, (e.1, (e.2, walk k e.2))) <$> dir) s).
Proof.
  intros Hdir. revert s. induction Hdir as [|[name c] dir Hc _ IH]; intros s Hsub Hs;
    [by split|].
  rewrite fmap_cons. cbn [walk_names fst snd].
  assert (∀ x, x ∈ listing c (Join path name) → x ∈ files) as Hc_sub.
  { intros x. apply (Hsub (name, c)). by left. }
  assert (from files
            (if lstat_err (node_io c)
             then walkFn k (Join path name) c (Some (ErrLstat (Join path name))) s
             else walk k c (Join path name) s)) as Hhead.
  { destruct (lstat_err (node_io c)); [|by apply Hc].
    apply walkFn_from; [|done]. apply Hc_sub. destruct c; by left. }
  destruct (if lstat_err (node_io c) then _ else _) as [s1 []]; [|done..].
  apply IH; [|by destruct Hhead]. intros e x He. apply Hsub. by right.
Qed.

Lemma walk_from files k n :
  ∀ path s, (∀ x, x ∈ listing n path → x ∈ files) →
            Forall (made_from files) (entries s) →
            from files (walk k n path s).
Proof.
  induction n as [io data|io dir IH|io|io|io target _] using node_ind;
    intros path s Hsub Hs.
  1, 3, 4, 5: apply walkFn_from; [|done]; apply Hsub; by left.
  cbn [walk].
  pose proof (walkFn_from files k path (Directory io dir)
                (if readdir_err io then Some (ErrReadDir path) else None) s) as Hfn.
  destruct (walkFn k path (Directory io dir) _ s) as [s1 err1].
  specialize (Hfn (Hsub _ ltac:(by left)) Hs).
  destruct (readdir_err io), err1; try done.
  rewrite (merge_sort_fmap by_name by_name (λ e, (e.1, (e.2, walk k e.2)))) by done.
  apply walk_names_from; [by rewrite merge_sort_Permutation| |by destruct Hfn].
  intros e x He Hx. rewrite merge_sort_Permutation in He.
  apply Hsub. cbn [listing]. right. apply list_elem_of_bind. eauto.
Qed.

Lemma Walk_from k fs appName :
  from (listing fs appName) (Walk k appName fs (State [] [])).
Proof.
  unfold Walk. destruct (lstat_err (node_io fs)).
  - apply walkFn_from; [|done]. destruct fs; by left.
  - by apply walk_from.
Qed.

Lemma createAppArchive_made_from k fs appName zipFileName :
  Forall (made_from (listing fs appName))
    (archive_of (createAppArchive k fs appName zipFileName)).
Proof.
  destruct (Walk_from k fs appName) as [HW _].
  unfold createAppArchive. destruct (Walk k appName fs _) as [w []];
    destruct (zip_Close k zipFileName); done.
Qed.

Lemma createAppArchive_entry k fs appName zipFileName path content :
  (path, content) ∈ archive_of (createAppArchive k fs appName zipFileName) →
  ∃ n io data,
    (path, n) ∈ listing fs appName ∧ follow n = Regular io data ∧
    excluded path = false ∧ content = copied io data.
Proof.
  intros Hin.
  apply (proj1 (Forall_forall _ _)
           (createAppArchive_made_from k fs appName zipFileName) _ Hin).
Qed.

(** A build that does not end has met a file on which [os.Open] does not
    return. *)
Lemma createAppArchive_hangs k fs appName zipFileName s :
  createAppArchive k fs appName zipFileName = Hangs s →
  blocks_in (listing fs appName).
Proof.
  destruct (Walk_from k fs appName) as [_ HW].
  unfold createAppArchive. destruct (Walk k appName fs _) as [w []];
    destruct (zip_Close k zipFileName); try done; auto.
Qed.

Lemma copied_prefix io data : copied io data `prefix_of` data.
Proof. unfold copied. destruct (copy_err io); [apply prefix_take | done]. Qed.

(** *** Trees on which every [os.Open] returns *)

(** [os.Open] on the file does not return. *)
Fixpoint waits (n : node) : bool :=
  negb (open_err (node_io n)) &&
  match n with
  | Fifo _ => true
  | Symlink _ target => waits target
  | _ => false
  end.

Lemma os_Open_None path n : os_Open path n = None ↔ waits n = true.
Proof.
  induction n as [io data|io dir _|io|io|io target IH] using node_ind;
    cbn [os_Open waits node_io]; destruct (open_err io); simpl; done.
Qed.

(** No file of the tree makes [os.Open] wait. *)
Fixpoint never_waits (n : node) : bool :=
  negb (waits n) &&
  match n with
  | Directory _ dir => forallb (λ e, never_waits e.2) dir
  | _ => true
  end.

Lemma never_waits_listing n path p m :
  never_waits n = true → (p, m) ∈ listing n path → waits m = false.
Proof.
  revert path. induction n as [io data|io dir IH|io|io|io target _] using node_ind;
    intros path [Hn Hdir]%andb_true_iff; apply negb_true_iff in Hn.
  1, 3, 4, 5: by intros [= _ ->]%list_elem_of_singleton.
  cbn [listing]. intros [[= _ ->]|Hin]%elem_of_cons; [done|].
  apply list_elem_of_bind in Hin as (e & Hin & He).
  apply Is_true_true, forallb_True in Hdir.
  apply (proj1 (Forall_forall _ _) IH e He (Join path e.1)); [|done].
  apply Is_true_true. by apply (proj1 (Forall_forall _ _) Hdir e).
Qed.

Lemma never_waits_blocks n path : never_waits n = true → ¬ blocks_in (listing n path).
Proof.
  intros Hn (p & m & Hin & _ & Hopen%os_Open_None).
  by rewrite (never_waits_listing _ _ _ _ Hn Hin) in Hopen.
Qed.

Lemma createAppArchive_unfailing k fs appName zipFileName :
  unfailing k → never_waits fs = true →
  ∃ s, createAppArchive k fs appName zipFileName = Returned None s.
Proof.
  intros (Hc & Ho & Hcl) Hfs.
  destruct (createAppArchive_step k fs appName zipFileName) as (r & Hstep & Hout).
  pose proof (createAppArchive_hangs k fs appName zipFileName) as Hhangs.
  destruct (createAppArchive k fs appName zipFileName) as [err s|e s|s].
  - destruct Hout as [-> _]. eauto.
  - destruct Hout as [->|Hz].
    + destruct (step_fatal _ _ _ _ _ Hstep e eq_refl) as (path & _ & Hp).
      by rewrite Hc in Hp.
    + unfold zip_Close in Hz. by rewrite Ho, Hcl in Hz.
  - by destruct (never_waits_blocks fs appName Hfs (Hhangs s eq_refl)).
Qed.

(** *** Trees on which only the copy may fail *)

Definition readable (io : faults) : bool :=
  negb (lstat_err io) && negb (readdir_err io) && negb (open_err io) &&
  negb (stat_err io).

(** The file can be found, opened and inspected: on a symbolic link, what
    it resolves to as well. *)
Fixpoint opens_readable (n : node) : bool :=
  match n with
  | Fifo _ => false
  | Symlink io target => readable io && opens_readable target
  | _ => readable (node_io n)
  end.

Fixpoint all_readable (n : node) : bool :=
  match n with
  | Directory io dir => readable io && forallb (λ e, all_readable e.2) dir
  | _ => opens_readable n
  end.

Lemma readable_inv io :
  readable io = true →
  lstat_err io = false ∧ readdir_err io = false ∧ open_err io = false ∧
  stat_err io = false.
Proof. unfold readable. destruct io as [[] [] [] [] ?]; naive_solver. Qed.

Lemma all_readable_io n : all_readable n = true → readable (node_io n) = true.
Proof. destruct n; simpl; try done; by intros [? _]%andb_true_iff. Qed.

Lemma walkFn_readable k path n s :
  (∀ p, create_fails k p = false) → opens_readable n = true →
  (walkFn k path n None s).2 = Nil.
Proof.
  intros Hk.
  induction n as [io data|io dir _|io|io|io target IH] using node_ind;
    cbn [opens_readable node_io]; [| | |done|].
  1-3: intros (_ & _ & Ho & Hs)%readable_inv;
    unfold walkFn, File_Stat; cbn [os_Open node_io];
    (destruct (excluded path); [done|]); rewrite Ho; cbn [node_io]; rewrite Hs;
    simpl; try done.
  - unfold zip_Create, io_Copy. rewrite Hk. simpl. by destruct (copy_err io).
  - intros [(_ & _ & Ho & _)%readable_inv Ht]%andb_true_iff.
    rewrite walkFn_Symlink by done. by apply IH.
Qed.

Lemma all_readable_opens n :
  all_readable n = true → opens_readable n = true.
Proof. destruct n; simpl; try done. by intros [? _]%andb_true_iff. Qed.

Lemma walk_names_readable k path (dir : list (string * node)) s :
  (∀ p, create_fails k p = false) →
  Forall (λ e, all_readable e.2 = true ∧ ∀ path s, (walk k e.2 path s).2 = Nil) dir →
  (walk_names k path ((λ e, (e.1, (e.2, walk k e.2))) <$> dir) s).2 = Nil.
Proof.
  intros Hk Hdir. revert s.
  induction Hdir as [|[name c] dir [Hio Hc] _ IH]; intros s; [done|].
  rewrite fmap_cons. cbn [walk_names fst snd].
  cbn [snd] in Hio, Hc. apply all_readable_io, readable_inv in Hio as (-> & _).
  specialize (Hc (Join path name) s).
  destruct (walk k c (Join path name) s) as [s1 r1]. simpl in Hc. subst r1. apply IH.
Qed.

Lemma walk_readable k n :
  (∀ p, create_fails k p = false) → all_readable n = true →
  ∀ path s, (walk k n path s).2 = Nil.
Proof.
  intros Hk. induction n as [io data|io dir IH|io|io|io target _] using node_ind;
    intros Hn path s.
  1, 3, 4, 5: by apply walkFn_readable.
  cbn [walk]. pose proof (all_readable_io _ Hn) as Hio. simpl in Hio.
  pose proof (walkFn_readable k path (Directory io dir) s Hk Hio) as Hfn.
  apply readable_inv in Hio as (_ & -> & _).
  destruct (walkFn k path (Directory io dir) None s) as [s1 r1]. simpl in Hfn. subst r1.
  rewrite (merge_sort_fmap by_name by_name (λ e, (e.1, (e.2, walk k e.2)))) by done.
  apply walk_names_readable; [done|]. rewrite merge_sort_Permutation.
  simpl in Hn. apply andb_true_iff in Hn as [_ Hdir].
  apply Is_true_true, forallb_True in Hdir.
  eapply Forall_impl; [apply Forall_and; split; [exact Hdir | exact IH]|].
  intros e [He IHe]. apply Is_true_true in He. auto.
Qed.

Lemma Walk_readable k root n s :
  (∀ p, create_fails k p = false) → all_readable n = true →
  (Walk k root n s).2 = Nil.
Proof.
  intros Hk Hn. unfold Walk.
  pose proof (all_readable_io _ Hn) as (-> & _)%readable_inv.
  by apply walk_readable.
Qed.

End Build.

(** * Further properties of the archive builder *)

Import Build.

(** A tree on which calls fail: the copy of [notes.txt] stops after three
    bytes, the names of [private] cannot be read, [secret.key] cannot be
    opened. *)
Definition damaged_tree : node :=
  Directory no_faults
    [("notes.txt", Regular (Faults false false false false (Some 3))
                     (String.list_byte_of_string "remember"));
     ("private", Directory (Faults false true false false None)
                   [("diary", Regular no_faults (String.list_byte_of_string "dear"))]);
     ("secret.key", Regular (Faults false false true false None)
                      (String.list_byte_of_string "k"))].

Example createAppArchive_damaged_tree :
  createAppArchive sound_sink damaged_tree "app" "app.zip"
  = Returned None (State [("app/notes.txt", String.list_byte_of_string "rem")] []).
Proof. vm_compute. reflexivity. Qed.

(** X1: when the writes to the archive succeed and no file of the tree
    makes [os.Open] wait (no named pipe without a writer, no link to one),
    [createAppArchive] returns, and returns nil, whatever calls fail on the
    tree that it reads. *)
Theorem createAppArchive_returns (k : sink) (fs : node) (appName zipFileName : string) :
  unfailing k → never_waits fs = true →
  ∃ s, createAppArchive k fs appName zipFileName = Returned None s.
Proof. apply createAppArchive_unfailing. Qed.

Lemma createAppArchive_returns_witness :
  ∃ s, createAppArchive sound_sink damaged_tree "app" "app.zip" = Returned None s.
Proof.
  apply (createAppArchive_returns sound_sink damaged_tree "app" "app.zip").
  - exact sound_sink_unfailing.
  - vm_compute. reflexivity.
Defined.

(** X2: the process is ended only by a failure of [w.Create] on some path
    or of [w.Close]; a run does not end only when [os.Open] waits on a file
    of the tree that the pattern does not match; on every other run the
    function returns nil and [w.Close] has succeeded. *)
Theorem createAppArchive_exits_on_writes (k : sink) (fs : node)
    (appName zipFileName : string) :
  match createAppArchive k fs appName zipFileName with
  | Returned err _ => err = None ∧ zip_Close k zipFileName = None
  | Exited e _ =>
      (∃ path, e = ErrZipCreate path ∧ create_fails k path = true) ∨
      zip_Close k zipFileName = Some e
  | Hangs _ =>
      ∃ path n, (path, n) ∈ listing fs appName ∧ excluded path = false ∧
                waits n = true
  end.
Proof.
  destruct (createAppArchive_step k fs appName zipFileName) as (r & Hstep & Hout).
  pose proof (createAppArchive_hangs k fs appName zipFileName) as Hhangs.
  destruct (createAppArchive k fs appName zipFileName) as [err s|e s|s]; [done| |].
  - destruct Hout as [->|Hz]; [left|by right].
    apply (step_fatal _ _ _ _ _ Hstep e eq_refl).
  - destruct (Hhangs s eq_refl) as (path & n & ? & ? & ?%os_Open_None). eauto.
Qed.

(** X3: whatever fails, the names of the entries are an initial part of
    the names that a build without failures gives, in the same order: a
    failure cuts the archive short, it never adds, skips or reorders. *)
Theorem createAppArchive_names_prefix (k : sink) (fs : node)
    (appName zipFileName : string) :
  (archive_of (createAppArchive k fs appName zipFileName)).*1
  `prefix_of` (omap archived (visits fs appName)).*1.
Proof.
  destruct (createAppArchive_step k fs appName zipFileName) as (r & Hstep & _).
  destruct (step_entries _ _ _ _ _ Hstep) as (l & He & Hpre & _).
  replace (archive_of (createAppArchive k fs appName zipFileName))
    with (entries (final (createAppArchive k fs appName zipFileName)))
    by by destruct (createAppArchive k fs appName zipFileName).
  by rewrite He.
Qed.

(** X4: every entry comes from a file of the tree at the path of the
    entry, a path that the pattern does not match, and a file that [os.Open]
    finds to be regular: a regular file, or a symbolic link that resolves to
    one.  The entry holds the bytes of that file, all of them unless the
    copy of that file fails, and then the bytes copied before the failure.
    On a tree without symbolic links every entry comes from a regular file
    of the tree. *)
Theorem createAppArchive_entry_source (k : sink) (fs : node)
    (appName zipFileName path : string) (content : bytes) :
  (path, content) ∈ archive_of (createAppArchive k fs appName zipFileName) →
  (∃ n io data,
     (path, n) ∈ listing fs appName ∧ follow n = Regular io data ∧
     excluded path = false ∧
     content = match copy_err io with None => data | Some n => take n data end) ∧
  (no_links fs = true →
   ∃ io data,
     (path, Regular io data) ∈ listing fs appName ∧ excluded path = false ∧
     content = match copy_err io with None => data | Some n => take n data end).
Proof.
  intros (n & io & data & Hin & Hn & Hex & ->)%createAppArchive_entry.
  split; [by exists n, io, data|].
  intros Hlinks. exists io, data.
  rewrite (listing_no_links _ _ _ _ Hlinks Hin) in Hn. by subst.
Qed.

(** The link [app/current] resolves to a file whose copy stops after three
    bytes. *)
Definition linked_damaged_tree : node :=
  Directory no_faults
    [("current", Symlink no_faults
                   (Regular (Faults false false false false (Some 3))
                      (String.list_byte_of_string "remember")))].

Lemma createAppArchive_entry_source_witness :
  (∃ n io data,
     ("app/current", n) ∈ listing linked_damaged_tree "app" ∧
     follow n = Regular io data ∧ excluded "app/current" = false ∧
     String.list_byte_of_string "rem"
     = match copy_err io with None => data | Some n => take n data end) ∧
  (no_links linked_damaged_tree = true →
   ∃ io data,
     ("app/current", Regular io data) ∈ listing linked_damaged_tree "app" ∧
     excluded "app/current" = false ∧
     String.list_byte_of_string "rem"
     = match copy_err io with None => data | Some n => take n data end).
Proof.
  apply (createAppArchive_entry_source sound_sink linked_damaged_tree "app" "app.zip").
  vm_compute. apply list_elem_of_here.
Defined.

(** X5: a build writes at most one line with [fmt.Println], and only the
    error of [fi.Stat]:
    [os.ErrInvalid] when the file could not be opened, the error of the
    call otherwise.  The errors that the traversal hands to the callback
    and the one of [os.Open] are never printed. *)
Theorem createAppArchive_prints (k : sink) (fs : node) (appName zipFileName : string) :
  printed (final (createAppArchive k fs appName zipFileName)) = [] ∨
  ∃ e, printed (final (createAppArchive k fs appName zipFileName)) = [e] ∧
       (e = ErrInvalid ∨ ∃ path, e = ErrStat path).
Proof.
  destruct (createAppArchive_step k fs appName zipFileName) as (r & Hstep & _).
  destruct (step_printed _ _ _ _ _ Hstep) as [Hp|(e & Hp & _ & He)]; simpl.
  - by left.
  - right. by exists e.
Qed.

(** X6: no part of the name of an entry matches the pattern: the match is
    not anchored, so a path that contains an excluded path is excluded. *)
Theorem createAppArchive_no_excluded_part (k : sink) (fs : node)
    (appName zipFileName path : string) (content : bytes) (pre part post : string) :
  (path, content) ∈ archive_of (createAppArchive k fs appName zipFileName) →
  path = pre +:+ part +:+ post → excluded part = false.
Proof.
  intros Hin%createAppArchive_kept ->.
  destruct (excluded part) eqn:Hpart; [|done].
  apply excluded_iff in Hpart as (p1 & mid & p2 & -> & Hhit).
  enough (excluded (pre +:+ (p1 +:+ mid +:+ p2) +:+ post) = true) by congruence.
  apply excluded_iff.
  exists (pre +:+ p1), mid, (p2 +:+ post). by rewrite !Str.app_assoc.
Qed.

Lemma createAppArchive_no_excluded_part_witness : excluded "notes" = false.
Proof.
  apply (createAppArchive_no_excluded_part sound_sink damaged_tree "app" "app.zip"
           "app/notes.txt" (String.list_byte_of_string "rem") "app/" "notes" ".txt").
  - rewrite createAppArchive_damaged_tree. apply list_elem_of_here.
  - reflexivity.
Defined.

(** X7: when the path handed to [createAppArchive] itself matches the
    pattern, the archive has no entry at all. *)
Theorem createAppArchive_excluded_root (k : sink) (fs : node)
    (dir name zipFileName : string) :
  valid_name name = true → well_formed fs = true →
  excluded (Join dir name) = true →
  archive_of (createAppArchive k fs (Join dir name) zipFileName) = [].
Proof.
  intros Hname Hwf Hroot.
  destruct (archive_of _) as [|[path content] arch] eqn:Harch; [done|]. exfalso.
  assert ((path, content) ∈ archive_of (createAppArchive k fs (Join dir name) zipFileName))
    as Hin by (rewrite Harch; left).
  apply createAppArchive_entry in Hin as (n & io & data & Hin & _ & Hex & _).
  destruct (well_formed_apart fs Hwf (Join dir name) (Join_settled dir name Hname))
    as [_ Hbelow].
  destruct (Hbelow path) as (_ & t & -> & _).
  { apply list_elem_of_fmap. by exists (path, n). }
  apply excluded_iff in Hroot as (p1 & mid & p2 & Hroot & Hhit).
  enough (excluded (Join dir name +:+ t) = true) by congruence.
  apply excluded_iff.
  exists p1, mid, (p2 +:+ t). by rewrite Hroot, !Str.app_assoc.
Qed.

Lemma createAppArchive_excluded_root_witness :
  archive_of (createAppArchive sound_sink damaged_tree (Join "mango" "bin") "app.zip") = [].
Proof.
  apply (createAppArchive_excluded_root sound_sink damaged_tree "mango" "bin" "app.zip");
    vm_compute; reflexivity.
Defined.

Example dir_base_examples :
  dir_base <$> ["app"; "app/"; "./app"; "work/../app"; "/srv/app"; "."; ""; "/"]
  = ["app/"; "app/"; "app/"; "app/"; "/srv/app/"; ""; ""; "/"].
Proof. vm_compute. reflexivity. Qed.



(** X9: when only copies fail (every file can be found, opened without
    waiting and inspected, and the writes to the archive succeed), the build
    returns nil
    with nothing printed and with an entry for every file that a
    build without failures archives, in the same order: a failed copy cuts
    an entry short and is not reported. *)
Theorem createAppArchive_copy_failures (k : sink) (fs : node)
    (appName zipFileName : string) :
  unfailing k → all_readable fs = true →
  ∃ arch,
    createAppArchive k fs appName zipFileName = Returned None (State arch []) ∧
    arch.*1 = (omap archived (visits fs appName)).*1.
Proof.
  intros (Hc & Ho & Hcl) Hfs.
  pose proof (Walk_readable k appName fs (State [] []) Hc Hfs) as Hnil.
  unfold createAppArchive, zip_Close. rewrite Ho, Hcl.
  destruct (Walk k appName fs (State [] [])) as [[arch out] r] eqn:HW.
  simpl in Hnil. subst r. apply Walk_step in HW as [(l & He & _ & Hl) _ Hp].
  simpl in He, Hp. subst l. exists arch. split; [|by apply Hl].
  destruct Hp as [->|(e & _ & ? & _)]; done.
Qed.

Definition torn_pages : node :=
  Directory no_faults
    [("a.txt", Regular (Faults false false false false (Some 2))
                 (String.list_byte_of_string "alpha"));
     ("b.txt", Regular no_faults (String.list_byte_of_string "beta"))].

Lemma createAppArchive_copy_failures_witness :
  ∃ arch,
    createAppArchive sound_sink torn_pages "app" "app.zip"
    = Returned None (State arch []) ∧
    arch.*1 = (omap archived (visits torn_pages "app")).*1.
Proof.
  apply (createAppArchive_copy_failures sound_sink torn_pages "app" "app.zip").
  - exact sound_sink_unfailing.
  - vm_compute. reflexivity.
Defined.
(** * Further properties of the dispatcher *)

(** ** What a trace shows of the calls to the collaborator *)

(** The application and the version that a request names. *)
Definition target {T} (r : request T) : option string * option string :=
  match r with
  | GetApps _ | CreateApp _ _ => (None, None)
  | GetApp _ appid | CreateAppVersion _ appid _
  | StartApp _ appid | StopApp _ appid | DeleteApp _ appid => (Some appid, None)
  | StartAppVersion _ appid versionid | StopAppVersion _ appid versionid
  | DeleteAppVersion _ appid versionid => (Some appid, Some versionid)
  end.

(** The connection record on which a call is made, and its target. *)
Definition called_on (ev : event) : option (Connection * (option string * option string)) :=
  match ev with
  | Event (Remote c r) _ => Some (c, target r)
  | _ => None
  end.

(** The record that [json.Unmarshal] leaves, whatever error it returns. *)
Definition decoded (ev : event) : option Connection :=
  match ev with
  | @Event X e x =>
      match e in eff X return X → option Connection with
      | Unmarshal _ _ => λ x, Some x.1
      | _ => λ _, None
      end x
  end.

(** The value of the result variable when a call is made, for the methods
    that take one. *)
Definition result_in {T} (r : request T) : option Result :=
  match r with
  | GetApps _ | GetApp _ _ => None
  | CreateApp result _ | CreateAppVersion result _ _
  | StartApp result _ | StartAppVersion result _ _
  | StopApp result _ | StopAppVersion result _ _
  | DeleteApp result _ | DeleteAppVersion result _ _ => Some result
  end.

Definition handed (ev : event) : option Result :=
  match ev with
  | Event (Remote _ r) _ => result_in r
  | _ => None
  end.

(** The value of the result variable when such a call returns. *)
Definition result_out {T} (r : request T) : T * option error → option Result :=
  match r in request T return T * option error → option Result with
  | GetApps _ | GetApp _ _ => λ _, None
  | CreateApp _ _ | CreateAppVersion _ _ _
  | StartApp _ _ | StartAppVersion _ _ _
  | StopApp _ _ | StopAppVersion _ _ _
  | DeleteApp _ _ | DeleteAppVersion _ _ _ => λ x, Some x.1
  end.

Definition answered (ev : event) : option Result :=
  match ev with
  | @Event X e x =>
      match e in eff X return X → option Result with
      | Remote _ r => result_out r
      | _ => λ _, None
      end x
  end.

(** The results printed. *)
Definition shown (ev : event) : option Result :=
  match ev with
  | Event (Printf _ [OfResult result]) _ => Some result
  | _ => None
  end.



(** What a run does to files, and the programs it runs. *)
Inductive file_op :=
| Reads (filename : string)
| Writes (filename : string)
| Removes (name : string)
| Archives (appName zipFileName : string)
| Runs (name : string) (args : list string).

Definition file_ops (ev : event) : option file_op :=
  match ev with
  | Event (ReadFile filename) _ => Some (Reads filename)
  | Event (WriteFile filename _ _) _ => Some (Writes filename)
  | Event (Remove name) _ => Some (Removes name)
  | Event (CreateAppArchive appName zipFileName) _ => Some (Archives appName zipFileName)
  | Event (ExecOutput name args) _ => Some (Runs name args)
  | _ => None
  end.

(** The files read with success, with what was read. *)
Definition read (ev : event) : option (string * bytes) :=
  match ev with
  | Event (ReadFile filename) (inl data) => Some (filename, data)
  | _ => None
  end.

(** The descriptor that [GetApp] leaves, whatever error it returns. *)
Definition got_app (ev : event) : option App :=
  match ev with
  | @Event X e x =>
      match e in eff X return X → option App with
      | Remote _ r =>
          match r in request T return T * option error → option App with
          | GetApp _ _ => λ x, Some x.1
          | _ => λ _, None
          end
      | _ => λ _, None
      end x
  end.

(** The archives uploaded, the descriptors created. *)
Definition uploaded (ev : event) : option (string * bytes) :=
  match ev with
  | Event (Remote _ (CreateAppVersion _ appid data)) _ => Some (appid, data)
  | _ => None
  end.

Definition created (ev : event) : option App :=
  match ev with
  | Event (Remote _ (CreateApp _ appinfo)) _ => Some appinfo
  | _ => None
  end.

(** The descriptor that [yaml.Unmarshal] leaves, whatever error it
    returns. *)
Definition yaml_decoded (ev : event) : option (bytes * App) :=
  match ev with
  | @Event X e x =>
      match e in eff X return X → option (bytes * App) with
      | YamlUnmarshal data _ => λ x, Some (data, x.1)
      | _ => λ _, None
      end x
  end.

Definition rendered (ev : event) : option table :=
  match ev with
  | Event (Render t) _ => Some t
  | _ => None
  end.

Ltac invert_elem :=
  repeat match goal with
         | H : _ ∈ [] |- _ => by apply elem_of_nil in H
         | H : _ ∈ _ :: _ |- _ => apply elem_of_cons in H as [H|H]
         end.

(** ** Calls to the collaborator *)

(** X10: every call to the collaborator names the application and the
    version of the command line and no other, and is made on the record that
    [json.Unmarshal] left, whatever error the decoding returned. *)
Theorem calls_name_the_command_line (cmd : command) :
  always (QZip.main (parse_zip cmd))
    (λ tr _, ∀ c t, (c, t) ∈ omap called_on tr →
                    t = (appid_of cmd, versionid_of cmd) ∧ omap decoded tr = [c]) ∧
  ∀ arguments, parse_exec cmd = Some arguments →
    always (QExec.main arguments)
      (λ tr _, ∀ c t, (c, t) ∈ omap called_on tr →
                      t = (appid_of cmd, versionid_of cmd) ∧ omap decoded tr = [c]).
Proof.
  split; [|intros arguments [Hr ->]%parse_exec_Some];
    destruct cmd as [service u p| | | | |appid [v|]|appid [v|]|appid [v|]|appid [v|]];
    try discriminate Hr; try clear Hr;
    unfold_main; run_through; cbn; invert_elem; by simplify_eq.
Qed.

(** X11: the result that a call leaves is printed, whether or not the call
    failed, and no other result is printed: on every run the results printed
    are the results answered, in order. *)
Theorem results_are_printed (cmd : command) :
  always (QZip.main (parse_zip cmd)) (λ tr _, omap shown tr = omap answered tr) ∧
  ∀ arguments, parse_exec cmd = Some arguments →
    always (QExec.main arguments) (λ tr _, omap shown tr = omap answered tr).
Proof.
  split; [|intros arguments [Hr ->]%parse_exec_Some];
    destruct cmd as [service u p| | | | |appid [v|]|appid [v|]|appid [v|]|appid [v|]];
    try discriminate Hr; try clear Hr;
    unfold_main; run_through; reflexivity.
Qed.

(** X12: a call starts from a nil result, but for the start call of
    [restart]: it is handed the variable that the stop call has filled,
    whether or not the stop call failed. *)
Theorem result_variable_is_reused (cmd : command) :
  always (QZip.main (parse_zip cmd))
    (λ tr _, omap handed tr `prefix_of` None :: omap answered tr) ∧
  always (QZip.main (parse_zip cmd))
    (λ tr _, is_restart cmd = false → Forall (λ result, result = None) (omap handed tr)).
Proof.
  split;
    destruct cmd as [service u p| | | | |appid [v|]|appid [v|]|appid [v|]|appid [v|]];
    unfold_main; run_through; cbn;
    first [by eexists | by repeat constructor | done].
Qed.

(** ** How a run ends *)






(** ** [upload] *)

(** X14: what [upload] sends is what it has read from the file named after
    the application as [GetApp] left it, whatever error [GetApp] returned.
    The first variant removes that file, then archives the directory named
    by the identifier of the command line; the second runs [zip -r] on the
    directory named after the application. *)
Theorem upload_pipeline (appid : string) :
  always (QZip.main (parse_zip (Upload appid)))
    (λ tr _, ∀ id data, (id, data) ∈ omap uploaded tr →
       id = appid ∧
       ∃ home app,
         omap got_app tr = [app] ∧
         omap file_ops tr
         = [Reads (home +:+ "/.agent.json"); Removes (Name app +:+ ".zip");
            Archives appid (Name app +:+ ".zip"); Reads (Name app +:+ ".zip")] ∧
         (Name app +:+ ".zip", data) ∈ omap read tr) ∧
  always (QExec.main (list_to_map (common (Upload appid))))
    (λ tr _, ∀ id data, (id, data) ∈ omap uploaded tr →
       id = appid ∧
       ∃ home app,
         omap got_app tr = [app] ∧
         omap file_ops tr
         = [Reads (home +:+ "/.agent.json");
            Runs "zip" ["-r"; Name app +:+ ".zip"; Name app];
            Reads (Name app +:+ ".zip")] ∧
         (Name app +:+ ".zip", data) ∈ omap read tr).
Proof.
  split; unfold_main; run_through; cbn; invert_elem; simplify_eq;
    (split; [reflexivity|]); eexists _, _;
    (split_and!; [reflexivity | reflexivity | elem_of_trace]).
Qed.

(** A run of the program in a world with a file system: the answer of
    [createAppArchive] is the one of the archive builder on the tree that
    [fs] has at the path, with the writes answered by [k]. *)
Definition builds (k : sink) (fs : string → node) (w : Cli.world) : Prop :=
  ∀ appName zipFileName,
    w _ (CreateAppArchive appName zipFileName)
    = createAppArchive k (fs appName) appName zipFileName.

(** No call on the local machine fails, the build of the archive left
    aside. *)
Definition calm (ev : event) : bool :=
  match ev with
  | Event (CreateAppArchive _ _) _ => true
  | _ => local_ok ev
  end.

Definition built (ev : event) : option (string * string * Archive.outcome) :=
  match ev with
  | @Event X e x =>
      match e in eff X return X → option (string * string * Archive.outcome) with
      | CreateAppArchive appName zipFileName => λ x, Some (appName, zipFileName, x)
      | _ => λ _, None
      end x
  end.

Definition answered_by (w : Cli.world) (ev : event) : Prop :=
  match ev with
  | Event e x => x = w _ e
  end.

Lemma run_answered_by {R} (p : io R) (w : Cli.world) :
  Forall (answered_by w) (run p w).1.
Proof.
  induction p as [r|X e k IH]; simpl; [constructor|].
  specialize (IH (w X e)). destruct (run (k (w X e)) w) as [tr r].
  by constructor.
Qed.

Lemma QZip_upload_builds (appid : string) :
  always (QZip.main (parse_zip (Upload appid)))
    (λ tr r, forallb local_ok tr = true →
             r = Done ∧ remote_calls tr = ["GetApp"; "CreateAppVersion"] ∧
             ∃ zipFileName out, omap built tr = [(appid, zipFileName, out)]).
Proof.
  unfold_main; run_through;
    first [done | split_and!; [reflexivity | reflexivity | by eexists _, _]].
Qed.

(** The run of [q upload appid] in the world [w]. *)
Definition upload_run (w : Cli.world) (appid : string) : list event * exit :=
  run (QZip.main (parse_zip (Upload appid))) w.

(** X15: in a world where the writes to the archive succeed, no file makes
    [os.Open] wait and no other call on the local machine fails, [upload]
    builds the archive of the directory named by the identifier and goes on
    to [CreateAppVersion], whatever fails on the tree that the build reads:
    the archive may miss files or hold cut ones, and it is uploaded all the
    same. *)
Theorem upload_after_any_build (k : sink) (fs : string → node) (w : Cli.world)
    (appid : string) :
  unfailing k → (∀ appName, never_waits (fs appName) = true) → builds k fs w →
  (∀ X (e : eff X), calm (Event e (w X e)) = true) →
  (upload_run w appid).2 = Done ∧
  remote_calls (upload_run w appid).1 = ["GetApp"; "CreateAppVersion"] ∧
  ∃ zipFileName,
    omap built (upload_run w appid).1
    = [(appid, zipFileName, createAppArchive k (fs appid) appid zipFileName)].
Proof.
  intros Hk Hopen Hfs Hw. set (run_of := upload_run w appid).
  pose proof (run_answered_by (QZip.main (parse_zip (Upload appid))) w) as Hby.
  pose proof (always_run _ _ w (QZip_upload_builds appid)) as Hrun.
  change (run (QZip.main (parse_zip (Upload appid))) w) with run_of in Hby, Hrun.
  cbv beta in Hrun.
  assert (∀ ev, answered_by w ev → local_ok ev = true ∧
                ∀ a z o, built ev = Some (a, z, o) → o = createAppArchive k (fs a) a z)
    as Hev.
  { intros [X e x]. simpl. intros ->. specialize (Hw X e).
    destruct e; try (split; [exact Hw | discriminate]).
    rewrite Hfs. split.
    - destruct (createAppArchive_unfailing k (fs appName) appName zipFileName Hk
                  (Hopen appName)) as [s ->]. done.
    - simpl. by intros a z o [= <- <- <-]. }
  destruct Hrun as (Hr & Hcalls & z & out & Hbuilt).
  { apply Is_true_true, forallb_True. eapply Forall_impl; [exact Hby|].
    intros ev [Hok _]%Hev. by apply Is_true_true. }
  split_and!; [done..|]. exists z. rewrite Hbuilt. do 3 f_equal.
  assert (∃ ev, ev ∈ run_of.1 ∧ built ev = Some (appid, z, out)) as (ev & Hin & Hev').
  { apply list_elem_of_omap. rewrite Hbuilt. left. }
  destruct (Hev ev) as [_ Ho]; [|by apply Ho].
  by apply (proj1 (Forall_forall _ _) Hby).
Qed.

(** A world in which the service accepts every call and the archive of
    [fs] is built through [k]. *)
Definition building (k : sink) (fs : string → node) : Cli.world :=
  λ X e,
    match e in eff X return X with
    | Getenv _ => "/home/q"
    | Marshal _ => ([], None)
    | Unmarshal _ c => (c, None)
    | YamlUnmarshal _ app => (app, None)
    | WriteFile _ _ _ => None
    | ReadFile _ => inl []
    | Remove _ => None
    | Printf _ _ => ()
    | Render _ => ()
    | Remote _ r => (untouched r, None)
    | CreateAppArchive appName zipFileName =>
        createAppArchive k (fs appName) appName zipFileName
    | ExecOutput _ _ => ([], None)
    end.

Lemma upload_after_any_build_witness :
  (upload_run (building sound_sink (λ _, damaged_tree)) "app").2 = Done ∧
  remote_calls (upload_run (building sound_sink (λ _, damaged_tree)) "app").1
  = ["GetApp"; "CreateAppVersion"] ∧
  ∃ zipFileName,
    omap built (upload_run (building sound_sink (λ _, damaged_tree)) "app").1
    = [("app", zipFileName, createAppArchive sound_sink damaged_tree "app" zipFileName)].
Proof.
  apply (upload_after_any_build sound_sink (λ _, damaged_tree)
           (building sound_sink (λ _, damaged_tree)) "app").
  - exact sound_sink_unfailing.
  - intros appName. vm_compute. reflexivity.
  - intros appName zipFileName. reflexivity.
  - intros X e. destruct e; reflexivity.
Defined.

(** ** [create] *)

(** X16: [create] sends a descriptor only after it has read [app.yaml] in
    the directory named on the command line, and what it sends is what
    [yaml.Unmarshal] has left of the bytes read, whatever error the decoding
    returned. *)
Theorem create_sends_what_yaml_left (appname : string) :
  always (QZip.main (parse_zip (Create appname)))
    (λ tr _, ∀ appinfo, appinfo ∈ omap created tr →
       ∃ data, (appname +:+ "/app.yaml", data) ∈ omap read tr ∧
               (data, appinfo) ∈ omap yaml_decoded tr) ∧
  always (QExec.main (list_to_map (common (Create appname))))
    (λ tr _, ∀ appinfo, appinfo ∈ omap created tr →
       ∃ data, (appname +:+ "/app.yaml", data) ∈ omap read tr ∧
               (data, appinfo) ∈ omap yaml_decoded tr).
Proof.
  split; unfold_main; run_through; cbn; invert_elem; simplify_eq;
    eexists; split; elem_of_trace.
Qed.

(** ** [show] *)

Ltac has_rows :=
  cbn; intros Hnil;
  first [ discriminate Hnil
        | apply fmap_nil_inv in Hnil;
          match goal with
          | H : 0 < length _ |- _ => rewrite Hnil in H; simpl in H; lia
          end ].

(** X17: [show] never renders a table without rows: the table of the
    versions and the one of the workers are rendered only when there are
    some.  The first variant renders nothing after a failed [GetApp]; the
    second renders the description whatever [GetApp] returned. *)
Theorem show_renders_no_empty_table (appid : string) :
  always (QZip.main (parse_zip (Show appid)))
    (λ tr _, Forall (λ t, rows t ≠ []) (omap rendered tr) ∧
             (remote_errors tr = [] ∨ omap rendered tr = [])) ∧
  always (QExec.main (list_to_map (common (Show appid))))
    (λ tr _, Forall (λ t, rows t ≠ []) (omap rendered tr) ∧
             (remote_calls tr = [] ∨
              ∃ app rest, omap rendered tr = QZip.app_table app :: rest)).
Proof.
  split; unfold_main; run_through;
    try match goal with H : false = true |- _ => discriminate H end; cbn;
    (split; [|first [by left | right; reflexivity | right; by eexists _, _]]);
    repeat (constructor; [has_rows|]); constructor.
Qed.

(** ** Argument maps of any shape *)

(** The command words under which the source calls a method. *)
Definition words {T} (r : request T) : list string :=
  match r with
  | GetApps _ => ["list"]
  | GetApp _ _ => ["show"; "upload"]
  | CreateApp _ _ => ["create"]
  | CreateAppVersion _ _ _ => ["upload"]
  | StartApp _ _ | StartAppVersion _ _ _ => ["start"; "restart"]
  | StopApp _ _ | StopAppVersion _ _ _ => ["stop"; "restart"]
  | DeleteApp _ _ | DeleteAppVersion _ _ _ => ["delete"]
  end.

Definition licence (ev : event) : option (list string) :=
  match ev with
  | Event (Remote _ r) _ => Some (words r)
  | _ => None
  end.

(** The map has the command word. *)
Definition given (arguments : gmap string value) (word : string) : Prop :=
  arguments !! word = Some (VBool true).

(** One step of a run whose argument map is not known. *)
Ltac run_head :=
  lazymatch goal with
  | |- always (assert_bool (?m !! ?k) _) _ => destruct (m !! k) as [[[]| |]|] eqn:?
  | |- always (assert_string (?m !! ?k) _) _ => destruct (m !! k) as [[| |]|] eqn:?
  | |- always (check ?e _) _ => destruct e
  | |- always (match ?x with _ => _ end) _ => destruct x eqn:?
  end.

Ltac licensed :=
  repeat (constructor;
          [first [ apply Exists_cons_hd; eassumption
                 | apply Exists_cons_tl, Exists_cons_hd; eassumption ]|]);
  constructor.

(** X18: whatever map the parser returns, of the usage or not, a method of
    the collaborator is called only under a command word that the map has:
    no run deletes without [delete], stops without [stop] or [restart],
    uploads without [upload]. *)
Theorem no_call_without_its_word (arguments : gmap string value) :
  always (QZip.main arguments)
    (λ tr _, Forall (Exists (given arguments)) (omap licence tr)) ∧
  always (QExec.main arguments)
    (λ tr _, Forall (Exists (given arguments)) (omap licence tr)).
Proof.
  set (has := given arguments).
  assert (∀ word, arguments !! word = Some (VBool true) → has word) as Hhas by done.
  clearbody has.
  split;
    unfold QZip.main, QZip.dispatch, QZip.list, QZip.show, QZip.show_tables, QZip.create,
      QZip.upload, QZip.scoped, QZip.restart,
      QExec.main, QExec.dispatch, QExec.list, QExec.show, QExec.create, QExec.upload,
      QExec.scoped;
    repeat (cbn; first [answer | run_head]);
    repeat match goal with
           | H : arguments !! _ = Some (VBool true) |- _ => apply Hhas in H
           end;
    licensed.
Qed.

(** ** [connect] *)

Definition printed_map (ev : event) : option (gmap string value) :=
  match ev with
  | Event (Printf _ [OfArguments arguments]) _ => Some arguments
  | _ => None
  end.

(** X19: [connect] does not return once the record is written: it goes
    through the test of every command and ends by printing the argument
    map.  No other command prints the map. *)
Theorem connect_prints_the_arguments (cmd : command) :
  always (QZip.main (parse_zip cmd))
    (λ tr r, omap printed_map tr
             = match r with
               | Done => if is_connect cmd then [parse_zip cmd] else []
               | _ => []
               end) ∧
  ∀ arguments, parse_exec cmd = Some arguments →
    always (QExec.main arguments)
      (λ tr r, omap printed_map tr
               = match r with
                 | Done => if is_connect cmd then [arguments] else []
                 | _ => []
                 end).
Proof.
  split; [|intros arguments [Hr ->]%parse_exec_Some];
    destruct cmd as [service u p| | | | |appid [v|]|appid [v|]|appid [v|]|appid [v|]];
    try discriminate Hr; try clear Hr;
    unfold_main; run_through; reflexivity.
Qed.

